(** * textUtils.ts: the Markdown-to-HTML renderer

    A shallow embedding of [escapeHtml] and [markdownToHtml] from
    [src/utils/textUtils.ts].  A JavaScript string is the list of its UTF-16
    code units; every [String.prototype.replace] call of the source is the
    same [replace] function below, applied to a transcription of the regular
    expression literal the source passes to it. *)

From Stdlib Require Import String Ascii.
From Stdlib Require Import List NArith Arith Bool Lia.
Import ListNotations.
Local Open Scope N_scope.

(** ** Strings *)

(** A UTF-16 code unit. *)
Definition char := N.

Definition jsstring := list char.

(** The code units of an ASCII literal. *)
Definition str (s : string) : jsstring :=
  List.map N_of_ascii (list_ascii_of_string s).

Definition nl : char := 10.

(** ECMAScript LineTerminator: LF, CR, LS, PS. *)
Definition is_line_terminator (c : char) : bool :=
  (c =? 10) || (c =? 13) || (c =? 8232) || (c =? 8233).

(** ECMAScript WhiteSpace and LineTerminator, the set behind both the [\s]
    class and [String.prototype.trim]. *)
Definition is_space (c : char) : bool :=
  (c =? 9) || (c =? 10) || (c =? 11) || (c =? 12) || (c =? 13) || (c =? 32)
  || (c =? 160) || (c =? 5760) || ((8192 <=? c) && (c <=? 8202))
  || (c =? 8232) || (c =? 8233) || (c =? 8239) || (c =? 8287)
  || (c =? 12288) || (c =? 65279).

Fixpoint trimStart (s : jsstring) : jsstring :=
  match s with
  | c :: t => if is_space c then trimStart t else s
  | [] => []
  end.

Definition trimEnd (s : jsstring) : jsstring := rev (trimStart (rev s)).

Definition trim (s : jsstring) : jsstring := trimEnd (trimStart s).

Fixpoint startsWith (s p : jsstring) {struct p} : bool :=
  match p, s with
  | [], _ => true
  | a :: p', b :: s' => (a =? b) && startsWith s' p'
  | _ :: _, [] => false
  end.

(** [String.prototype.includes]. *)
Fixpoint includes (s p : jsstring) : bool :=
  startsWith s p ||
  match s with
  | [] => false
  | _ :: t => includes t p
  end.

(** [s.split(/\n/)]: the pattern matches exactly one LF, so the pieces are
    the maximal LF-free runs; the empty string gives one empty piece. *)
Fixpoint split_on (c : char) (s : jsstring) : list jsstring :=
  match s with
  | [] => [[]]
  | d :: t =>
      if d =? c then [] :: split_on c t
      else match split_on c t with
           | l :: ls => (d :: l) :: ls
           | [] => [[d]]
           end
  end.

(** ** Regular expressions *)

(** The fragment of ECMAScript patterns that textUtils.ts uses.  None of its
    patterns puts a capturing group under a quantifier, so the per-iteration
    reset of captures does not arise. *)
Inductive regex : Type :=
| Eps                                   (* empty pattern *)
| Lit (l : jsstring)                    (* a run of literal characters *)
| Cls (p : char -> bool)                (* a character class, [\s], [.] *)
| Seq (a b : regex)                     (* ab *)
| Alt (a b : regex)                     (* a|b *)
| Star (greedy : bool) (a : regex)      (* a* and a*? *)
| Group (n : nat) (a : regex)           (* the n-th capturing group *)
| Bol (multiline : bool)                (* ^ *)
| Eol (multiline : bool)                (* $ *)
| NegLook (a : regex).                  (* (?!a) *)

(** [a+] / [a+?] and [a?]. *)
Definition Plus (greedy : bool) (a : regex) : regex := Seq a (Star greedy a).
Definition Opt (a : regex) : regex := Alt a Eps.

(** Character classes of the source's patterns. *)
Definition dot (c : char) : bool := negb (is_line_terminator c).
Definition any (_ : char) : bool := true.
Definition alnum (c : char) : bool :=
  ((65 <=? c) && (c <=? 90)) || ((97 <=? c) && (c <=? 122))
  || ((48 <=? c) && (c <=? 57)).
Definition digit (c : char) : bool := (48 <=? c) && (c <=? 57).
Definition one_of (l : jsstring) (c : char) : bool := existsb (N.eqb c) l.
Definition none_of (l : jsstring) (c : char) : bool := negb (one_of l c).

(** A matcher state: the code unit before the current position (none at
    index 0), the input from the current position on, and the captures made
    so far, latest first. *)
Record mstate : Type := MState {
  prev : option char;
  rest : jsstring;
  caps : list (nat * jsstring)
}.

Fixpoint last_char (w : jsstring) (p : option char) : option char :=
  match w with
  | [] => p
  | c :: t => last_char t (Some c)
  end.

(** What was read between state [x] and a later state [y]. *)
Definition consumed (x y : mstate) : jsstring :=
  firstn (length (rest x) - length (rest y)) (rest x).

Definition at_bol (multiline : bool) (x : mstate) : bool :=
  match prev x with
  | None => true
  | Some c => multiline && is_line_terminator c
  end.

Definition at_eol (multiline : bool) (x : mstate) : bool :=
  match rest x with
  | [] => true
  | c :: _ => multiline && is_line_terminator c
  end.

(** The iterations of a quantifier, in the order backtracking tries them.
    As in RepeatMatcher, an iteration that reads nothing is dropped, so
    [S (length (rest x))] rounds are always enough ([star_loop_fuel]). *)
Fixpoint star_loop (step : mstate -> list mstate) (greedy : bool)
    (fuel : nat) (x : mstate) : list mstate :=
  match fuel with
  | O => []
  | S n =>
      let more :=
        flat_map (fun y =>
                    if (length (rest y) <? length (rest x))%nat
                    then star_loop step greedy n y else [])
                 (step x) in
      if greedy then more ++ [x] else x :: more
  end.

(** [m r x]: every way the pattern [r] can match at state [x], as the end
    states in backtracking priority order.  The match ECMAScript reports is
    the head of this list. *)
Fixpoint m (r : regex) (x : mstate) : list mstate :=
  match r with
  | Eps => [x]
  | Lit l =>
      if startsWith (rest x) l
      then [MState (last_char l (prev x)) (skipn (length l) (rest x)) (caps x)]
      else []
  | Cls p =>
      match rest x with
      | c :: t => if p c then [MState (Some c) t (caps x)] else []
      | [] => []
      end
  | Seq a b => flat_map (m b) (m a x)
  | Alt a b => m a x ++ m b x
  | Star g a => star_loop (m a) g (S (length (rest x))) x
  | Group n a =>
      List.map (fun y => MState (prev y) (rest y) ((n, consumed x y) :: caps y))
               (m a x)
  | Bol ml => if at_bol ml x then [x] else []
  | Eol ml => if at_eol ml x then [x] else []
  | NegLook a => match m a x with [] => [x] | _ :: _ => [] end
  end.

(** The same matcher in the form ECMAScript gives it: each pattern takes a
    continuation, and a failure of the continuation makes the pattern try
    its next alternative.  [bt_m] shows that it finds the head of [m]. *)
Fixpoint bt_star
    (step : mstate -> (mstate -> option mstate) -> option mstate)
    (greedy : bool) (fuel : nat) (x : mstate) (k : mstate -> option mstate)
  : option mstate :=
  match fuel with
  | O => None
  | S n =>
      let again :=
        step x (fun y => if (length (rest y) <? length (rest x))%nat
                         then bt_star step greedy n y k else None) in
      if greedy
      then match again with Some z => Some z | None => k x end
      else match k x with Some z => Some z | None => again end
  end.

Fixpoint bt (r : regex) (x : mstate) (k : mstate -> option mstate)
  : option mstate :=
  match r with
  | Eps => k x
  | Lit l =>
      if startsWith (rest x) l
      then k (MState (last_char l (prev x)) (skipn (length l) (rest x)) (caps x))
      else None
  | Cls p =>
      match rest x with
      | c :: t => if p c then k (MState (Some c) t (caps x)) else None
      | [] => None
      end
  | Seq a b => bt a x (fun y => bt b y k)
  | Alt a b => match bt a x k with Some z => Some z | None => bt b x k end
  | Star g a => bt_star (bt a) g (S (length (rest x))) x k
  | Group n a =>
      bt a x (fun y => k (MState (prev y) (rest y) ((n, consumed x y) :: caps y)))
  | Bol ml => if at_bol ml x then k x else None
  | Eol ml => if at_eol ml x then k x else None
  | NegLook a => match bt a x Some with Some _ => None | None => k x end
  end.

(** The first state of a list that a continuation accepts. *)
Fixpoint first_some (k : mstate -> option mstate) (l : list mstate)
  : option mstate :=
  match l with
  | [] => None
  | y :: t => match k y with Some z => Some z | None => first_some k t end
  end.

(** Capture [n] of a finished match; a group that did not take part reads
    as the empty string, as [$n] does in a replacement string. *)
Fixpoint capture (cs : list (nat * jsstring)) (n : nat) : jsstring :=
  match cs with
  | [] => []
  | (k, w) :: t => if Nat.eqb k n then w else capture t n
  end.

(** One attempt at one position, RegExpBuiltinExec's inner call. *)
Definition match_at (re : regex) (p : option char) (s : jsstring)
  : option mstate :=
  hd_error (m re (MState p s [])).

(** [s.replace(re, f)] for a pattern with the [g] flag.  The scan walks the
    input once: [skip] counts the code units of the current match that are
    still to be passed over (they were replaced), and at [skip = 0] a match
    is attempted at the current position, which is lastIndex.  After an empty
    match lastIndex moves on by one and that code unit is copied. *)
Fixpoint replace_go (re : regex) (f : list (nat * jsstring) -> jsstring)
    (p : option char) (s : jsstring) (skip : nat) {struct s} : jsstring :=
  match skip with
  | S k =>
      match s with
      | [] => []
      | c :: t => replace_go re f (Some c) t k
      end
  | O =>
      match match_at re p s with
      | Some y =>
          f (caps y) ++
          match s with
          | [] => []
          | c :: t =>
              match (length s - length (rest y))%nat with
              | O => c :: replace_go re f (Some c) t 0
              | S k => replace_go re f (Some c) t k
              end
          end
      | None =>
          match s with
          | [] => []
          | c :: t => c :: replace_go re f (Some c) t 0
          end
      end
  end.

Definition replace (re : regex) (f : list (nat * jsstring) -> jsstring)
    (s : jsstring) : jsstring :=
  replace_go re f None s 0.

(** Replacement strings: literal text and [$n] references. *)
Inductive rpart : Type :=
| RText (l : jsstring)
| RGroup (n : nat).

Definition template (t : list rpart) (cs : list (nat * jsstring)) : jsstring :=
  flat_map (fun p => match p with
                     | RText l => l
                     | RGroup n => capture cs n
                     end) t.

(** ** JavaScript values at the entry points *)

(** The callers pass [text!] where [text] may be [null], so the entry
    guards see arbitrary values.  Only [typeof] is ever asked of a value
    that is not a string, so numbers and objects carry no payload. *)
Inductive jsval : Type :=
| VUndefined
| VNull
| VBoolean (b : bool)
| VNumber
| VString (s : jsstring)
| VObject.

Inductive result (A : Type) : Type :=
| Ok (a : A)
| Throw.
Arguments Ok {A} a.
Arguments Throw {A}.

Definition bind {A B : Type} (r : result A) (k : A -> result B) : result B :=
  match r with
  | Ok a => k a
  | Throw => Throw
  end.

Notation "x <- r ;; k" := (bind r (fun x => k))
  (at level 61, r at next level, right associativity).

(** [typeof v !== 'string'] *)
Definition not_string (v : jsval) : bool :=
  match v with
  | VString _ => false
  | _ => true
  end.

(** [v.trim()]: a TypeError on anything that is not a string. *)
Definition call_trim (v : jsval) : result jsstring :=
  match v with
  | VString s => Ok (trim s)
  | _ => Throw
  end.

(** ** escapeHtml *)

Definition re_amp : regex := Lit (str "&").
Definition re_lt : regex := Lit (str "<").
Definition re_gt : regex := Lit (str ">").
Definition re_quot : regex := Lit [34].
Definition re_apos : regex := Lit (str "'").

Definition escape_string (text : jsstring) : jsstring :=
  let text := replace re_amp (template [RText (str "&amp;")]) text in
  let text := replace re_lt (template [RText (str "&lt;")]) text in
  let text := replace re_gt (template [RText (str "&gt;")]) text in
  let text := replace re_quot (template [RText (str "&quot;")]) text in
  replace re_apos (template [RText (str "&#039;")]) text.

Definition escapeHtml (text : jsval) : jsstring :=
  match text with
  | VString s => escape_string s
  | _ => []
  end.

(** What [escapeHtml] does to one code unit (lines 51-55 read together). *)
Definition escape_char (c : char) : jsstring :=
  if c =? 38 then str "&amp;"
  else if c =? 60 then str "&lt;"
  else if c =? 62 then str "&gt;"
  else if c =? 34 then str "&quot;"
  else if c =? 39 then str "&#039;"
  else [c].

(** ** markdownToHtml *)

(** "/```([\s\S]*?)```/g" *)
Definition re_fence : regex :=
  Seq (Lit (str "```")) (Seq (Group 1 (Star false (Cls any))) (Lit (str "```"))).

(** "/`([^`]+?)`/g" *)
Definition re_code : regex :=
  Seq (Lit (str "`"))
      (Seq (Group 1 (Plus false (Cls (none_of (str "`"))))) (Lit (str "`"))).

(** "/^(?:<strong>)?(Speaker\s[A-Za-z0-9]+:)(?:<\/strong>)?/gm" *)
Definition re_speaker : regex :=
  Seq (Bol true)
      (Seq (Opt (Lit (str "<strong>")))
           (Seq (Group 1 (Seq (Lit (str "Speaker"))
                              (Seq (Cls is_space)
                                   (Seq (Plus true (Cls alnum)) (Lit (str ":"))))))
                (Opt (Lit (str "</strong>"))))).

(** "/\*\*(.*?)\*\*/g" and "/__(.*?)__/g" *)
Definition re_strong (d : jsstring) : regex :=
  Seq (Lit d) (Seq (Group 1 (Star false (Cls dot))) (Lit d)).

(** "/(^|\s)\*(?!\s)(.*?)(?!\s)\*(\s|$)/g", and the same with [_] *)
Definition re_em (d : jsstring) : regex :=
  Seq (Group 1 (Alt (Bol false) (Cls is_space)))
      (Seq (Lit d)
           (Seq (NegLook (Cls is_space))
                (Seq (Group 2 (Star false (Cls dot)))
                     (Seq (NegLook (Cls is_space))
                          (Seq (Lit d)
                               (Group 3 (Alt (Cls is_space) (Eol false)))))))).

(** Line 114: "/^[\s]*[-\*]\s+G/gm", where the group G is [.*] in parentheses. *)
Definition re_ul : regex :=
  Seq (Bol true)
      (Seq (Star true (Cls is_space))
           (Seq (Cls (one_of (str "-*")))
                (Seq (Plus true (Cls is_space)) (Group 1 (Star true (Cls dot)))))).

(** Line 121: "/^[\s]*[0-9]+\.\s+G/gm", with the same group G. *)
Definition re_ol : regex :=
  Seq (Bol true)
      (Seq (Star true (Cls is_space))
           (Seq (Plus true (Cls digit))
                (Seq (Lit (str "."))
                     (Seq (Plus true (Cls is_space))
                          (Group 1 (Star true (Cls dot))))))).

(** "/<\/ul>\n?<ul>/g" and "/<\/ol>\n?<ol>/g" *)
Definition re_merge (close open : jsstring) : regex :=
  Seq (Lit close) (Seq (Opt (Lit [nl])) (Lit open)).

(** "/<p>\s*<\/p>/g" and "/<p><\/p>/g" *)
Definition re_empty_p : regex :=
  Seq (Lit (str "<p>")) (Seq (Star true (Cls is_space)) (Lit (str "</p>"))).
Definition re_empty_p' : regex := Lit (str "<p></p>").

(** The stages, in source order. *)
Definition codeBlocks (html : jsstring) : jsstring :=
  replace re_fence
    (fun cs => str "<pre><code>" ++ trim (capture cs 1) ++ str "</code></pre>")
    html.

Definition inlineCode (html : jsstring) : jsstring :=
  replace re_code
    (fun cs => str "<code>" ++ capture cs 1 ++ str "</code>") html.

Definition speakerLabels (html : jsstring) : jsstring :=
  replace re_speaker
    (template [RText (str "<strong>"); RGroup 1; RText (str "</strong>")]) html.

Definition strong_template : list (nat * jsstring) -> jsstring :=
  template [RText (str "<strong>"); RGroup 1; RText (str "</strong>")].

Definition bold (html : jsstring) : jsstring :=
  replace (re_strong (str "__")) strong_template
    (replace (re_strong (str "**")) strong_template html).

Definition em_template : list (nat * jsstring) -> jsstring :=
  template [RGroup 1; RText (str "<em>"); RGroup 2; RText (str "</em>"); RGroup 3].

Definition italic (html : jsstring) : jsstring :=
  replace (re_em (str "_")) em_template
    (replace (re_em (str "*")) em_template html).

Definition unorderedLists (html : jsstring) : jsstring :=
  let html :=
    replace re_ul
      (fun cs => str "<ul><li>" ++ trim (capture cs 1) ++ str "</li></ul>") html in
  replace (re_merge (str "</ul>") (str "<ul>")) (template []) html.

Definition orderedLists (html : jsstring) : jsstring :=
  let html :=
    replace re_ol
      (fun cs => str "<ol><li>" ++ trim (capture cs 1) ++ str "</li></ol>") html in
  replace (re_merge (str "</ol>") (str "<ol>")) (template []) html.

(** The prefixes that mark a line as list or code markup. *)
Definition is_container_line (line : jsstring) : bool :=
  startsWith line (str "<li>") || startsWith line (str "<ul>")
  || startsWith line (str "<ol>") || startsWith line (str "<pre>")
  || startsWith line (str "<code>").

(** The callback of [lines.map]; [inParagraph] is the variable it closes
    over, threaded here as state. *)
Definition paragraphLine (inParagraph : bool) (line : jsstring)
  : jsstring * bool :=
  let line := trim line in
  match line with
  | [] => if inParagraph then (str "</p>", false) else ([], inParagraph)
  | _ :: _ =>
      if is_container_line line then
        if inParagraph then (str "</p>" ++ line, false) else (line, inParagraph)
      else if negb inParagraph then (str "<p>" ++ line, true)
      else (str "<br />" ++ line, inParagraph)
  end.

(** [lines.map(...).join('')], returning the final [inParagraph] too. *)
Fixpoint paragraphLines (inParagraph : bool) (lines : list jsstring)
  : jsstring * bool :=
  match lines with
  | [] => ([], inParagraph)
  | line :: more =>
      let (out, st) := paragraphLine inParagraph line in
      let (outs, st') := paragraphLines st more in
      (out ++ outs, st')
  end.

(** Lines 156-158: a paragraph still open after the last line is closed. *)
Definition closeParagraph (r : jsstring * bool) : jsstring :=
  let (out, inParagraph) := r in
  if inParagraph then out ++ str "</p>" else out.

Definition paragraphs (html : jsstring) : jsstring :=
  closeParagraph (paragraphLines false (split_on nl html)).

Definition removeEmptyParagraphs (html : jsstring) : jsstring :=
  replace re_empty_p' (template [])
    (replace re_empty_p (template []) html).

(** The body of [markdownToHtml] after its guard: the buffer as it reaches
    line 130, and the block assembly of lines 130-161. *)
Definition inlinePasses (markdownText : jsval) : jsstring :=
  let html := escapeHtml markdownText in
  let html := codeBlocks html in
  let html := inlineCode html in
  let html := speakerLabels html in
  let html := bold html in
  let html := italic html in
  let html := unorderedLists html in
  orderedLists html.

Definition render (markdownText : jsval) : jsstring :=
  let html := inlinePasses markdownText in
  let html := paragraphs html in
  removeEmptyParagraphs html.

Definition markdownToHtml (markdownText : jsval) : result jsstring :=
  if not_string markdownText then Ok []
  else
    t <- call_trim markdownText ;;
    match t with
    | [] => Ok []
    | _ :: _ => Ok (render markdownText)
    end.

(** ** Properties stated about the buffer *)

(** [marked ts s]: what follows each [<] of [s] is accepted by [ts]. *)
Fixpoint marked (ts : jsstring -> bool) (s : jsstring) : bool :=
  match s with
  | [] => true
  | c :: r => (if N.eqb c 60 then ts r else true) && marked ts r
  end.

(** [start_of vocab r]: [r] begins with one of the words of [vocab]. *)
Definition start_of (vocab : list jsstring) (r : jsstring) : bool :=
  existsb (startsWith r) vocab.

(** A character that occurs in no word of [vocab]. *)
Definition outside (vocab : list jsstring) (d : char) : bool :=
  forallb (fun t => none_of t d) vocab.

(** The tags written by the passes before block assembly, and all the tags
    of the renderer, each without its [<]. *)
Definition inline_tags : list jsstring :=
  List.map str
    ["pre>"; "/pre>"; "code>"; "/code>"; "strong>"; "/strong>"; "em>"; "/em>";
     "ul>"; "/ul>"; "ol>"; "/ol>"; "li>"; "/li>"]%string.

Definition all_tags : list jsstring :=
  inline_tags ++ List.map str ["p>"; "/p>"; "br />"]%string.

(** Every [<] of the buffer opens a tag of the inline passes. *)
Definition tags_only (s : jsstring) : bool := marked (start_of inline_tags) s.

(** A character at which the buffer can be cut without cutting a tag. *)
Definition delim (d : char) : bool := outside inline_tags d.

(** Every [<] of the output opens one of the renderer's tags. *)
Definition html_only (s : jsstring) : bool := marked (start_of all_tags) s.

(** What follows a [<] in the output of block assembly: a tag as above,
    where an opening paragraph tag has text behind it, text that starts
    neither with white space nor with a tag other than an inline one. *)
Definition paragraph_start (r : jsstring) : bool :=
  start_of inline_tags r || startsWith r (str "br />")
  || startsWith r (str "/p>")
  || (startsWith r (str "p>") &&
      match skipn 2 r with
      | c :: r' =>
          negb (is_space c) && (negb (N.eqb c 60) || start_of inline_tags r')
      | [] => false
      end).

(** How the block assembler sees a line (lines 133-148): blank after
    trimming, or ordinary text, which is neither blank nor list or code
    markup. *)
Definition blank_line (line : jsstring) : bool :=
  match trim line with
  | [] => true
  | _ :: _ => false
  end.

Definition text_line (line : jsstring) : bool :=
  negb (blank_line line) && negb (is_container_line (trim line)).

(** The inside of a paragraph after its first line: each further line of the
    run behind a line break. *)
Definition broken_lines (ls : list jsstring) : jsstring :=
  concat (List.map (fun l => str "<br />" ++ trim l) ls).

(** The lines around a run of text lines: the run starts the buffer or
    follows a line that is not text, and it ends the buffer or is followed by
    a blank line. *)
Definition run_start (before : list jsstring) : bool :=
  match rev before with
  | [] => true
  | x :: _ => negb (text_line x)
  end.

Definition run_end (after : list jsstring) : bool :=
  match after with
  | [] => true
  | e :: _ => blank_line e
  end.

(** Not a string, or a string that is empty or white space only. *)
Definition blank_input (v : jsval) : bool :=
  match v with
  | VString s => forallb is_space s
  | _ => true
  end.

(** Characters that some pass of the renderer reacts to, and text without
    any of them. *)
Definition markup_char (c : char) : bool :=
  one_of (str "&<>'`*_-:" ++ [34]) c || digit c.

Definition plain (s : jsstring) : bool :=
  forallb (fun c => negb (markup_char c)) s.

(** The shape of a named character reference: an ampersand, a name of
    letters and digits that starts with a letter, a semicolon.  A numeric
    reference has [#] behind the ampersand instead. *)
Definition named_reference (r : jsstring) : bool :=
  match r with
  | 38 :: c :: t =>
      alnum c && negb (digit c) &&
      match rev t with
      | 59 :: name => forallb alnum name
      | _ => false
      end
  | _ => false
  end.

(** ** cleanYoutubeUrl *)

(** [a{n}] and [a{n,}]: [n] copies of [a], and [n] copies followed by the
    iterations of [a].  The atoms so quantified in textUtils.ts hold no
    capturing group. *)
Fixpoint times (n : nat) (a : regex) : regex :=
  match n with
  | O => Eps
  | S k => Seq a (times k a)
  end.

Fixpoint at_least (n : nat) (greedy : bool) (a : regex) : regex :=
  match n with
  | O => Star greedy a
  | S k => Seq a (at_least k greedy a)
  end.

(** [s.match(re)] for a pattern without the [g] flag: the match at the
    first position, from index 0 to the end of the input, where the pattern
    matches. *)
Fixpoint exec_from (re : regex) (p : option char) (s : jsstring)
  : option mstate :=
  match match_at re p s with
  | Some y => Some y
  | None =>
      match s with
      | [] => None
      | c :: t => exec_from re (Some c) t
      end
  end.

Definition exec (re : regex) (s : jsstring) : option mstate :=
  exec_from re None s.

(** "[a-zA-Z0-9_-]" *)
Definition idchar (c : char) : bool := alnum c || (c =? 95) || (c =? 45).

(** "([a-zA-Z0-9_-]{11})" *)
Definition video_id : regex := Group 1 (times 11 (Cls idchar)).

(** "(?:https?:\/\/)?(?:www\.)?" *)
Definition host_prefix : regex :=
  Seq (Opt (Seq (Lit (str "http")) (Seq (Opt (Lit (str "s"))) (Lit (str "://")))))
      (Opt (Lit (str "www."))).

(** The first six patterns of line 16: the prefix, a literal path, the id. *)
Definition url_pattern (path : jsstring) : regex :=
  Seq host_prefix (Seq (Lit path) video_id).

(** The seventh, for attribution links: after the literal, a lazy [.*?], the
    encoded watch path, the id, and an optional second group that starts
    with [&] or [%26] and runs to the end of the line. *)
Definition re_attribution : regex :=
  Seq host_prefix
      (Seq (Lit (str "youtube.com/attribution_link?a="))
           (Seq (Star false (Cls dot))
                (Seq (Lit (str "&u=%2Fwatch%3Fv%3D"))
                     (Seq video_id
                          (Opt (Group 2
                                  (Alt (Seq (Lit (str "&")) (Star true (Cls dot)))
                                       (Seq (Lit (str "%26"))
                                            (Star true (Cls dot)))))))))).

Definition patterns : list regex :=
  [url_pattern (str "youtube.com/watch?v=");
   url_pattern (str "youtu.be/");
   url_pattern (str "youtube.com/embed/");
   url_pattern (str "youtube.com/live/");
   url_pattern (str "youtube.com/shorts/");
   url_pattern (str "youtube.com/v/");
   re_attribution].

(** "/^([a-zA-Z0-9_-]{11})$/" *)
Definition re_id_only : regex := Seq (Bol false) (Seq video_id (Eol false)).

Record cleaned : Type := Cleaned {
  cleanUrl : option jsstring;
  videoId : option jsstring
}.

Definition not_cleaned : cleaned := Cleaned None None.

Definition watch_url (id : jsstring) : jsstring :=
  str "https://www.youtube.com/watch?v=" ++ id.

(** [match && match[1]]: the first group of a match, when it is not empty. *)
Definition group1 (r : option mstate) : option jsstring :=
  match r with
  | Some y =>
      match capture (caps y) 1 with
      | [] => None
      | id => Some id
      end
  | None => None
  end.

(** The loop of lines 26-32: the first pattern that gives an id. *)
Fixpoint first_id (ps : list regex) (s : jsstring) : option jsstring :=
  match ps with
  | [] => None
  | re :: more =>
      match group1 (exec re s) with
      | Some id => Some id
      | None => first_id more s
      end
  end.

Definition cleanYoutubeUrl (youtubeUrl : jsval) : cleaned :=
  match youtubeUrl with
  | VString ((_ :: _) as s) =>
      match first_id patterns s with
      | Some id => Cleaned (Some (watch_url id)) (Some id)
      | None =>
          match group1 (exec re_id_only s) with
          | Some id => Cleaned (Some (watch_url id)) (Some id)
          | None => not_cleaned
          end
      end
  | _ => not_cleaned
  end.

(** How a link may be written in front of the host, the paths of the first
    six patterns, and text without a slash. *)
Definition url_prefixes : list jsstring :=
  [str "https://www."; str "https://"; str "http://www."; str "http://";
   str "www."; []].

Definition url_paths : list jsstring :=
  [str "youtube.com/watch?v="; str "youtu.be/"; str "youtube.com/embed/";
   str "youtube.com/live/"; str "youtube.com/shorts/"; str "youtube.com/v/"].

Definition slash_free (s : jsstring) : bool :=
  forallb (fun c => negb (c =? 47)) s.

(** ** sanitizeVideoTitleForFilename *)

(** "\w" *)
Definition wordchar (c : char) : bool := alnum c || (c =? 95).

(** "[^\w\s\-\.]" *)
Definition unsafe_char (c : char) : bool :=
  negb (wordchar c || is_space c || (c =? 45) || (c =? 46)).

Definition re_unsafe : regex := Cls unsafe_char.

(** "\s+" and "_{2,}" *)
Definition re_spaces : regex := Plus true (Cls is_space).
Definition re_underscores : regex := at_least 2 true (Lit (str "_")).

Definition underscore : list (nat * jsstring) -> jsstring :=
  template [RText (str "_")].

(** The function is private to the module and its one caller hands it a
    string, so [!title] asks whether that string is empty. *)
Definition sanitizeVideoTitleForFilename (title : jsstring) : jsstring :=
  match title with
  | [] => str "untitled"
  | _ :: _ =>
      let sanitized := replace re_unsafe underscore title in
      let sanitized := replace re_spaces underscore sanitized in
      let sanitized := replace re_underscores underscore sanitized in
      firstn 100 sanitized
  end.

(** No two [c] side by side. *)
Fixpoint no_double (c : char) (s : jsstring) : bool :=
  match s with
  | a :: t =>
      match t with
      | b :: _ => negb ((a =? c) && (b =? c))
      | [] => true
      end && no_double c t
  | [] => true
  end.

(** The characters a sanitized title is made of. *)
Definition filename_char (c : char) : bool :=
  wordchar c || (c =? 45) || (c =? 46).

(** ** The language table of constants.ts and its reverse lookup *)

Fixpoint str_eqb (a b : jsstring) : bool :=
  match a, b with
  | [], [] => true
  | x :: a', y :: b' => (x =? y) && str_eqb a' b'
  | _, _ => false
  end.

(** The object literal, keys in the order they are written, which is the
    order [Object.keys] lists them in. *)
Definition LANGUAGES : list (jsstring * jsstring) :=
  [(str "English", str "en"); (str "Spanish", str "es");
   (str "French", str "fr"); (str "German", str "de");
   (str "Japanese", str "ja"); (str "Korean", str "ko");
   (str "Chinese (Simplified)", str "zh-CN"); (str "Hindi", str "hi");
   (str "Arabic", str "ar"); (str "Portuguese", str "pt")].

(** App.tsx, lines 189 and 209:
    "Object.keys(LANGUAGES).find(key => LANGUAGES[key] === targetLanguage) || 'English'" *)
Definition languageName (targetLanguage : jsstring) : jsstring :=
  match find (fun kv => str_eqb (snd kv) targetLanguage) LANGUAGES with
  | Some ((_ :: _) as key, _) => key
  | _ => str "English"
  end.

(** ** What the output is made of *)

(** The characters of the renderer's tags. *)
Definition tag_char (c : char) : bool := one_of (60 :: concat all_tags) c.

Definition quote_char (c : char) : bool := (c =? 34) || (c =? 39).

(** The references [escapeHtml] writes, each without its ampersand, and a
    string in which every ampersand starts one of them. *)
Definition references : list jsstring :=
  List.map str ["amp;"; "lt;"; "gt;"; "quot;"; "#039;"]%string.

Fixpoint references_only (s : jsstring) : bool :=
  match s with
  | [] => true
  | c :: r => (if c =? 38 then start_of references r else true)
              && references_only r
  end.

(** Paragraph tags in pairs: read from the left with [open] telling whether
    a paragraph is open, an opening tag stands only outside a paragraph, a
    closing tag and a line break only inside one, and no paragraph is open
    at the end. *)
Fixpoint paired (open : bool) (s : jsstring) : bool :=
  match s with
  | [] => negb open
  | _ :: t =>
      if startsWith s (str "<p>") then negb open && paired true t
      else if startsWith s (str "</p>") then open && paired false t
      else if startsWith s (str "<br />") then open && paired open t
      else paired open t
  end.

(** ** Lists as the input gives them *)

(** Lines with a line feed between them. *)
Fixpoint join_lines (ls : list jsstring) : jsstring :=
  match ls with
  | [] => []
  | l :: more =>
      match more with
      | [] => l
      | _ :: _ => l ++ nl :: join_lines more
      end
  end.

(** The text of a list item: plain text on one line that does not begin
    with white space (and so is not empty). *)
Definition item_text (i : jsstring) : bool :=
  plain i && forallb dot i &&
  match i with
  | c :: _ => negb (is_space c)
  | [] => false
  end.

(** A number and the text of an item: the number is one digit or more. *)
Definition numbered (ni : jsstring * jsstring) : bool :=
  match fst ni with
  | [] => false
  | _ :: _ => forallb digit (fst ni)
  end && item_text (snd ni).

(** ** Speaker lines as the input gives them *)

(** A line of a transcript: the label, written bare or between two pairs of
    asterisks, and behind it what was said.  The label is the word Speaker,
    one white-space character, a token and a colon. *)
Record turn : Type := Turn {
  starred : bool;
  gap : char;
  token : jsstring;
  said : jsstring
}.

Definition label (t : turn) : jsstring :=
  str "Speaker" ++ gap t :: token t ++ str ":".

Definition turn_line (t : turn) : jsstring :=
  (if starred t then str "**" ++ label t ++ str "**" else label t) ++ said t.

(** The same turn with its label written bare. *)
Definition bare (t : turn) : turn := Turn false (gap t) (token t) (said t).

(** The label in one strong-emphasis container, with the text behind it. *)
Definition labelled (t : turn) : jsstring :=
  str "<strong>" ++ label t ++ str "</strong>" ++ said t.

(** A character that stays as it is behind a label: it ends no line, is not
    replaced by [escapeHtml], and is no backtick, asterisk or underscore.
    Digits, hyphens, full stops and colons are among them. *)
Definition literal_char (c : char) : bool :=
  dot c && none_of (str "&<>'`*_" ++ [34]) c.

(** The white space of the label does not end the line, the token is one
    letter or digit or more, and the text is literal. *)
(** The scan stands at the start of a line: at index 0 or behind a line
    terminator. *)
Definition line_start (p : option char) : bool := at_bol true (MState p [] []).

Definition well_formed (t : turn) : bool :=
  is_space (gap t) && dot (gap t)
  && match token t with
     | [] => false
     | _ :: _ => forallb alnum (token t)
     end
  && forallb literal_char (said t).

Local Close Scope N_scope.

(** ** The matcher: structure of its results *)

Section Matcher.

Lemma startsWith_app (s p : jsstring) :
  startsWith s p = true -> s = p ++ skipn (length p) s.
Proof.
  revert s; induction p as [|a p IH]; intros [|b s]; simpl; try easy.
  intros H; apply andb_prop in H as [E H].
  apply N.eqb_eq in E; subst b.
  now rewrite <- IH.
Qed.

Lemma last_char_app (w v : jsstring) (q : option char) :
  last_char (w ++ v) q = last_char v (last_char w q).
Proof. revert q; induction w; simpl; auto. Qed.

Lemma consumed_app (x z : mstate) (w : jsstring) :
  rest x = w ++ rest z -> consumed x z = w.
Proof.
  unfold consumed; intros ->.
  rewrite length_app, Nat.add_sub.
  rewrite firstn_app, firstn_all, Nat.sub_diag; simpl.
  apply app_nil_r.
Qed.

(** The fuel of [star_loop] is only a bound: any two values above the
    length of the remaining input give the same iterations. *)
Lemma star_loop_fuel (step : mstate -> list mstate) (g : bool) :
  forall n n' x,
    length (rest x) < n -> length (rest x) < n' ->
    star_loop step g n x = star_loop step g n' x.
Proof.
  induction n as [|n IH]; intros [|n'] x Hn Hn'; try lia.
  simpl.
  assert (E : forall l,
             flat_map (fun y => if length (rest y) <? length (rest x)
                                then star_loop step g n y else []) l =
             flat_map (fun y => if length (rest y) <? length (rest x)
                                then star_loop step g n' y else []) l).
  { induction l as [|y l IHl]; simpl; [easy|].
    rewrite IHl; f_equal.
    destruct (Nat.ltb_spec (length (rest y)) (length (rest x))); [|easy].
    apply IH; lia. }
  now rewrite E.
Qed.

(** So the bound that [m] passes is as good as any larger one. *)
Lemma m_star_fuel (g : bool) (a : regex) (x : mstate) (n : nat) :
  length (rest x) < n -> m (Star g a) x = star_loop (m a) g n x.
Proof. intros H; cbn [m]; apply star_loop_fuel; lia. Qed.

(** A state reached by the iterations of a quantifier. *)
Lemma in_star_loop (step : mstate -> list mstate) (P : mstate -> mstate -> Prop) :
  (forall x, P x x) ->
  (forall x z y, In z (step x) -> P z y -> P x y) ->
  forall g n x y, In y (star_loop step g n x) -> P x y.
Proof.
  intros Hrefl Hstep g n; induction n as [|n IH]; intros x y H; simpl in H; [easy|].
  assert (Hm : In y (flat_map (fun z => if length (rest z) <? length (rest x)
                                        then star_loop step g n z else [])
                              (step x)) -> P x y).
  { intros Hin; apply in_flat_map in Hin as (z & Hz & Hy).
    destruct (length (rest z) <? length (rest x)); [|easy].
    eapply Hstep; eauto. }
  destruct g.
  - apply in_app_or in H as [H|[<-|[]]]; auto.
  - destruct H as [<-|H]; auto.
Qed.

(** Every match reads a prefix of the remaining input and leaves the rest
    untouched. *)
Lemma m_consumes (r : regex) :
  forall x y, In y (m r x) ->
    exists w, rest x = w ++ rest y /\ prev y = last_char w (prev x).
Proof.
  induction r as [|l|p|a IHa b IHb|a IHa b IHb|g a IHa|n a IHa|ml|ml|a IHa];
    intros x y H; cbn [m] in H.
  - destruct H as [<-|[]]; now exists [].
  - destruct (startsWith (rest x) l) eqn:E; [|easy].
    destruct H as [<-|[]]; exists l; simpl; split; [|easy].
    now apply startsWith_app.
  - destruct (rest x) as [|c t] eqn:E; [easy|].
    destruct (p c); [|easy].
    destruct H as [<-|[]]; now exists [c].
  - apply in_flat_map in H as (z & Hz & Hy).
    apply IHa in Hz as (w1 & E1 & P1); apply IHb in Hy as (w2 & E2 & P2).
    exists (w1 ++ w2); rewrite <- app_assoc, <- E2, E1; split; [easy|].
    now rewrite last_char_app, <- P1.
  - apply in_app_or in H as [H|H]; auto.
  - revert H; apply in_star_loop with
      (P := fun x y => exists w, rest x = w ++ rest y /\ prev y = last_char w (prev x)).
    + intros x0; now exists [].
    + intros x0 z y0 Hz (w2 & E2 & P2).
      apply IHa in Hz as (w1 & E1 & P1).
      exists (w1 ++ w2); rewrite <- app_assoc, <- E2, E1; split; [easy|].
      now rewrite last_char_app, <- P1.
  - apply in_map_iff in H as (z & <- & Hz); simpl; auto.
  - destruct (at_bol ml x); [|easy]. destruct H as [<-|[]]; now exists [].
  - destruct (at_eol ml x); [|easy]. destruct H as [<-|[]]; now exists [].
  - destruct (m a x); [|easy]. destruct H as [<-|[]]; now exists [].
Qed.

Lemma in_m_lit (l : jsstring) (x y : mstate) :
  In y (m (Lit l) x) ->
  exists t, rest x = l ++ t /\ y = MState (last_char l (prev x)) t (caps x).
Proof.
  simpl; destruct (startsWith (rest x) l) eqn:E; [|easy].
  intros [<-|[]]; eexists; split; [|reflexivity].
  now apply startsWith_app.
Qed.

Lemma in_m_cls (p : char -> bool) (x y : mstate) :
  In y (m (Cls p) x) ->
  exists c t, rest x = c :: t /\ p c = true /\ y = MState (Some c) t (caps x).
Proof.
  simpl; destruct (rest x) as [|c t]; [easy|].
  destruct (p c) eqn:E; [|easy].
  intros [<-|[]]; exists c, t; auto.
Qed.

Lemma in_m_seq (a b : regex) (x y : mstate) :
  In y (m (Seq a b) x) -> exists z, In z (m a x) /\ In y (m b z).
Proof. simpl; intros H; now apply in_flat_map in H. Qed.

Lemma in_m_alt (a b : regex) (x y : mstate) :
  In y (m (Alt a b) x) -> In y (m a x) \/ In y (m b x).
Proof. simpl; apply in_app_or. Qed.

Lemma in_m_eps (x y : mstate) : In y (m Eps x) -> y = x.
Proof. simpl; intros [<-|[]]; easy. Qed.

Lemma in_m_bol (ml : bool) (x y : mstate) :
  In y (m (Bol ml) x) -> y = x /\ at_bol ml x = true.
Proof. simpl; destruct (at_bol ml x); [|easy]; intros [<-|[]]; easy. Qed.

Lemma in_m_eol (ml : bool) (x y : mstate) :
  In y (m (Eol ml) x) -> y = x /\ at_eol ml x = true.
Proof. simpl; destruct (at_eol ml x); [|easy]; intros [<-|[]]; easy. Qed.

Lemma in_m_neglook (a : regex) (x y : mstate) :
  In y (m (NegLook a) x) -> y = x /\ m a x = [].
Proof. simpl; destruct (m a x); [|easy]; intros [<-|[]]; easy. Qed.

Lemma m_cls_nil (p : char -> bool) (x : mstate) :
  m (Cls p) x = [] ->
  match rest x with [] => True | d :: _ => p d = false end.
Proof. simpl; destruct (rest x) as [|d t]; [easy|]. now destruct (p d). Qed.

Lemma in_m_group (n : nat) (a : regex) (x y : mstate) :
  In y (m (Group n a) x) ->
  exists z w, In z (m a x) /\ rest x = w ++ rest z /\
              y = MState (prev z) (rest z) ((n, w) :: caps z).
Proof.
  simpl; intros H; apply in_map_iff in H as (z & <- & Hz).
  destruct (m_consumes _ _ _ Hz) as (w & E & _).
  exists z, w; repeat split; auto.
  now rewrite (consumed_app x z w E).
Qed.

(** Iterating a character class reads a run of the class and keeps the
    captures. *)
Lemma in_m_star_cls (g : bool) (p : char -> bool) (x y : mstate) :
  In y (m (Star g (Cls p)) x) ->
  exists w t q, rest x = w ++ t /\ Forall (fun c => p c = true) w /\
                y = MState q t (caps x).
Proof.
  cbn [m]; apply in_star_loop with
    (P := fun x y => exists w t q, rest x = w ++ t /\
                                   Forall (fun c => p c = true) w /\
                                   y = MState q t (caps x)).
  - intros [q t cs]; now exists [], t, q.
  - intros x0 z y0 Hz (w & t & q & E & F & ->).
    apply in_m_cls in Hz as (c & t' & E1 & Pc & ->).
    simpl in E; subst t'.
    exists (c :: w), t, q; simpl; rewrite E1; auto.
Qed.

(** The head of a sequence: some way through the first part, then the head
    of the second. *)
Lemma hd_flat_map {A B : Type} (f : A -> list B) (l : list A) (y : B) :
  hd_error (flat_map f l) = Some y ->
  exists z, In z l /\ hd_error (f z) = Some y.
Proof.
  induction l as [|a l IH]; simpl; [easy|].
  destruct (f a) as [|b t] eqn:E; simpl.
  - intros H; destruct (IH H) as (z & Hz & Hy); eauto.
  - intros H; exists a; rewrite E; auto.
Qed.

Lemma hd_m_seq (a b : regex) (x y : mstate) :
  hd_error (m (Seq a b) x) = Some y ->
  exists z, In z (m a x) /\ hd_error (m b z) = Some y.
Proof. apply hd_flat_map. Qed.

Lemma hd_in {A : Type} (l : list A) (y : A) : hd_error l = Some y -> In y l.
Proof. destruct l; simpl; [easy|]; intros [= ->]; auto. Qed.

Lemma hd_m_group (n : nat) (a : regex) (x y : mstate) :
  hd_error (m (Group n a) x) = Some y ->
  exists z w, hd_error (m a x) = Some z /\ rest x = w ++ rest z /\
              y = MState (prev z) (rest z) ((n, w) :: caps z).
Proof.
  simpl; destruct (m a x) as [|z t] eqn:E; simpl; [easy|]; intros [= <-].
  assert (Hz : In z (m a x)) by (rewrite E; now left).
  destruct (m_consumes _ _ _ Hz) as (w & Ew & _).
  exists z, w; repeat split; auto.
  now rewrite (consumed_app x z w Ew).
Qed.

(** The first result of a greedy class iteration is the longest run: what
    follows it is the end of input or a character outside the class. *)
Lemma hd_star_greedy_cls (p : char -> bool) :
  forall n x y,
    length (rest x) < n ->
    hd_error (star_loop (m (Cls p)) true n x) = Some y ->
    match rest y with [] => True | d :: _ => p d = false end.
Proof.
  induction n as [|n IH]; intros x y Hn H; [lia|].
  cbn [star_loop] in H.
  destruct (rest x) as [|c t] eqn:E.
  - assert (S0 : m (Cls p) x = []) by (simpl; now rewrite E).
    rewrite S0 in H; simpl in H.
    injection H as <-; now rewrite E.
  - destruct (p c) eqn:Pc.
    + assert (S0 : m (Cls p) x = [MState (Some c) t (caps x)])
        by (simpl; now rewrite E, Pc).
      rewrite S0 in H; cbn [flat_map rest] in H.
      assert (L : (length t <? length (c :: t)) = true)
        by (apply Nat.ltb_lt; simpl; lia).
      rewrite L, app_nil_r in H.
      set (z := MState (Some c) t (caps x)) in *.
      destruct (star_loop (m (Cls p)) true n z) as [|y0 l0] eqn:Ez.
      * destruct n; [simpl in Hn; lia|].
        cbn [star_loop] in Ez. now destruct (flat_map _ _) in Ez.
      * simpl in H; injection H as <-.
        apply (IH z); [simpl in *; lia|]. now rewrite Ez.
    + assert (S0 : m (Cls p) x = []) by (simpl; now rewrite E, Pc).
      rewrite S0 in H; simpl in H.
      injection H as <-; now rewrite E, Pc.
Qed.

Lemma hd_m_star_greedy_cls (p : char -> bool) (x y : mstate) :
  hd_error (m (Star true (Cls p)) x) = Some y ->
  match rest y with [] => True | d :: _ => p d = false end.
Proof. cbn [m]; apply hd_star_greedy_cls; lia. Qed.

(** *** The list of matches against backtracking *)

Lemma first_some_app (k : mstate -> option mstate) (l l' : list mstate) :
  first_some k (l ++ l') =
  match first_some k l with Some z => Some z | None => first_some k l' end.
Proof.
  induction l as [|y l IH]; simpl; [easy|].
  now destruct (k y).
Qed.

Lemma first_some_ext (k k' : mstate -> option mstate) (l : list mstate) :
  (forall y, In y l -> k y = k' y) -> first_some k l = first_some k' l.
Proof.
  induction l as [|y l IH]; simpl; intros H; [easy|].
  rewrite (H y) by now left.
  rewrite IH; [easy|]; intros; apply H; now right.
Qed.

Lemma first_some_flat_map (k : mstate -> option mstate)
    (f : mstate -> list mstate) (l : list mstate) :
  first_some k (flat_map f l) = first_some (fun y => first_some k (f y)) l.
Proof.
  induction l as [|y l IH]; simpl; [easy|].
  now rewrite first_some_app, IH.
Qed.

Lemma first_some_map (k : mstate -> option mstate) (f : mstate -> mstate)
    (l : list mstate) :
  first_some k (List.map f l) = first_some (fun y => k (f y)) l.
Proof.
  induction l as [|y l IH]; simpl; [easy|].
  now rewrite IH.
Qed.

Lemma first_some_Some (l : list mstate) : first_some Some l = hd_error l.
Proof. now destruct l. Qed.

Lemma bt_star_loop (sb : mstate -> (mstate -> option mstate) -> option mstate)
    (sm : mstate -> list mstate) (g : bool) :
  (forall x k, sb x k = first_some k (sm x)) ->
  forall n x k, bt_star sb g n x k = first_some k (star_loop sm g n x).
Proof.
  intros H; induction n as [|n IH]; intros x k; [easy|].
  assert (E : sb x (fun y => if length (rest y) <? length (rest x)
                             then bt_star sb g n y k else None) =
              first_some k
                (flat_map (fun y => if length (rest y) <? length (rest x)
                                    then star_loop sm g n y else [])
                          (sm x))).
  { rewrite H, first_some_flat_map.
    apply first_some_ext; intros y _.
    destruct (length (rest y) <? length (rest x)); [apply IH|easy]. }
  cbn [bt_star star_loop]; rewrite E.
  destruct g; [rewrite first_some_app|]; simpl; now destruct (k x).
Qed.

(** Backtracking with continuation [k] returns what [k] makes of the first
    state of [m r x] that it accepts. *)
Lemma bt_m (r : regex) :
  forall x k, bt r x k = first_some k (m r x).
Proof.
  induction r as [|l|p|a IHa b IHb|a IHa b IHb|g a IHa|n a IHa|ml|ml|a IHa];
    intros x k; cbn [bt m].
  - simpl; now destruct (k x).
  - destruct (startsWith (rest x) l); [simpl|easy].
    now destruct (k _).
  - destruct (rest x) as [|c t]; [easy|].
    destruct (p c); [simpl|easy]. now destruct (k _).
  - rewrite IHa, first_some_flat_map.
    apply first_some_ext; intros; apply IHb.
  - now rewrite IHa, IHb, first_some_app.
  - now apply bt_star_loop.
  - now rewrite IHa, first_some_map.
  - destruct (at_bol ml x); [simpl|easy]. now destruct (k x).
  - destruct (at_eol ml x); [simpl|easy]. now destruct (k x).
  - rewrite IHa, first_some_Some.
    destruct (m a x); simpl; [now destruct (k x)|easy].
Qed.

(** One attempt at one position is the backtracking matcher run with the
    continuation that accepts every state. *)
Lemma match_at_bt (re : regex) (p : option char) (s : jsstring) :
  match_at re p s = bt re (MState p s []) Some.
Proof. unfold match_at; now rewrite bt_m, first_some_Some. Qed.

End Matcher.

(** ** Global replacement: what the output is made of *)

Section Replace.

Variable re : regex.
Variable f : list (nat * jsstring) -> jsstring.

(** Every code unit of the result comes from the input or from a
    replacement. *)
Lemma replace_go_chars (c : char) :
  forall s p k, In c (replace_go re f p s k) ->
                In c s \/ exists cs, In c (f cs).
Proof.
  induction s as [|d t IH]; intros p k H.
  - destruct k; simpl in H; [|easy].
    destruct (match_at re p []) as [y|]; [|easy].
    rewrite app_nil_r in H; eauto.
  - destruct k as [|k]; cbn [replace_go] in H.
    + destruct (match_at re p (d :: t)) as [y|].
      * apply in_app_or in H as [H|H]; [eauto|].
        destruct (length (d :: t) - length (rest y)).
        -- destruct H as [<-|H]; [left; now left|].
           destruct (IH _ _ H); [left; now right|auto].
        -- destruct (IH _ _ H); [left; now right|auto].
      * destruct H as [<-|H]; [left; now left|].
        destruct (IH _ _ H); [left; now right|auto].
    + destruct (IH _ _ H); [left; now right|auto].
Qed.

End Replace.

(** A pattern that is one literal character, replaced by a fixed string:
    the result is the character-wise substitution. *)
Lemma replace_char (c : char) (rep : jsstring) (s : jsstring) :
  replace (Lit [c]) (template [RText rep]) s =
  flat_map (fun d => if N.eqb d c then rep else [d]) s.
Proof.
  unfold replace; generalize (@None char).
  induction s as [|d t IH]; intros p.
  - reflexivity.
  - cbn [replace_go flat_map].
    unfold match_at; cbn [m rest startsWith].
    rewrite (N.eqb_sym c d).
    destruct (N.eqb d c); cbn [andb hd_error].
    + cbn [skipn length rest caps template flat_map].
      rewrite Nat.sub_succ_l, Nat.sub_diag by lia.
      now rewrite IH, app_nil_r.
    + now rewrite IH.
Qed.

(** ** Markup discipline of the buffer *)

Section Marked.

Variable ts : jsstring -> bool.
Variable dl : char -> bool.

(** [ts] looks at the beginning of its argument only, and never across a
    character of [dl]. *)
Hypothesis ts_app : forall r b, ts r = true -> ts (r ++ b) = true.
Hypothesis ts_cut :
  forall p d r, dl d = true -> ts (p ++ d :: r) = true -> ts p = true.

Lemma marked_app (a b : jsstring) :
  marked ts a = true -> marked ts b = true -> marked ts (a ++ b) = true.
Proof.
  induction a as [|c a IH]; simpl; [easy|].
  intros H Hb; apply andb_prop in H as [H1 H2].
  rewrite IH by easy.
  destruct (N.eqb c 60); [|easy].
  now rewrite ts_app.
Qed.

Lemma marked_suffix (a b : jsstring) :
  marked ts (a ++ b) = true -> marked ts b = true.
Proof.
  induction a as [|c a IH]; simpl; [easy|].
  intros H; apply andb_prop in H as [_ H]; auto.
Qed.

Lemma marked_prefix (p : jsstring) (d : char) (r : jsstring) :
  marked ts (p ++ d :: r) = true -> dl d = true -> marked ts p = true.
Proof.
  intros H D; induction p as [|c p IH]; [easy|].
  simpl in H |- *; apply andb_prop in H as [H1 H2].
  rewrite IH by easy.
  destruct (N.eqb c 60); [|easy].
  now rewrite (ts_cut _ _ _ D H1).
Qed.

(** A piece of the buffer that ends where the buffer ends, or just before
    a delimiter. *)
Lemma marked_piece (a p r : jsstring) :
  marked ts (a ++ p ++ r) = true ->
  match r with [] => True | d :: _ => dl d = true end ->
  marked ts p = true.
Proof.
  intros H D; apply marked_suffix in H.
  destruct r as [|d r]; [now rewrite app_nil_r in H|].
  eapply marked_prefix; eauto.
Qed.

Lemma marked_no_lt (s : jsstring) :
  Forall (fun c => N.eqb c 60 = false) s -> marked ts s = true.
Proof.
  induction 1 as [|c s Hc _ IH]; simpl; [easy|].
  now rewrite Hc, IH.
Qed.

Lemma marked_weaken (ts' : jsstring -> bool) (s : jsstring) :
  (forall r, ts r = true -> ts' r = true) ->
  marked ts s = true -> marked ts' s = true.
Proof.
  intros W; induction s as [|c s IH]; simpl; [easy|].
  intros H; apply andb_prop in H as [H1 H2].
  rewrite IH by easy.
  destruct (N.eqb c 60); [|easy].
  now rewrite W.
Qed.

(** Replacement keeps the discipline when each match starts at a delimiter,
    is not empty, and is replaced by disciplined text. *)
Lemma replace_marked (re : regex) (f : list (nat * jsstring) -> jsstring) :
  (forall p s y,
      marked ts s = true -> match_at re p s = Some y ->
      (exists d t, s = d :: t /\ dl d = true) /\
      length (rest y) < length s /\
      marked ts (f (caps y)) = true) ->
  forall s, marked ts s = true -> marked ts (replace re f s) = true.
Proof.
  intros Hm.
  assert (G : forall s p,
             (forall pre, marked ts (pre ++ s) = true ->
                          marked ts (pre ++ replace_go re f p s 0) = true) /\
             (forall k, marked ts (skipn k s) = true ->
                        marked ts (replace_go re f p s k) = true)).
  { induction s as [|c t IH]; intros p.
    - assert (E : replace_go re f p [] 0 = []).
      { simpl; destruct (match_at re p []) as [y|] eqn:My; [|easy].
        destruct (Hm p [] y eq_refl My) as ((d & t & D) & _); easy. }
      split.
      + intros pre H; now rewrite E.
      + intros [|k] _; [now rewrite E|easy].
    - assert (P1 : forall pre, marked ts (pre ++ c :: t) = true ->
                               marked ts (pre ++ replace_go re f p (c :: t) 0) = true).
      { intros pre H; cbn [replace_go].
        destruct (match_at re p (c :: t)) as [y|] eqn:My.
        - destruct (Hm p (c :: t) y (marked_suffix _ _ H) My)
            as ((d & t' & E & D) & L & Hf).
          injection E as <- <-.
          apply marked_app; [eapply marked_prefix; eauto|].
          apply marked_app; [easy|].
          destruct (length (c :: t) - length (rest y)) as [|k] eqn:En;
            [lia|].
          apply IH.
          apply marked_suffix in H; simpl in H.
          apply andb_prop in H as [_ H].
          rewrite <- (firstn_skipn k t) in H.
          now apply marked_suffix in H.
        - replace (pre ++ c :: replace_go re f (Some c) t 0)
            with ((pre ++ [c]) ++ replace_go re f (Some c) t 0)
            by (now rewrite <- app_assoc).
          apply IH; now rewrite <- app_assoc. }
      split; [easy|].
      intros [|k] H; [apply (P1 []), H|].
      cbn [replace_go]; apply IH, H. }
  intros s H; apply (proj1 (G s None) []), H.
Qed.

End Marked.

(** A vocabulary of tags gives such a discipline, with the characters that
    occur in none of its words as the places to cut. *)
Section Vocabulary.

Variable vocab : list jsstring.

Lemma startsWith_app_l (r b t : jsstring) :
  startsWith r t = true -> startsWith (r ++ b) t = true.
Proof.
  revert r; induction t as [|a t IH]; intros [|c r]; simpl; try easy.
  intros H; apply andb_prop in H as [-> H]; simpl; auto.
Qed.

Lemma startsWith_cut (t : jsstring) :
  forall p d r,
    one_of t d = false -> startsWith (p ++ d :: r) t = true ->
    startsWith p t = true.
Proof.
  induction t as [|a t IH]; intros p d r O H; [easy|].
  unfold one_of in O; simpl in O; apply orb_false_elim in O as [O1 O2].
  destruct p as [|c p]; simpl in H |- *; apply andb_prop in H as [E H].
  - now rewrite N.eqb_sym, E in O1.
  - rewrite E; simpl; eapply IH; eauto.
Qed.

Lemma start_of_app (r b : jsstring) :
  start_of vocab r = true -> start_of vocab (r ++ b) = true.
Proof.
  unfold start_of; intros H.
  apply existsb_exists in H as (t & Ht & H).
  apply existsb_exists; exists t; auto using startsWith_app_l.
Qed.

Lemma start_of_cut (p : jsstring) (d : char) (r : jsstring) :
  outside vocab d = true -> start_of vocab (p ++ d :: r) = true ->
  start_of vocab p = true.
Proof.
  unfold start_of, outside; intros O H.
  apply existsb_exists in H as (t & Ht & H).
  rewrite forallb_forall in O; specialize (O t Ht).
  apply negb_true_iff in O.
  apply existsb_exists; exists t; split; [easy|].
  eapply startsWith_cut; eauto.
Qed.

(** A class of characters none of which occurs in the vocabulary. *)
Lemma outside_class (P : char -> bool) :
  forallb (fun k => negb (P k)) (concat vocab) = true ->
  forall c, P c = true -> outside vocab c = true.
Proof.
  intros H c Hc; unfold outside.
  apply forallb_forall; intros t Ht.
  unfold none_of, one_of.
  destruct (existsb (N.eqb c) t) eqn:E; [|easy].
  apply existsb_exists in E as (k & Hk & Ek).
  apply N.eqb_eq in Ek; subst k.
  rewrite forallb_forall in H.
  assert (I : In c (concat vocab)) by (apply in_concat; eauto).
  apply H in I; now rewrite Hc in I.
Qed.

End Vocabulary.

(** The discipline of the inline passes. *)
Section TagsOnly.

Lemma tags_only_app (a b : jsstring) :
  tags_only a = true -> tags_only b = true -> tags_only (a ++ b) = true.
Proof. apply marked_app, start_of_app. Qed.

Lemma tags_only_suffix (a b : jsstring) :
  tags_only (a ++ b) = true -> tags_only b = true.
Proof. apply marked_suffix. Qed.

Lemma tags_only_prefix (p : jsstring) (d : char) (r : jsstring) :
  tags_only (p ++ d :: r) = true -> delim d = true -> tags_only p = true.
Proof. apply (marked_prefix _ delim), start_of_cut. Qed.

Lemma tags_only_piece (a p r : jsstring) :
  tags_only (a ++ p ++ r) = true ->
  match r with [] => True | d :: _ => delim d = true end ->
  tags_only p = true.
Proof. apply (marked_piece _ delim), start_of_cut. Qed.

Lemma tags_only_no_lt (s : jsstring) :
  Forall (fun c => N.eqb c 60 = false) s -> tags_only s = true.
Proof. apply marked_no_lt. Qed.

Lemma replace_tags_only (re : regex) (f : list (nat * jsstring) -> jsstring) :
  (forall p s y,
      tags_only s = true -> match_at re p s = Some y ->
      (exists d t, s = d :: t /\ delim d = true) /\
      length (rest y) < length s /\
      tags_only (f (caps y)) = true) ->
  forall s, tags_only s = true -> tags_only (replace re f s) = true.
Proof. apply (replace_marked _ delim); [apply start_of_app|apply start_of_cut]. Qed.

Lemma class_delim (P : char -> bool) :
  forallb (fun k => negb (P k)) (concat inline_tags) = true ->
  forall c, P c = true -> delim c = true.
Proof. apply outside_class. Qed.

Lemma space_delim (d : char) : is_space d = true -> delim d = true.
Proof. now apply class_delim. Qed.

Lemma line_terminator_space (d : char) :
  is_line_terminator d = true -> is_space d = true.
Proof.
  unfold is_line_terminator, is_space.
  destruct (N.eqb d 10), (N.eqb d 13), (N.eqb d 8232), (N.eqb d 8233);
    simpl; rewrite ?orb_true_r; easy.
Qed.

Lemma trimStart_suffix (s : jsstring) :
  exists a, s = a ++ trimStart s /\ Forall (fun c => is_space c = true) a.
Proof.
  induction s as [|c s (a & E & F)]; simpl.
  - now exists [].
  - destruct (is_space c) eqn:Sc.
    + exists (c :: a); simpl; split; [now rewrite <- E|auto].
    + now exists [].
Qed.

Lemma trimEnd_prefix (s : jsstring) :
  exists b, s = trimEnd s ++ b /\ Forall (fun c => is_space c = true) b.
Proof.
  unfold trimEnd.
  destruct (trimStart_suffix (rev s)) as (a & E & F).
  exists (rev a); split.
  - rewrite <- rev_app_distr, <- E; symmetry; apply rev_involutive.
  - now apply Forall_rev.
Qed.

Lemma tags_only_trim (s : jsstring) :
  tags_only s = true -> tags_only (trim s) = true.
Proof.
  unfold trim; intros H.
  destruct (trimStart_suffix s) as (a & E & _).
  rewrite E in H; apply tags_only_suffix in H.
  destruct (trimEnd_prefix (trimStart s)) as (b & E' & F).
  rewrite E' in H.
  destruct F as [|d b Sd _]; [now rewrite app_nil_r in H|].
  eapply tags_only_prefix; eauto using space_delim.
Qed.

Lemma includes_app (s p : jsstring) :
  includes s p = true -> exists a b, s = a ++ p ++ b.
Proof.
  induction s as [|c s IH]; simpl; intros H; apply orb_prop in H as [H|H].
  - exists [], (skipn (length p) []); now apply startsWith_app.
  - easy.
  - exists [], (skipn (length p) (c :: s)); now apply startsWith_app.
  - destruct (IH H) as (a & b & ->); now exists (c :: a), b.
Qed.

(** An output in which every [<] opens a renderer tag has no script tag. *)
Lemma html_only_no_script (s : jsstring) :
  html_only s = true -> includes s (str "<script>") = false.
Proof.
  intros H; destruct (includes s (str "<script>")) eqn:E; [|easy].
  apply includes_app in E as (a & b & ->).
  apply marked_suffix in H; now vm_compute in H.
Qed.

End TagsOnly.

(** ** The passes keep the markup discipline *)

Lemma app_tail_eq (k w t : jsstring) : k ++ t = w ++ t -> w = k.
Proof. intros H; symmetry; eapply app_inv_tail, H. Qed.

Ltac norm_str :=
  repeat match goal with
         | |- context [str ?l] =>
             let v := eval vm_compute in (str l) in change (str l) with v
         | H : context [str ?l] |- _ =>
             let v := eval vm_compute in (str l) in change (str l) with v in H
         end.

Ltac inv_m :=
  repeat match goal with
         | H : In _ (m (Seq _ _) _) |- _ =>
             apply in_m_seq in H; destruct H as (? & ? & ?)
         | H : In _ (m (Lit _) _) |- _ =>
             apply in_m_lit in H; destruct H as (? & ? & ?)
         | H : In _ (m (Cls _) _) |- _ =>
             apply in_m_cls in H; destruct H as (? & ? & ? & ? & ?)
         | H : In _ (m (Alt _ _) _) |- _ =>
             apply in_m_alt in H; destruct H as [H|H]
         | H : In _ (m Eps _) |- _ => apply in_m_eps in H
         | H : In _ (m (Star _ (Cls _)) _) |- _ =>
             apply in_m_star_cls in H; destruct H as (? & ? & ? & ? & ? & ?)
         | H : In _ (m (Group _ _) _) |- _ =>
             apply in_m_group in H; destruct H as (? & ? & ? & ? & ?)
         | H : In _ (m (Bol _) _) |- _ =>
             apply in_m_bol in H; destruct H as (? & ?)
         | H : In _ (m (Eol _) _) |- _ =>
             apply in_m_eol in H; destruct H as (? & ?)
         | H : In _ (m (NegLook _) _) |- _ =>
             apply in_m_neglook in H; destruct H as (? & ?)
         | H : In _ (m (Plus _ _) _) |- _ => unfold Plus in H
         | H : In _ (m (Opt _) _) |- _ => unfold Opt in H
         end;
  repeat (subst; cbn [rest caps prev] in * );
  repeat match goal with
         | H : _ ++ ?t = _ ++ ?t |- _ => apply app_tail_eq in H; subst
         | H : ?c :: ?t = _ ++ ?t |- _ => apply (app_tail_eq [c]) in H; subst
         | H : ?c :: ?k ++ ?t = _ ++ ?t |- _ =>
             apply (app_tail_eq (c :: k)) in H; subst
         | H : ?t = _ ++ ?t |- _ => apply (app_tail_eq []) in H; subst
         end.

(** The three obligations of [replace_tags_only], once the input is known
    as a concatenation. *)
Ltac first_char :=
  norm_str; cbn [app]; eexists _, _; split;
  [reflexivity | first [reflexivity | now apply space_delim]].

Ltac shorter :=
  norm_str; repeat (progress (cbn [length app]; rewrite ?length_app)); lia.

Ltac tag_pieces :=
  cbn [template flat_map capture Nat.eqb]; rewrite ?app_nil_r;
  repeat (apply tags_only_app; [try reflexivity|]); try reflexivity.

Section Passes.

Lemma fence_tags_only (s : jsstring) :
  tags_only s = true -> tags_only (codeBlocks s) = true.
Proof.
  apply replace_tags_only; intros p s0 y T M.
  apply hd_in in M; unfold re_fence in M; inv_m.
  split; [first_char|split; [shorter|tag_pieces]].
  apply tags_only_trim, (tags_only_piece _ _ _ T).
  now norm_str.
Qed.

Lemma code_tags_only (s : jsstring) :
  tags_only s = true -> tags_only (inlineCode s) = true.
Proof.
  apply replace_tags_only; intros p s0 y T M.
  apply hd_in in M; unfold re_code in M; inv_m.
  split; [first_char|split; [shorter|tag_pieces]].
  apply (tags_only_piece (str "`") (_ :: _) _ T).
  now norm_str.
Qed.

Lemma class_not_lt (P : char -> bool) :
  P 60%N = false -> forall c, P c = true -> N.eqb c 60 = false.
Proof. intros H c Hc; destruct (N.eqb_spec c 60); [subst; congruence|easy]. Qed.

Lemma speaker_label_tags_only (a b : char) (w : jsstring) :
  is_space a = true -> alnum b = true ->
  Forall (fun c => alnum c = true) w ->
  tags_only (str "Speaker" ++ a :: b :: w ++ str ":") = true.
Proof.
  intros Ha Hb Hw; apply tags_only_no_lt.
  apply Forall_app; split; [norm_str; repeat constructor|].
  constructor; [now apply (class_not_lt is_space)|].
  constructor; [now apply (class_not_lt alnum)|].
  apply Forall_app; split; [|norm_str; repeat constructor].
  eapply Forall_impl; [|exact Hw].
  now apply (class_not_lt alnum).
Qed.

Lemma speaker_tags_only (s : jsstring) :
  tags_only s = true -> tags_only (speakerLabels s) = true.
Proof.
  apply replace_tags_only; intros p s0 y T M.
  apply hd_in in M; unfold re_speaker in M; inv_m;
    match goal with
    | H : str "Speaker" ++ ?a :: ?b :: ?w ++ _ = ?g ++ ?t |- _ =>
        assert (g = str "Speaker" ++ a :: b :: w ++ str ":")
          by (apply (app_tail_eq _ _ t); rewrite <- H; norm_str; cbn [app];
              now rewrite <- ?app_assoc);
        subst g
    end;
    (split; [first_char|split; [shorter|tag_pieces]]);
    now apply speaker_label_tags_only.
Qed.

(** The two strong-emphasis passes, for a delimiter of two characters. *)
Lemma strong_tags_only (c c' : char) (s : jsstring) :
  delim c = true ->
  tags_only s = true ->
  tags_only (replace (re_strong [c; c']) strong_template s) = true.
Proof.
  intros D; apply replace_tags_only; intros p s0 y T M.
  apply hd_in in M; unfold re_strong in M; inv_m.
  split; [cbn [app]; eauto|split; [shorter|unfold strong_template; tag_pieces]].
  apply (tags_only_piece [c; c'] _ _ T).
  now cbn [app].
Qed.

Lemma bold_tags_only (s : jsstring) :
  tags_only s = true -> tags_only (bold s) = true.
Proof.
  intros H; unfold bold.
  change (str "__") with [95; 95]%N; change (str "**") with [42; 42]%N.
  now repeat apply strong_tags_only.
Qed.

Lemma tags_only_space (a : char) : is_space a = true -> tags_only [a] = true.
Proof.
  intros H; apply tags_only_no_lt; constructor; [|easy].
  now apply (class_not_lt is_space).
Qed.

(** The two emphasis passes, for a delimiter of one character. *)
Lemma em_tags_only (c : char) (s : jsstring) :
  delim c = true ->
  tags_only s = true ->
  tags_only (replace (re_em [c]) em_template s) = true.
Proof.
  intros D; apply replace_tags_only; intros p s0 y T M.
  apply hd_in in M; unfold re_em in M; inv_m;
    (split; [cbn [app]; eauto using space_delim
            |split; [shorter|unfold em_template; tag_pieces]]);
    auto using tags_only_space;
    try (apply tags_only_app; [|auto using tags_only_space]);
    first [apply (tags_only_piece [c] _ _ T)
          |apply (tags_only_piece (_ :: [c]) _ _ T)];
    now cbn [app].
Qed.

Lemma italic_tags_only (s : jsstring) :
  tags_only s = true -> tags_only (italic s) = true.
Proof.
  intros H; unfold italic.
  change (str "_") with [95]%N; change (str "*") with [42]%N.
  now repeat apply em_tags_only.
Qed.

Ltac inv_hd :=
  repeat match goal with
         | H : hd_error (m (Seq _ _) _) = Some _ |- _ =>
             apply hd_m_seq in H; destruct H as (? & ? & H)
         end.

Lemma not_dot_delim (r : jsstring) :
  match r with [] => True | d :: _ => dot d = false end ->
  match r with [] => True | d :: _ => delim d = true end.
Proof.
  destruct r as [|d r]; [easy|]; unfold dot; intros H.
  apply negb_false_iff in H.
  now apply space_delim, line_terminator_space.
Qed.

(** A list line starts with white space or its marker. *)
Lemma indent_first_char (w : jsstring) (c : char) (r : jsstring) :
  Forall (fun a => is_space a = true) w ->
  delim c = true ->
  exists d t, w ++ c :: r = d :: t /\ delim d = true.
Proof.
  intros [|a w' Ha _] D; simpl; eauto using space_delim.
Qed.

Lemma merge_tags_only (close open : jsstring) (s : jsstring) :
  hd_error close = Some 60%N ->
  tags_only s = true ->
  tags_only (replace (re_merge close open) (template []) s) = true.
Proof.
  intros C; apply replace_tags_only; intros p s0 y T M.
  destruct close as [|c close]; [easy|]; injection C as ->.
  apply hd_in in M; unfold re_merge in M; inv_m;
    (split; [cbn [app]; eauto|split; [shorter|easy]]).
Qed.

Lemma ul_tags_only (s : jsstring) :
  tags_only s = true -> tags_only (unorderedLists s) = true.
Proof.
  intros H; unfold unorderedLists.
  apply merge_tags_only; [easy|].
  revert s H.
  apply replace_tags_only; intros p s0 y T M.
  unfold match_at, re_ul in M; inv_hd.
  apply hd_m_group in M as (z & w & M & E & ->).
  pose proof (hd_m_star_greedy_cls _ _ _ M) as L.
  apply hd_in in M; inv_m.
  split; [|split; [shorter|tag_pieces]].
  - apply indent_first_char; [easy|].
    now apply (class_delim (one_of (str "-*"))).
  - apply tags_only_trim.
    match goal with
    | T : tags_only (?a ++ ?b :: ?c :: ?d ++ ?g ++ ?r) = true |- _ =>
        apply (tags_only_piece (a ++ b :: c :: d) g r);
        [now rewrite <- app_assoc|now apply not_dot_delim]
    end.
Qed.

Lemma ol_tags_only (s : jsstring) :
  tags_only s = true -> tags_only (orderedLists s) = true.
Proof.
  intros H; unfold orderedLists.
  apply merge_tags_only; [easy|].
  revert s H.
  apply replace_tags_only; intros p s0 y T M.
  unfold match_at, re_ol in M; inv_hd.
  apply hd_m_group in M as (z & w & M & E & ->).
  pose proof (hd_m_star_greedy_cls _ _ _ M) as L.
  apply hd_in in M; inv_m.
  split; [|split; [shorter|tag_pieces]].
  - apply indent_first_char; [easy|].
    now apply (class_delim digit).
  - apply tags_only_trim.
    match goal with
    | T : tags_only (?a ++ ?b :: ?c ++ ?d ++ ?e :: ?h ++ ?g ++ ?r) = true |- _ =>
        apply (tags_only_piece (a ++ b :: c ++ d ++ e :: h) g r);
        [repeat (progress (rewrite <- ?app_assoc; cbn [app])); exact T
        |now apply not_dot_delim]
    end.
Qed.

(** The five passes of [escapeHtml] amount to one character-wise map: no
    pass rewrites what an earlier one wrote. *)
Lemma escape_string_chars (s : jsstring) :
  escape_string s = flat_map escape_char s.
Proof.
  unfold escape_string, re_amp, re_lt, re_gt, re_quot, re_apos.
  change (str "&") with [38%N]; change (str "<") with [60%N].
  change (str ">") with [62%N]; change (str "'") with [39%N].
  rewrite !replace_char.
  induction s as [|c t IH]; [easy|].
  cbn [flat_map]; rewrite !flat_map_app.
  f_equal; [|exact IH].
  unfold escape_char.
  destruct (N.eqb_spec c 38); [subst; easy|].
  cbn [flat_map app].
  destruct (N.eqb_spec c 60); [subst; easy|].
  cbn [flat_map app].
  destruct (N.eqb_spec c 62); [subst; easy|].
  cbn [flat_map app].
  destruct (N.eqb_spec c 34); [subst; easy|].
  cbn [flat_map app].
  destruct (N.eqb_spec c 39); [subst; easy|].
  easy.
Qed.

Lemma escape_char_no_angle (c d : char) :
  In d (escape_char c) -> d <> 60%N /\ d <> 62%N.
Proof.
  unfold escape_char.
  destruct (N.eqb_spec c 38);
    [|destruct (N.eqb_spec c 60);
      [|destruct (N.eqb_spec c 62);
        [|destruct (N.eqb_spec c 34); [|destruct (N.eqb_spec c 39)]]]];
    norm_str; simpl; intros H;
    repeat (destruct H as [<-|H]; [split; (easy || lia)|]); easy.
Qed.

Lemma escapeHtml_no_angle (v : jsval) (d : char) :
  In d (escapeHtml v) -> d <> 60%N /\ d <> 62%N.
Proof.
  destruct v; simpl; try easy.
  rewrite escape_string_chars; intros H.
  apply in_flat_map in H as (c & _ & H).
  now apply escape_char_no_angle in H.
Qed.

Lemma escapeHtml_tags_only (v : jsval) : tags_only (escapeHtml v) = true.
Proof.
  apply tags_only_no_lt, Forall_forall; intros d H.
  apply escapeHtml_no_angle in H as [H _].
  now apply N.eqb_neq.
Qed.

(** Each line of the buffer keeps the discipline, since a line ends at a
    line feed or at the end of the buffer. *)
Lemma split_on_tags_only (s : jsstring) :
  forall pre, tags_only (pre ++ s) = true ->
    match split_on nl s with
    | l :: ls => tags_only (pre ++ l) = true /\
                 Forall (fun l' => tags_only l' = true) ls
    | [] => False
    end.
Proof.
  induction s as [|d t IH]; intros pre H; cbn [split_on].
  - now split.
  - destruct (N.eqb_spec d nl) as [->|Hd].
    + split.
      * rewrite app_nil_r; now apply tags_only_prefix in H.
      * apply tags_only_suffix in H.
        specialize (IH [] (tags_only_suffix [nl] t H)).
        destruct (split_on nl t); [easy|]. destruct IH; now constructor.
    + specialize (IH (pre ++ [d])); rewrite <- app_assoc in IH.
      specialize (IH H).
      destruct (split_on nl t) as [|l ls]; [easy|].
      now rewrite <- app_assoc in IH.
Qed.

Lemma inlinePasses_tags_only (v : jsval) : tags_only (inlinePasses v) = true.
Proof.
  unfold inlinePasses.
  apply ol_tags_only, ul_tags_only, italic_tags_only, bold_tags_only,
    speaker_tags_only, code_tags_only, fence_tags_only, escapeHtml_tags_only.
Qed.

(** What an emphasis match looks like: the opening delimiter stands at
    index 0 or behind white space and has no white space behind it, the
    content stays on one line, and the closing delimiter has white space or
    the end of the input behind it. *)
Lemma em_match_shape (c : char) (p : option char) (s : jsstring) (y : mstate) :
  match_at (re_em [c]) p s = Some y ->
  exists g1 w g3,
    s = g1 ++ c :: w ++ c :: g3 ++ rest y /\
    (g1 = [] /\ p = None \/ exists a, g1 = [a] /\ is_space a = true) /\
    match w ++ [c] with d :: _ => is_space d = false | [] => True end /\
    Forall (fun d => dot d = true) w /\
    (g3 = [] /\ rest y = [] \/ exists b, g3 = [b] /\ is_space b = true).
Proof.
  intros M; apply hd_in in M; unfold re_em in M; inv_m;
    repeat match goal with
           | H : m (Cls _) _ = [] |- _ => apply m_cls_nil in H; cbn [rest] in H
           | H : at_bol false _ = true |- _ =>
               unfold at_bol in H; cbn [prev] in H
           | H : at_eol false _ = true |- _ =>
               unfold at_eol in H; cbn [rest] in H
           end;
    match goal with
    | |- exists _ _ _, [c] ++ ?w ++ [c] ++ ?b :: ?t = _ /\ _ =>
        exists [], w, [b]
    | |- exists _ _ _, ?a :: [c] ++ ?w ++ [c] ++ ?b :: ?t = _ /\ _ =>
        exists [a], w, [b]
    | |- exists _ _ _, [c] ++ ?w ++ [c] ++ ?t = _ /\ _ =>
        exists [], w, []
    | |- exists _ _ _, ?a :: [c] ++ ?w ++ [c] ++ ?t = _ /\ _ =>
        exists [a], w, []
    end;
    (split; [reflexivity|]);
    (split; [first [left; split; [reflexivity|now destruct p]|right; eauto]|]);
    (split; [match goal with
             | H : match ?w ++ _ with [] => True | _ :: _ => _ end |- _ =>
                 now destruct w
             end|]);
    (split; [assumption|]);
    first [ right; now eauto
          | left; split; [reflexivity|];
            match goal with
            | H : match ?t with [] => true | _ :: _ => _ end = true |- _ =>
                now destruct t
            end ].
Qed.

(** The four replacement callbacks call [trim] on, or splice in, their
    group argument; in every match of their patterns group 1 took part. *)
Lemma callback_group_defined (p : option char) (s : jsstring) (y : mstate) :
  match_at re_fence p s = Some y \/ match_at re_code p s = Some y \/
  match_at re_ul p s = Some y \/ match_at re_ol p s = Some y ->
  exists w, caps y = [(1, w)].
Proof.
  intros [M|[M|[M|M]]]; apply hd_in in M;
    unfold re_fence, re_code, re_ul, re_ol in M; inv_m; eauto.
Qed.

End Passes.

(** ** Block assembly keeps the markup discipline *)

Section Assembly.

Lemma paragraph_start_app (r b : jsstring) :
  paragraph_start r = true -> paragraph_start (r ++ b) = true.
Proof.
  unfold paragraph_start; intros H.
  apply orb_prop in H as [H|H]; [apply orb_prop in H as [H|H];
                                 [apply orb_prop in H as [H|H]|]|].
  - now rewrite start_of_app.
  - rewrite (startsWith_app_l _ _ _ H); now rewrite orb_true_r.
  - rewrite (startsWith_app_l _ _ _ H); now rewrite !orb_true_r.
  - apply andb_prop in H as [H1 H2].
    rewrite (startsWith_app_l _ _ _ H1).
    destruct r as [|x [|y [|c r']]]; try easy.
    cbn [skipn app] in H2 |- *.
    apply andb_prop in H2 as [-> H2].
    apply orb_prop in H2 as [->|H2]; [now rewrite !orb_true_r|].
    rewrite (start_of_app _ _ _ H2); now rewrite !orb_true_r.
Qed.

Lemma inline_paragraph_start (r : jsstring) :
  start_of inline_tags r = true -> paragraph_start r = true.
Proof. unfold paragraph_start; now intros ->. Qed.

Lemma paragraph_start_all (r : jsstring) :
  paragraph_start r = true -> start_of all_tags r = true.
Proof.
  unfold paragraph_start, start_of, all_tags; intros H.
  rewrite existsb_app; cbn [List.map existsb].
  apply orb_prop in H as [H|H]; [apply orb_prop in H as [H|H];
                                 [apply orb_prop in H as [H|H]|]|].
  - now rewrite H.
  - rewrite H; now rewrite !orb_true_r.
  - rewrite H; now rewrite !orb_true_r.
  - apply andb_prop in H as [-> _]; now rewrite !orb_true_r.
Qed.

Lemma trimStart_head (s : jsstring) (c : char) (t : jsstring) :
  trimStart s = c :: t -> is_space c = false.
Proof.
  induction s as [|d s IH]; simpl; [easy|].
  destruct (is_space d) eqn:E; [easy|].
  now intros [= <- _].
Qed.

Lemma trim_head (s : jsstring) (c : char) (t : jsstring) :
  trim s = c :: t -> is_space c = false.
Proof.
  unfold trim; intros H.
  destruct (trimEnd_prefix (trimStart s)) as (b & E & _).
  rewrite H in E; simpl in E.
  now apply trimStart_head in E.
Qed.

Lemma paragraph_start_p (c : char) (r : jsstring) :
  paragraph_start (112 :: 62 :: c :: r)%N =
  negb (is_space c) && (negb (N.eqb c 60) || start_of inline_tags r).
Proof. reflexivity. Qed.

(** An opening paragraph tag with a trimmed, non-empty line behind it. *)
Lemma paragraph_open (c : char) (l : jsstring) :
  is_space c = false -> tags_only (c :: l) = true ->
  marked paragraph_start (str "<p>" ++ c :: l) = true.
Proof.
  intros Hc H.
  assert (M : marked paragraph_start (c :: l) = true)
    by (revert H; apply marked_weaken, inline_paragraph_start).
  change (str "<p>" ++ c :: l) with (60 :: 112 :: 62 :: c :: l)%N.
  change (marked paragraph_start (60 :: 112 :: 62 :: c :: l)%N) with
    (paragraph_start (112 :: 62 :: c :: l)%N &&
     marked paragraph_start (c :: l)).
  rewrite M, andb_true_r, paragraph_start_p, Hc; cbn [negb andb].
  unfold tags_only in H; cbn [marked] in H.
  apply andb_prop in H as [H _].
  now destruct (N.eqb c 60); [rewrite H|].
Qed.

(** No empty paragraph in a string with that discipline. *)
Lemma no_empty_paragraph (w r : jsstring) :
  Forall (fun c => is_space c = true) w ->
  marked paragraph_start (str "<p>" ++ w ++ str "</p>" ++ r) = false.
Proof.
  intros [|c w' Hc _].
  - reflexivity.
  - change (str "<p>" ++ (c :: w') ++ str "</p>" ++ r)
      with (60 :: 112 :: 62 :: c :: (w' ++ str "</p>" ++ r))%N.
    change (marked paragraph_start
              (60 :: 112 :: 62 :: c :: (w' ++ str "</p>" ++ r))%N) with
      (paragraph_start (112 :: 62 :: c :: (w' ++ str "</p>" ++ r))%N &&
       marked paragraph_start (c :: (w' ++ str "</p>" ++ r))).
    now rewrite paragraph_start_p, Hc.
Qed.

Lemma paragraphLine_marked (b : bool) (line : jsstring) :
  tags_only line = true ->
  marked paragraph_start (fst (paragraphLine b line)) = true.
Proof.
  intros H; apply tags_only_trim in H; unfold paragraphLine.
  destruct (trim line) as [|c l] eqn:E; [now destruct b|].
  assert (M : marked paragraph_start (c :: l) = true)
    by (revert H; apply marked_weaken, inline_paragraph_start).
  destruct (is_container_line (c :: l)), b; cbn [fst negb];
    first [ exact M
          | apply paragraph_open; [now apply (trim_head line c l)|exact H]
          | apply marked_app; [apply paragraph_start_app|reflexivity|exact M] ].
Qed.

Lemma paragraphLines_marked (ls : list jsstring) :
  Forall (fun l => tags_only l = true) ls ->
  forall b, marked paragraph_start (fst (paragraphLines b ls)) = true.
Proof.
  induction 1 as [|l ls Hl _ IH]; intros b; [easy|].
  cbn [paragraphLines].
  pose proof (paragraphLine_marked b l Hl) as H1.
  destruct (paragraphLine b l) as [out st].
  specialize (IH st); destruct (paragraphLines st ls) as [outs st'].
  apply marked_app; [apply paragraph_start_app|easy|easy].
Qed.

Lemma paragraphs_marked (s : jsstring) :
  tags_only s = true -> marked paragraph_start (paragraphs s) = true.
Proof.
  intros H; unfold paragraphs, closeParagraph.
  pose proof (split_on_tags_only s [] H) as S.
  destruct (split_on nl s) as [|l ls]; [easy|].
  assert (F : Forall (fun l' => tags_only l' = true) (l :: ls))
    by (destruct S; now constructor).
  pose proof (paragraphLines_marked _ F false) as P.
  destruct (paragraphLines false (l :: ls)) as [out [|]]; [|easy].
  apply marked_app; [apply paragraph_start_app|easy|easy].
Qed.

(** A pattern that matches nowhere leaves the string as it is. *)
Lemma replace_no_match (re : regex) (f : list (nat * jsstring) -> jsstring) :
  forall s,
    (forall a b q, s = a ++ b -> match_at re q b = None) ->
    replace re f s = s.
Proof.
  unfold replace; generalize (@None char).
  intros o s; revert o; induction s as [|c t IH]; intros o H; cbn [replace_go].
  - now rewrite (H [] [] o eq_refl).
  - rewrite (H [] (c :: t) o eq_refl), IH; [easy|].
    intros a b q ->; now apply (H (c :: a) b q).
Qed.

(** Lines 160-161 never find anything to remove: behind every opening
    paragraph tag block assembly has put the text of a line. *)
Lemma removeEmptyParagraphs_id (s : jsstring) :
  marked paragraph_start s = true -> removeEmptyParagraphs s = s.
Proof.
  intros H; unfold removeEmptyParagraphs.
  assert (N1 : forall a b q, s = a ++ b -> match_at re_empty_p q b = None).
  { intros a b q ->; apply marked_suffix in H.
    destruct (match_at re_empty_p q b) as [y|] eqn:M; [|easy].
    apply hd_in in M; unfold re_empty_p in M; inv_m.
    now rewrite no_empty_paragraph in H. }
  assert (N2 : forall a b q, s = a ++ b -> match_at re_empty_p' q b = None).
  { intros a b q ->; apply marked_suffix in H.
    destruct (match_at re_empty_p' q b) as [y|] eqn:M; [|easy].
    apply hd_in in M; unfold re_empty_p' in M; inv_m.
    match type of H with
    | marked _ (_ ++ ?x) = _ =>
        pose proof (no_empty_paragraph [] x (Forall_nil _)) as F;
        change (marked paragraph_start (str "<p></p>" ++ x) = false) in F
    end.
    congruence. }
  rewrite (replace_no_match re_empty_p _ s N1).
  now apply replace_no_match.
Qed.

Lemma render_paragraphs (v : jsval) : render v = paragraphs (inlinePasses v).
Proof.
  unfold render; apply removeEmptyParagraphs_id, paragraphs_marked,
    inlinePasses_tags_only.
Qed.

Lemma render_html_only (v : jsval) : html_only (render v) = true.
Proof.
  rewrite render_paragraphs.
  apply marked_weaken with (ts := paragraph_start);
    [apply paragraph_start_all|].
  apply paragraphs_marked, inlinePasses_tags_only.
Qed.

End Assembly.

(** ** Plain text goes through the inline passes unchanged *)

Ltac find_in :=
  solve [ repeat first [ apply in_eq | apply in_cons
                       | (apply in_or_app; right) ] ].

(** After [inv_m]: the input contains the character [k]. *)
Ltac has_markup k :=
  apply existsb_exists; exists k;
  split; [norm_str; cbn [app]; find_in|reflexivity].

Section PlainText.

Lemma plain_suffix (a b : jsstring) : plain (a ++ b) = true -> plain b = true.
Proof.
  unfold plain; rewrite forallb_app; intros H.
  now apply andb_prop in H as [_ H].
Qed.

Lemma plain_no_markup (s : jsstring) :
  plain s = true -> existsb markup_char s = false.
Proof.
  unfold plain; intros H.
  destruct (existsb markup_char s) eqn:E; [|easy].
  apply existsb_exists in E as (c & I & Hc).
  rewrite forallb_forall in H; apply H in I.
  now rewrite Hc in I.
Qed.

(** A pattern whose matches all contain a markup character finds nothing
    in plain text. *)
Lemma replace_plain (re : regex) (f : list (nat * jsstring) -> jsstring) :
  (forall p s y, match_at re p s = Some y -> existsb markup_char s = true) ->
  forall s, plain s = true -> replace re f s = s.
Proof.
  intros N s H; apply replace_no_match; intros a b q ->.
  apply plain_suffix, plain_no_markup in H.
  destruct (match_at re q b) as [y|] eqn:M; [|easy].
  apply N in M; congruence.
Qed.

Lemma escape_string_plain (s : jsstring) :
  plain s = true -> escape_string s = s.
Proof.
  rewrite escape_string_chars; unfold plain.
  induction s as [|c t IH]; [easy|]; cbn [forallb flat_map].
  intros H; apply andb_prop in H as [Hc H]; rewrite (IH H).
  apply negb_true_iff in Hc.
  unfold markup_char in Hc; apply orb_false_elim in Hc as [Hc _].
  unfold escape_char.
  destruct (N.eqb_spec c 38); [now subst|].
  destruct (N.eqb_spec c 60); [now subst|].
  destruct (N.eqb_spec c 62); [now subst|].
  destruct (N.eqb_spec c 34); [now subst|].
  destruct (N.eqb_spec c 39); [now subst|].
  easy.
Qed.

Lemma fence_needs (p : option char) (s : jsstring) (y : mstate) :
  match_at re_fence p s = Some y -> existsb markup_char s = true.
Proof.
  intros M; apply hd_in in M; unfold re_fence in M; inv_m.
  has_markup 96%N.
Qed.

Lemma code_needs (p : option char) (s : jsstring) (y : mstate) :
  match_at re_code p s = Some y -> existsb markup_char s = true.
Proof.
  intros M; apply hd_in in M; unfold re_code in M; inv_m.
  has_markup 96%N.
Qed.

Lemma speaker_needs (p : option char) (s : jsstring) (y : mstate) :
  match_at re_speaker p s = Some y -> existsb markup_char s = true.
Proof.
  intros M; apply hd_in in M; unfold re_speaker in M; inv_m;
    has_markup 58%N.
Qed.

Lemma strong_needs (c c' : char) (p : option char) (s : jsstring) (y : mstate) :
  markup_char c = true ->
  match_at (re_strong [c; c']) p s = Some y -> existsb markup_char s = true.
Proof.
  intros C M; apply hd_in in M; unfold re_strong in M; inv_m.
  apply existsb_exists; exists c; split; [cbn [app]; find_in|easy].
Qed.

Lemma em_needs (c : char) (p : option char) (s : jsstring) (y : mstate) :
  markup_char c = true ->
  match_at (re_em [c]) p s = Some y -> existsb markup_char s = true.
Proof.
  intros C M; apply hd_in in M; unfold re_em in M; inv_m;
    (apply existsb_exists; exists c; split; [cbn [app]; find_in|easy]).
Qed.

Lemma ul_needs (p : option char) (s : jsstring) (y : mstate) :
  match_at re_ul p s = Some y -> existsb markup_char s = true.
Proof.
  intros M; apply hd_in in M; unfold re_ul in M; inv_m.
  match goal with
  | H : one_of (str "-*") ?x = true |- _ =>
      apply existsb_exists; exists x; split; [find_in|];
      unfold one_of in H; cbn in H;
      destruct (N.eqb_spec x 45); [now subst|];
      destruct (N.eqb_spec x 42); [now subst|easy]
  end.
Qed.

Lemma ol_needs (p : option char) (s : jsstring) (y : mstate) :
  match_at re_ol p s = Some y -> existsb markup_char s = true.
Proof.
  intros M; apply hd_in in M; unfold re_ol in M; inv_m.
  match goal with
  | H : digit ?x = true |- _ =>
      apply existsb_exists; exists x; split; [find_in|];
      unfold markup_char; rewrite H; apply orb_true_r
  end.
Qed.

Lemma merge_needs (close open : jsstring) (p : option char) (s : jsstring)
    (y : mstate) :
  hd_error close = Some 60%N ->
  match_at (re_merge close open) p s = Some y -> existsb markup_char s = true.
Proof.
  intros C M; destruct close as [|c close]; [easy|]; injection C as ->.
  apply hd_in in M; unfold re_merge in M; inv_m; has_markup 60%N.
Qed.

(** The buffer that reaches block assembly is the input itself when the
    input is plain text. *)
Lemma inlinePasses_plain (s : jsstring) :
  plain s = true -> inlinePasses (VString s) = s.
Proof.
  intros H; unfold inlinePasses, escapeHtml.
  rewrite (escape_string_plain s H).
  unfold codeBlocks; rewrite (replace_plain _ _ fence_needs s H).
  unfold inlineCode; rewrite (replace_plain _ _ code_needs s H).
  unfold speakerLabels; rewrite (replace_plain _ _ speaker_needs s H).
  unfold bold.
  change (str "**") with [42; 42]%N; change (str "__") with [95; 95]%N.
  rewrite (replace_plain _ _ (fun p s y => strong_needs 42%N 42%N p s y eq_refl) s H).
  rewrite (replace_plain _ _ (fun p s y => strong_needs 95%N 95%N p s y eq_refl) s H).
  unfold italic.
  change (str "*") with [42]%N; change (str "_") with [95]%N.
  rewrite (replace_plain _ _ (fun p s y => em_needs 42%N p s y eq_refl) s H).
  rewrite (replace_plain _ _ (fun p s y => em_needs 95%N p s y eq_refl) s H).
  unfold unorderedLists; rewrite (replace_plain _ _ ul_needs s H).
  rewrite (replace_plain _ _
             (fun p s y => merge_needs (str "</ul>") (str "<ul>") p s y eq_refl)
             s H).
  unfold orderedLists; rewrite (replace_plain _ _ ol_needs s H).
  now rewrite (replace_plain _ _
                 (fun p s y => merge_needs (str "</ol>") (str "<ol>") p s y eq_refl)
                 s H).
Qed.

End PlainText.

(** ** Line feeds *)

Section LineFeeds.

Lemma split_on_no_nl (s : jsstring) :
  Forall (fun l => ~ In nl l) (split_on nl s).
Proof.
  induction s as [|d t IH]; cbn [split_on].
  - constructor; [easy|constructor].
  - destruct (N.eqb_spec d nl) as [->|Hd].
    + constructor; [easy|exact IH].
    + destruct (split_on nl t) as [|l ls]; [repeat constructor; simpl; intuition|].
      inversion IH as [|? ? Hl Hls]; subst.
      constructor; [|easy].
      simpl; intuition.
Qed.

Lemma trimStart_incl (s : jsstring) (c : char) : In c (trimStart s) -> In c s.
Proof.
  destruct (trimStart_suffix s) as (a & E & _); intros H.
  rewrite E; apply in_or_app; now right.
Qed.

Lemma trim_incl (s : jsstring) (c : char) : In c (trim s) -> In c s.
Proof.
  unfold trim; intros H; apply trimStart_incl.
  destruct (trimEnd_prefix (trimStart s)) as (b & E & _).
  rewrite E; apply in_or_app; now left.
Qed.

Lemma paragraphLine_no_nl (b : bool) (line : jsstring) :
  ~ In nl line -> ~ In nl (fst (paragraphLine b line)).
Proof.
  intros H; unfold paragraphLine.
  assert (T : ~ In nl (trim line)) by (intros T; now apply trim_incl in T).
  destruct (trim line) as [|c l].
  - destruct b; cbn [fst]; [norm_str; simpl; intuition; discriminate|easy].
  - destruct (is_container_line (c :: l)), b; cbn [fst negb]; try easy;
      intros I; apply in_app_or in I as [I|I]; try easy;
      revert I; norm_str; simpl; intuition; discriminate.
Qed.

Lemma paragraphLines_no_nl (ls : list jsstring) :
  Forall (fun l => ~ In nl l) ls ->
  forall b, ~ In nl (fst (paragraphLines b ls)).
Proof.
  induction 1 as [|l ls Hl _ IH]; intros b; [easy|].
  cbn [paragraphLines].
  pose proof (paragraphLine_no_nl b l Hl) as H1.
  destruct (paragraphLine b l) as [out st].
  specialize (IH st); destruct (paragraphLines st ls) as [outs st'].
  cbn [fst] in *; intros I; apply in_app_or in I as [I|I]; easy.
Qed.

Lemma paragraphs_no_nl (s : jsstring) : ~ In nl (paragraphs s).
Proof.
  unfold paragraphs, closeParagraph.
  pose proof (paragraphLines_no_nl _ (split_on_no_nl s) false) as P.
  destruct (paragraphLines false (split_on nl s)) as [out [|]]; [|easy].
  cbn [fst] in P; intros I; apply in_app_or in I as [I|I]; [easy|].
  revert I; norm_str; simpl; intuition; discriminate.
Qed.

Lemma render_no_nl (v : jsval) : ~ In nl (render v).
Proof.
  unfold render, removeEmptyParagraphs, replace; intros H.
  apply replace_go_chars in H as [H|[cs H]]; [|easy].
  apply replace_go_chars in H as [H|[cs H]]; [|easy].
  now apply paragraphs_no_nl in H.
Qed.

Lemma space_trim_empty (s : jsstring) :
  Forall (fun c => is_space c = true) s -> trim s = [].
Proof.
  intros H; unfold trim.
  assert (E : trimStart s = []).
  { induction H as [|c t Hc _ IH]; simpl; [easy|]. now rewrite Hc. }
  now rewrite E.
Qed.

Lemma trimStart_not_empty (l : jsstring) (c : char) :
  In c l -> is_space c = false -> trimStart l <> [].
Proof.
  intros I Hc; induction l as [|d l IH]; simpl; [easy|].
  destruct (is_space d) eqn:E; [|easy].
  destruct I as [->|I]; [congruence|auto].
Qed.

Lemma trim_not_empty (s : jsstring) :
  forallb is_space s = false -> trim s <> [].
Proof.
  intros H; unfold trim, trimEnd.
  assert (X : exists c, In c s /\ is_space c = false).
  { induction s as [|d s IH]; simpl in H; [easy|].
    destruct (is_space d) eqn:E; [|exists d; simpl; auto].
    destruct (IH H) as (c & I & Hc); exists c; simpl; auto. }
  destruct X as (c & I & Hc).
  pose proof (trimStart_not_empty s c I Hc) as U.
  destruct (trimStart s) as [|h u] eqn:E; [easy|].
  apply trimStart_head in E.
  assert (R : trimStart (rev (h :: u)) <> []).
  { apply (trimStart_not_empty _ h); [|easy].
    apply in_rev; rewrite rev_involutive; now left. }
  intros Z; apply R.
  apply (f_equal (@rev char)) in Z; now rewrite rev_involutive in Z.
Qed.

(** On an input that is not blank the guard lets the body run. *)
Lemma markdownToHtml_render (v : jsval) :
  blank_input v = false -> markdownToHtml v = Ok (render v).
Proof.
  destruct v as [| |b| |s|]; try easy.
  cbn [blank_input]; intros H; apply trim_not_empty in H.
  unfold markdownToHtml; cbn [not_string call_trim bind].
  now destruct (trim s).
Qed.

End LineFeeds.

(** ** The block assembler as a state machine *)

Section Paragraphs.

Lemma paragraphLine_text (b : bool) (l : jsstring) :
  text_line l = true ->
  paragraphLine b l =
  ((if b then str "<br />" else str "<p>") ++ trim l, true).
Proof.
  unfold text_line, blank_line, paragraphLine.
  destruct (trim l) as [|c t]; [easy|].
  destruct (is_container_line (c :: t)); [easy|].
  now destruct b.
Qed.

Lemma paragraphLine_blank (l : jsstring) :
  blank_line l = true -> paragraphLine true l = (str "</p>", false).
Proof.
  unfold blank_line, paragraphLine.
  now destruct (trim l).
Qed.

(** A line that is not ordinary text always leaves the paragraph closed. *)
Lemma paragraphLine_boundary (b : bool) (l : jsstring) :
  text_line l = false -> snd (paragraphLine b l) = false.
Proof.
  unfold text_line, blank_line, paragraphLine.
  destruct (trim l) as [|c t]; [now destruct b|].
  destruct (is_container_line (c :: t)); [|easy].
  now destruct b.
Qed.

(** A line that starts with list or code markup goes out as it is, behind
    the closing tag of a paragraph that was open. *)
Lemma paragraphLine_container (b : bool) (l : jsstring) :
  is_container_line (trim l) = true ->
  paragraphLine b l =
  ((if b then str "</p>" else []) ++ trim l, false).
Proof.
  unfold paragraphLine; intros H.
  destruct (trim l) as [|c t]; [easy|].
  rewrite H; now destruct b.
Qed.

Lemma paragraphLines_app (b : bool) (xs ys : list jsstring) :
  paragraphLines b (xs ++ ys) =
  (fst (paragraphLines b xs) ++ fst (paragraphLines (snd (paragraphLines b xs)) ys),
   snd (paragraphLines (snd (paragraphLines b xs)) ys)).
Proof.
  revert b; induction xs as [|x xs IH]; intros b; cbn [app paragraphLines].
  - cbn [fst snd app]; now destruct (paragraphLines b ys).
  - destruct (paragraphLine b x) as [o st].
    rewrite IH.
    destruct (paragraphLines st xs) as [o1 st1]; cbn [fst snd].
    destruct (paragraphLines st1 ys) as [o2 st2]; cbn [fst snd].
    now rewrite app_assoc.
Qed.

Lemma paragraphLines_boundary (b : bool) (pre : list jsstring) (x : jsstring) :
  text_line x = false -> snd (paragraphLines b (pre ++ [x])) = false.
Proof.
  intros H; rewrite paragraphLines_app; cbn [snd paragraphLines].
  pose proof (paragraphLine_boundary (snd (paragraphLines b pre)) x H) as B.
  now destruct (paragraphLine (snd (paragraphLines b pre)) x).
Qed.

Lemma paragraphLines_run (others : list jsstring) :
  Forall (fun l => text_line l = true) others ->
  forall more,
    paragraphLines true (others ++ more) =
    (broken_lines others ++ fst (paragraphLines true more),
     snd (paragraphLines true more)).
Proof.
  induction 1 as [|l ls Hl _ IH]; intros more; cbn [app paragraphLines].
  - unfold broken_lines; cbn [List.map concat app].
    now destruct (paragraphLines true more).
  - rewrite (paragraphLine_text true l Hl), IH.
    unfold broken_lines; cbn [List.map concat].
    now rewrite <- !app_assoc.
Qed.

Lemma split_on_incl (s l : jsstring) (c : char) :
  In l (split_on nl s) -> In c l -> In c s.
Proof.
  revert l; induction s as [|d t IH]; intros l; cbn [split_on].
  - intros [<-|[]]; easy.
  - destruct (N.eqb_spec d nl) as [->|Hd].
    + intros [<-|I] Hc; [easy|right; eauto].
    + destruct (split_on nl t) as [|l' ls'] eqn:E.
      * intros [<-|[]] [->|[]]; now left.
      * intros [<-|I] Hc.
        -- destruct Hc as [->|Hc]; [now left|right].
           apply (IH l'); [now left|easy].
        -- right; apply (IH l); [now right|easy].
Qed.

(** A buffer with a text line in it is not blank. *)
Lemma text_line_not_blank (s l : jsstring) :
  In l (split_on nl s) -> text_line l = true -> forallb is_space s = false.
Proof.
  intros I T; destruct (forallb is_space s) eqn:E; [|easy].
  rewrite forallb_forall in E.
  assert (B : trim l = []).
  { apply space_trim_empty, Forall_forall; intros c Hc.
    apply E; eapply split_on_incl; eauto. }
  unfold text_line, blank_line in T; now rewrite B in T.
Qed.

(** Block assembly on a run of text lines. *)
Lemma paragraphs_run (html : jsstring) (before : list jsstring)
    (first : jsstring) (others after : list jsstring) :
  split_on nl html = before ++ first :: others ++ after ->
  run_start before = true ->
  text_line first = true ->
  forallb text_line others = true ->
  run_end after = true ->
  paragraphs html =
  fst (paragraphLines false before) ++
  str "<p>" ++ trim first ++ broken_lines others ++ str "</p>" ++
  closeParagraph (paragraphLines false (tl after)).
Proof.
  intros S B F O A.
  unfold paragraphs; rewrite S, paragraphLines_app.
  assert (St : snd (paragraphLines false before) = false).
  { unfold run_start in B.
    destruct (rev before) as [|x pre] eqn:E.
    - apply (f_equal (@rev jsstring)) in E; rewrite rev_involutive in E.
      now subst before.
    - apply (f_equal (@rev jsstring)) in E; rewrite rev_involutive in E.
      subst before; cbn [rev].
      apply paragraphLines_boundary; now apply negb_true_iff. }
  rewrite St; cbn [paragraphLines].
  rewrite (paragraphLine_text false first F).
  rewrite paragraphLines_run
    by (apply Forall_forall; now apply forallb_forall).
  cbn [fst snd].
  destruct after as [|e more]; cbn [paragraphLines tl closeParagraph].
  - now rewrite !app_nil_r, <- !app_assoc.
  - simpl in A; rewrite (paragraphLine_blank e A).
    destruct (paragraphLines false more) as [o [|]]; cbn [fst snd];
      now rewrite <- !app_assoc.
Qed.

End Paragraphs.

(** ** The claims *)

Section Claims.

(** C1. For every input, [escapeHtml] leaves no [<] and no [>] in the
    buffer, and [markdownToHtml] returns a string in which every [<] opens
    one of the seventeen tags the renderer writes itself, so that the
    substring [<script>] never occurs in the output, whatever the input
    contains. *)
Theorem markdownToHtml_no_script :
  forall v : jsval,
    forallb (fun d => negb (N.eqb d 60 || N.eqb d 62)) (escapeHtml v) = true /\
    exists out,
      markdownToHtml v = Ok out /\
      html_only out = true /\
      includes out (str "<script>") = false.
Proof.
  intros v; split.
  - apply forallb_forall; intros d H.
    apply escapeHtml_no_angle in H as [H1 H2].
    apply N.eqb_neq in H1, H2; now rewrite H1, H2.
  - assert (R : html_only (render v) = true) by apply render_html_only.
    unfold markdownToHtml.
    destruct v as [| |b| |s|]; cbn [not_string call_trim bind].
    1-4, 6: exists []; repeat split; reflexivity.
    destruct (trim s); [exists []; repeat split; reflexivity|].
    eexists; split; [reflexivity|]; split; [exact R|].
    apply html_only_no_script, R.
Qed.

(** C2 (the code departs from the claim). The fence pass runs first "to
    avoid inner markdown processing", but the strong-emphasis pass still
    rewrites the content of the code block: the fenced text [**not bold**]
    comes out as a strong-emphasis container inside the code container. *)
Theorem fenced_code_is_rewritten :
  markdownToHtml (VString (str "```**not bold**```")) =
  Ok (str "<pre><code><strong>not bold</strong></code></pre>").
Proof. vm_compute; reflexivity. Qed.

(** C3 (the code departs from the claim). A line that starts with list or
    code markup passes through unwrapped, but an interior line of a
    multi-line fenced block does not start with such markup: the second line
    of the block below is wrapped in a paragraph container. *)
Theorem code_block_interior_line_wrapped :
  markdownToHtml
    (VString (str "```" ++ [nl] ++ str "foo" ++ [nl] ++ str "bar" ++ [nl] ++ str "```")) =
  Ok (str "<pre><code>foo<p>bar</code></pre></p>").
Proof. vm_compute; reflexivity. Qed.

(** C4. [markdownToHtml] returns on every value, and it returns the empty
    string on every value that is not a string and on every string that is
    empty or holds white space only. *)
Theorem markdownToHtml_total :
  forall v : jsval,
    (exists out, markdownToHtml v = Ok out) /\
    (blank_input v = true -> markdownToHtml v = Ok []).
Proof.
  intros v; split.
  - unfold markdownToHtml.
    destruct v as [| |b| |s|]; cbn [not_string call_trim bind].
    1-4, 6: exists []; reflexivity.
    destruct (trim s); eexists; reflexivity.
  - destruct v as [| |b| |s|]; try easy.
    cbn [blank_input]; intros H.
    unfold markdownToHtml; cbn [not_string call_trim bind].
    rewrite space_trim_empty; [easy|].
    apply Forall_forall; now apply forallb_forall.
Qed.

Lemma markdownToHtml_total_witness :
  blank_input (VString (str "  ")) = true /\
  markdownToHtml (VString (str "  ")) = Ok [].
Proof.
  split; [reflexivity|].
  apply (proj2 (markdownToHtml_total (VString (str "  ")))); reflexivity.
Defined.

(** C5 (the code departs from the claim). The two examples come out as the
    claim says, one list of three items and two sibling lists, and a list
    line with an empty item gives an empty item when it is the last line.
    But when another line follows, it gives no item of its own: the white
    space after its marker runs over the line feed, and the next line,
    marker included, becomes the item text. *)
Theorem list_lines_merge :
  markdownToHtml (VString (str "- a" ++ [nl] ++ str "- b" ++ [nl] ++ str "- c")) =
  Ok (str "<ul><li>a</li><li>b</li><li>c</li></ul>") /\
  markdownToHtml (VString (str "- a" ++ [nl] ++ str "1. b")) =
  Ok (str "<ul><li>a</li></ul><ol><li>b</li></ol>") /\
  markdownToHtml (VString (str "- a" ++ [nl] ++ str "- ")) =
  Ok (str "<ul><li>a</li><li></li></ul>") /\
  markdownToHtml (VString (str "- a" ++ [nl] ++ str "- " ++ [nl] ++ str "- c")) =
  Ok (str "<ul><li>a</li><li>- c</li></ul>").
Proof. repeat split; vm_compute; reflexivity. Qed.

(** C6 (the code departs from the claim). The example of the claim renders
    as two paragraphs, and a run whose last line is [1999.] is one paragraph
    with that line behind a line break.  But when a text line follows, the
    white space that the ordered-list pattern wants behind the full stop is
    the line feed: the two lines become one list item, the number is
    dropped, and the text line stands in no paragraph.  The unordered-list
    pattern does the same behind a lone hyphen.  And a text line that begins
    with an inline code span is taken for a line of a code block: it closes
    the paragraph and stands outside any. *)
Theorem paragraph_run_broken :
  markdownToHtml
    (VString (str "line one" ++ [nl] ++ str "line two" ++ [nl] ++ [nl] ++
              str "line three")) =
  Ok (str "<p>line one<br />line two</p><p>line three</p>") /\
  markdownToHtml (VString (str "a" ++ [nl] ++ str "1999.")) =
  Ok (str "<p>a<br />1999.</p>") /\
  markdownToHtml (VString (str "a" ++ [nl] ++ str "1999." ++ [nl] ++ str "b")) =
  Ok (str "<p>a</p><ol><li>b</li></ol>") /\
  markdownToHtml (VString (str "a" ++ [nl] ++ str "-")) =
  Ok (str "<p>a<br />-</p>") /\
  markdownToHtml (VString (str "a" ++ [nl] ++ str "-" ++ [nl] ++ str "b")) =
  Ok (str "<p>a</p><ul><li>b</li></ul>") /\
  markdownToHtml
    (VString (str "para one" ++ [nl] ++ str "`code` more text")) =
  Ok (str "<p>para one</p><code>code</code> more text").
Proof. repeat split; vm_compute; reflexivity. Qed.

(** C7 (the code departs from the claim). An emphasis match takes the white
    space behind its closing delimiter with it, so a second emphasized word
    right after it has lost the white space its opening delimiter needs:
    [*b*] stays literal although it stands between a space and the end of
    the input. *)
Theorem adjacent_emphasis_missed :
  markdownToHtml (VString (str "*a* *b*")) = Ok (str "<p><em>a</em> *b*</p>") /\
  markdownToHtml (VString (str "*b*")) = Ok (str "<p><em>b</em></p>") /\
  markdownToHtml (VString (str "*a*  *b*")) =
  Ok (str "<p><em>a</em>  <em>b</em></p>").
Proof. repeat split; vm_compute; reflexivity. Qed.

(** C9, as amended. [escapeHtml] returns the empty string on a value that is
    not a string, and on a string the character-wise substitution that
    writes [&amp;], [&lt;], [&gt;] and [&quot;] (named references) and the
    numeric reference [&#039;] for the apostrophe, and copies every other
    code unit: the replacement of the ampersand comes first, so no
    reference written by a later pass is escaped again. *)
Theorem escapeHtml_chars :
  forall v : jsval,
    escapeHtml v =
    match v with
    | VString s =>
        flat_map (fun c => if N.eqb c 38 then str "&amp;"
                           else if N.eqb c 60 then str "&lt;"
                           else if N.eqb c 62 then str "&gt;"
                           else if N.eqb c 34 then str "&quot;"
                           else if N.eqb c 39 then str "&#039;"
                           else [c]) s
    | _ => []
    end.
Proof.
  intros [| | | |s|]; try reflexivity.
  exact (escape_string_chars s).
Qed.

(** C9, as stated, fails at the apostrophe: what [escapeHtml] writes for it
    is a numeric character reference, not a named one. *)
Lemma escapeHtml_apostrophe_numeric :
  escapeHtml (VString (str "'")) = str "&#039;" /\
  named_reference (escapeHtml (VString (str "'"))) = false /\
  named_reference (escapeHtml (VString (str "&"))) = true.
Proof. repeat split; vm_compute; reflexivity. Qed.

(** C10. The string [markdownToHtml] returns holds no line feed. *)
Theorem markdownToHtml_no_newline :
  forall v : jsval,
    exists out, markdownToHtml v = Ok out /\ existsb (N.eqb nl) out = false.
Proof.
  intros v.
  assert (R : existsb (N.eqb nl) (render v) = false).
  { destruct (existsb (N.eqb nl) (render v)) eqn:E; [|easy].
    apply existsb_exists in E as (c & Hc & Ec).
    apply N.eqb_eq in Ec; subst c.
    now apply render_no_nl in Hc. }
  unfold markdownToHtml.
  destruct v as [| |b| |s|]; cbn [not_string call_trim bind].
  1-4, 6: exists []; split; reflexivity.
  destruct (trim s); [exists []; split; reflexivity|].
  eexists; split; [reflexivity|exact R].
Qed.

End Claims.

(** * Beyond the claims: the rest of textUtils.ts and its callers *)

(** ** Searching, counted repetition *)

Section Search.

(** Where a search finds its match. *)
Lemma exec_from_found (re : regex) (s : jsstring) :
  forall p y,
    exec_from re p s = Some y ->
    exists a b, s = a ++ b /\ match_at re (last_char a p) b = Some y.
Proof.
  induction s as [|c t IH]; intros p y; cbn [exec_from].
  - destruct (match_at re p []) as [z|] eqn:M; [|easy].
    intros [= <-]; now exists [], [].
  - destruct (match_at re p (c :: t)) as [z|] eqn:M.
    + intros [= <-]; now exists [], (c :: t).
    + intros H; apply IH in H as (a & b & -> & H).
      now exists (c :: a), b.
Qed.

Lemma exec_from_none (re : regex) (s : jsstring) :
  forall p,
    (forall a b, s = a ++ b -> match_at re (last_char a p) b = None) ->
    exec_from re p s = None.
Proof.
  induction s as [|c t IH]; intros p N; cbn [exec_from].
  - now rewrite (N [] [] eq_refl : match_at re p [] = None).
  - rewrite (N [] (c :: t) eq_refl : match_at re p (c :: t) = None); apply IH.
    intros a b ->; now apply (N (c :: a) b).
Qed.

Lemma exec_from_here (re : regex) (p : option char) (s : jsstring) (y : mstate) :
  match_at re p s = Some y -> exec_from re p s = Some y.
Proof. intros M; destruct s; cbn [exec_from]; now rewrite M. Qed.

Lemma startsWith_refl (p t : jsstring) : startsWith (p ++ t) p = true.
Proof. induction p as [|a p IH]; simpl; [easy|]. now rewrite N.eqb_refl. Qed.

Lemma includes_suffix (a b p : jsstring) :
  includes b p = true -> includes (a ++ b) p = true.
Proof.
  intros H; induction a as [|c a IH]; [easy|].
  cbn [app includes]; rewrite IH; apply orb_true_r.
Qed.

Lemma includes_middle (a p b : jsstring) : includes (a ++ p ++ b) p = true.
Proof.
  apply includes_suffix.
  destruct (p ++ b) eqn:E; cbn [includes]; rewrite <- E, startsWith_refl;
    reflexivity.
Qed.

Lemma last_char_none (a : jsstring) : last_char a None = None -> a = [].
Proof.
  destruct a as [|c a]; [easy|]; cbn [last_char].
  assert (G : forall l d, last_char l (Some d) <> None)
    by (induction l; simpl; [easy|auto]).
  intros H; now apply G in H.
Qed.

Lemma in_m_times_cls (p : char -> bool) (n : nat) :
  forall x y,
    In y (m (times n (Cls p)) x) ->
    exists w t,
      length w = n /\ forallb p w = true /\ rest x = w ++ t /\
      y = MState (last_char w (prev x)) t (caps x).
Proof.
  induction n as [|n IH]; intros x y H; cbn [times] in H.
  - apply in_m_eps in H as ->.
    destruct x as [q r cs]; now exists [], r.
  - apply in_m_seq in H as (z & Hz & Hy).
    apply in_m_cls in Hz as (c & t & E & Pc & ->).
    apply IH in Hy as (w & t' & L & F & E' & ->).
    cbn [rest prev caps] in *; subst t.
    exists (c :: w), t'; cbn [length forallb last_char app].
    now rewrite L, Pc, F, E.
Qed.

Lemma bt_times_cls (p : char -> bool) (w : jsstring) :
  forallb p w = true ->
  forall q t cs k,
    bt (times (length w) (Cls p)) (MState q (w ++ t) cs) k =
    k (MState (last_char w q) t cs).
Proof.
  induction w as [|c w IH]; intros F q t cs k; [reflexivity|].
  cbn [forallb] in F; apply andb_prop in F as [Pc F].
  cbn [length times bt rest app caps]; rewrite Pc.
  now apply IH.
Qed.

Lemma bt_lit (l : jsstring) (q : option char) (t : jsstring)
    (cs : list (nat * jsstring)) (k : mstate -> option mstate) :
  bt (Lit l) (MState q (l ++ t) cs) k = k (MState (last_char l q) t cs).
Proof.
  cbn [bt rest prev caps].
  rewrite startsWith_refl; do 2 f_equal.
  clear; induction l as [|a l IH]; simpl; auto.
Qed.

End Search.

(** ** cleanYoutubeUrl *)

Section CleanYoutubeUrl.

(** What group 1 holds after a match of the id. *)
Lemma in_m_video_id (x y : mstate) :
  In y (m video_id x) ->
  exists id t q,
    length id = 11 /\ forallb idchar id = true /\ rest x = id ++ t /\
    y = MState q t ((1, id) :: caps x).
Proof.
  unfold video_id; intros H.
  apply in_m_group in H as (z & w & Hz & E & ->).
  apply in_m_times_cls in Hz as (id & t & L & F & E' & ->).
  cbn [rest caps prev] in *.
  rewrite E' in E; apply app_tail_eq in E; subst w.
  now exists id, t, (last_char id (prev x)).
Qed.

Lemma bt_video_id (id : jsstring) :
  length id = 11 -> forallb idchar id = true ->
  forall q t cs k,
    bt video_id (MState q (id ++ t) cs) k =
    k (MState (last_char id q) t ((1, id) :: cs)).
Proof.
  intros L F q t cs k; unfold video_id; cbn [bt].
  rewrite <- L, bt_times_cls by easy.
  cbn [prev rest caps]; do 3 f_equal.
  now rewrite (consumed_app (MState q (id ++ t) cs) (MState (last_char id q) t cs) id).
Qed.

Ltac inv_id :=
  repeat match goal with
         | H : In _ (m video_id _) |- _ =>
             apply in_m_video_id in H;
             destruct H as (? & ? & ? & ? & ? & ? & ?)
         end;
  repeat (subst; cbn [rest caps prev] in * ).

(** Every pattern puts eleven id characters into group 1, read from the
    text it was matched against. *)
Lemma pattern_id (re : regex) (p : option char) (s : jsstring) (y : mstate) :
  In re (re_id_only :: patterns) ->
  match_at re p s = Some y ->
  length (capture (caps y) 1) = 11 /\
  forallb idchar (capture (caps y) 1) = true /\
  includes s (capture (caps y) 1) = true.
Proof.
  intros I M; apply hd_in in M.
  cbn [In patterns] in I.
  repeat (destruct I as [<-|I]);
    try easy;
    unfold re_id_only, url_pattern, re_attribution, host_prefix in M;
    inv_m; inv_id; inv_m; cbn [capture Nat.eqb];
    (split; [easy|split; [easy|]]);
    repeat first [ apply (includes_middle []) | apply includes_suffix ].
Qed.

Lemma group1_id (re : regex) (s id : jsstring) :
  In re (re_id_only :: patterns) ->
  group1 (exec re s) = Some id ->
  length id = 11 /\ forallb idchar id = true /\ includes s id = true.
Proof.
  intros I; unfold group1, exec.
  destruct (exec_from re None s) as [y|] eqn:E; [|easy].
  apply exec_from_found in E as (a & b & -> & M).
  apply (pattern_id _ _ _ _ I) in M as (L & F & C).
  destruct (capture (caps y) 1); [easy|]; intros [= <-].
  split; [easy|split; [easy|now apply includes_suffix]].
Qed.

Lemma first_id_id (s id : jsstring) :
  forall ps, incl ps patterns -> first_id ps s = Some id ->
  length id = 11 /\ forallb idchar id = true /\ includes s id = true.
Proof.
  induction ps as [|re ps IH]; intros I; cbn [first_id]; [easy|].
  destruct (group1 (exec re s)) as [i|] eqn:G.
  - intros [= ->]; apply (group1_id re s); [right; apply I; now left|easy].
  - apply IH; intros r Hr; apply I; now right.
Qed.

Lemma clean_first_id (s id : jsstring) :
  first_id patterns s = Some id ->
  cleanYoutubeUrl (VString s) = Cleaned (Some (watch_url id)) (Some id).
Proof.
  destruct s; [now vm_compute|].
  cbn [cleanYoutubeUrl]; now intros ->.
Qed.

Lemma clean_string (s : jsstring) :
  cleanYoutubeUrl (VString s) = not_cleaned \/
  exists id,
    length id = 11 /\ forallb idchar id = true /\ includes s id = true /\
    cleanYoutubeUrl (VString s) = Cleaned (Some (watch_url id)) (Some id).
Proof.
  destruct s as [|c s]; [now left|].
  cbn [cleanYoutubeUrl].
  destruct (first_id patterns (c :: s)) as [id|] eqn:F.
  - right; exists id.
    now destruct (first_id_id _ _ patterns (incl_refl _) F) as (? & ? & ?).
  - destruct (group1 (exec re_id_only (c :: s))) as [id|] eqn:G; [|now left].
    right; exists id.
    now destruct (group1_id re_id_only _ _ (or_introl eq_refl) G) as (? & ? & ?).
Qed.

Lemma clean_canonical (v : jsval) :
  cleanYoutubeUrl v = not_cleaned \/
  exists id,
    length id = 11 /\ forallb idchar id = true /\
    cleanYoutubeUrl v = Cleaned (Some (watch_url id)) (Some id).
Proof.
  destruct v as [| | | |s|]; try (now left).
  destruct (clean_string s) as [E|(id & L & F & _ & E)]; [now left|].
  right; now exists id.
Qed.

(** The optional scheme and host prefix reads exactly one of the six
    prefixes when the host follows. *)
Lemma bt_host_prefix (pre t : jsstring) (k : mstate -> option mstate)
    (z : mstate) :
  In pre url_prefixes ->
  k (MState (last_char pre None) (121%N :: t) []) = Some z ->
  bt host_prefix (MState None (pre ++ 121%N :: t) []) k = Some z.
Proof.
  intros I K; cbn [url_prefixes In] in I.
  repeat (destruct I as [<-|I]); try easy;
    simpl in K |- *; now rewrite K.
Qed.

Lemma match_at_url (pre path id post : jsstring) :
  In pre url_prefixes -> hd_error path = Some 121%N ->
  length id = 11 -> forallb idchar id = true ->
  match_at (url_pattern path) None (pre ++ path ++ id ++ post) =
  Some (MState (last_char id (last_char path None)) post [(1, id)]).
Proof.
  intros I P L F.
  destruct path as [|c path]; [easy|]; injection P as ->.
  rewrite match_at_bt; unfold url_pattern.
  change (bt (Seq host_prefix ?b) ?x ?k)
    with (bt host_prefix x (fun y => bt b y k)).
  apply (bt_host_prefix pre (path ++ id ++ post)); [easy|].
  cbv beta.
  change (bt (Seq ?a ?b) ?x ?k) with (bt a x (fun y => bt b y k)).
  change (121%N :: path ++ id ++ post) with ((121%N :: path) ++ id ++ post).
  rewrite (bt_lit (121%N :: path)).
  now rewrite bt_video_id.
Qed.

Lemma group1_url (pre path id post : jsstring) :
  In pre url_prefixes -> hd_error path = Some 121%N ->
  length id = 11 -> forallb idchar id = true ->
  group1 (exec (url_pattern path) (pre ++ path ++ id ++ post)) = Some id.
Proof.
  intros I P L F; unfold exec.
  rewrite (exec_from_here _ _ _ _ (match_at_url pre path id post I P L F)).
  cbn [group1 caps capture Nat.eqb].
  now destruct id.
Qed.

Lemma clean_watch (pre id post : jsstring) :
  In pre url_prefixes ->
  length id = 11 -> forallb idchar id = true ->
  cleanYoutubeUrl (VString (pre ++ str "youtube.com/watch?v=" ++ id ++ post)) =
  Cleaned (Some (watch_url id)) (Some id).
Proof.
  intros I L F; apply clean_first_id.
  unfold patterns; cbn [first_id].
  now rewrite group1_url.
Qed.

(** A pattern of the first six finds nothing where its path does not
    occur. *)
Lemma exec_url_none (path s : jsstring) :
  includes s path = false -> exec (url_pattern path) s = None.
Proof.
  intros N; apply exec_from_none; intros a b ->.
  destruct (match_at (url_pattern path) (last_char a None) b) as [y|] eqn:M;
    [exfalso|easy].
  apply hd_in in M; unfold url_pattern, host_prefix in M.
  enough (I : includes b path = true)
    by (apply (includes_suffix a) in I; congruence).
  inv_m;
    repeat first [ apply (includes_middle []) | apply includes_suffix ].
Qed.

Lemma first_id_skip (path s : jsstring) (more : list regex) :
  includes s path = false ->
  first_id (url_pattern path :: more) s = first_id more s.
Proof. intros N; cbn [first_id]; now rewrite exec_url_none. Qed.

Lemma includes_slash_free (s p : jsstring) :
  slash_free s = true -> In 47%N p -> includes s p = false.
Proof.
  intros S I; destruct (includes s p) eqn:E; [|easy].
  apply includes_app in E as (a & b & ->).
  unfold slash_free in S; rewrite !forallb_app in S.
  apply andb_prop in S as [_ S]; apply andb_prop in S as [S _].
  rewrite forallb_forall in S; now apply S in I.
Qed.

Lemma idchar_slash_free (id : jsstring) :
  forallb idchar id = true -> slash_free id = true.
Proof.
  unfold slash_free; rewrite !forallb_forall; intros H c I.
  apply H in I; destruct (N.eqb_spec c 47) as [->|]; [now vm_compute in I|easy].
Qed.

Lemma clean_shape (pre path id post : jsstring) :
  In pre url_prefixes -> In path url_paths ->
  length id = 11 -> forallb idchar id = true -> slash_free post = true ->
  cleanYoutubeUrl (VString (pre ++ path ++ id ++ post)) =
  Cleaned (Some (watch_url id)) (Some id).
Proof.
  intros Ipre Ipath L F S.
  assert (T : slash_free (id ++ post) = true).
  { unfold slash_free; rewrite forallb_app.
    apply andb_true_intro; split; [now apply idchar_slash_free|easy]. }
  apply clean_first_id; unfold patterns.
  pose proof Ipre as Ipre'.
  cbn [url_prefixes url_paths In] in Ipre, Ipath.
  repeat (destruct Ipath as [<-|Ipath]); try easy;
    repeat (destruct Ipre as [<-|Ipre]); try easy;
    repeat (rewrite first_id_skip
              by (simpl; apply includes_slash_free; [exact T|find_in]));
    cbn [first_id]; now rewrite group1_url.
Qed.

(** Each of the seven patterns reads a slash. *)
Lemma pattern_slash (re : regex) (p : option char) (s : jsstring) (y : mstate) :
  In re patterns -> match_at re p s = Some y -> In 47%N s.
Proof.
  intros I M; apply hd_in in M; cbn [In patterns] in I.
  repeat (destruct I as [<-|I]); try easy;
    unfold url_pattern, re_attribution, host_prefix in M;
    inv_m; norm_str; cbn [app]; find_in.
Qed.

Lemma first_id_bare (s : jsstring) :
  forallb idchar s = true -> first_id patterns s = None.
Proof.
  intros F.
  assert (E : forall re, In re patterns -> group1 (exec re s) = None).
  { intros re I; unfold exec; rewrite exec_from_none; [easy|].
    intros a b ->.
    destruct (match_at re (last_char a None) b) as [y|] eqn:M; [|easy].
    apply (pattern_slash _ _ _ _ I) in M.
    apply idchar_slash_free in F; unfold slash_free in F.
    rewrite forallb_forall in F.
    now specialize (F 47%N (in_or_app _ _ _ (or_intror M))). }
  revert E; generalize patterns; intros ps E.
  induction ps as [|re ps IH]; [easy|]; cbn [first_id].
  rewrite (E re (or_introl eq_refl)); apply IH.
  intros r I; apply E; now right.
Qed.

Lemma exec_id_only (s : jsstring) :
  forallb idchar s = true ->
  group1 (exec re_id_only s) = if length s =? 11 then Some s else None.
Proof.
  intros F; destruct (Nat.eqb_spec (length s) 11) as [L|L].
  - unfold exec.
    rewrite (exec_from_here _ _ _ (MState (last_char s None) [] [(1, s)])).
    + cbn [group1 caps capture Nat.eqb]; now destruct s.
    + rewrite match_at_bt; unfold re_id_only; cbn [bt at_bol prev].
      rewrite <- (app_nil_r s) at 1.
      now rewrite bt_video_id.
  - unfold exec, group1.
    destruct (exec_from re_id_only None s) as [y|] eqn:E; [exfalso|easy].
    apply exec_from_found in E as (a & b & -> & M).
    apply hd_in in M; unfold re_id_only in M.
    inv_m; inv_id.
    unfold at_bol in *; unfold at_eol in *; cbn [prev rest] in *.
    destruct (last_char a None) eqn:A; [easy|].
    apply last_char_none in A; subst a.
    match goal with
    | H : (match ?t with [] => true | _ :: _ => _ end) = true |- _ =>
        destruct t; [|easy]
    end.
    rewrite app_nil_r in L; cbn [app] in L; congruence.
Qed.

Lemma clean_bare (s : jsstring) :
  forallb idchar s = true ->
  cleanYoutubeUrl (VString s) =
  if length s =? 11 then Cleaned (Some (watch_url s)) (Some s) else not_cleaned.
Proof.
  intros F; destruct s as [|c s]; [easy|].
  cbn [cleanYoutubeUrl].
  rewrite (first_id_bare _ F), (exec_id_only _ F).
  now destruct (length (c :: s) =? 11).
Qed.

End CleanYoutubeUrl.

(** ** Global replacement, match by match *)

Section ReplaceSteps.

Variable re : regex.
Variable f : list (nat * jsstring) -> jsstring.

(** The units of a match that are still to be passed over are dropped. *)
Lemma replace_go_skip :
  forall w t p,
    replace_go re f p (w ++ t) (length w) = replace_go re f (last_char w p) t 0.
Proof.
  induction w as [|c w IH]; intros t p; [reflexivity|].
  cbn [app length replace_go last_char]; apply IH.
Qed.

(** At a match that reads [c :: w], the replacement is written and the scan
    goes on behind the match. *)
Lemma replace_go_match (p : option char) (c : char) (w t : jsstring)
    (y : mstate) :
  match_at re p (c :: w ++ t) = Some y -> rest y = t ->
  replace_go re f p (c :: w ++ t) 0 =
  f (caps y) ++ replace_go re f (last_char w (Some c)) t 0.
Proof.
  intros M R; cbn [replace_go]; rewrite M, R.
  replace (length (c :: w ++ t) - length t) with (S (length w))
    by (cbn [length]; rewrite length_app; lia).
  now rewrite replace_go_skip.
Qed.

(** With a pattern that never matches the empty string, a unit of the
    input is copied only from a position where the pattern fails. *)
Lemma replace_go_kept (P R : char -> Prop) :
  (forall cs c, In c (f cs) -> R c) ->
  (forall q c t, P c -> match_at re q (c :: t) = None -> R c) ->
  (forall q s y, match_at re q s = Some y -> length (rest y) < length s) ->
  forall s p k, Forall P s -> Forall R (replace_go re f p s k).
Proof.
  intros Hf Hc Hm; induction s as [|d t IH]; intros p k Fs.
  - destruct k; cbn [replace_go]; [|constructor].
    destruct (match_at re p []) as [y|] eqn:M; [|constructor].
    apply Hm in M; simpl in M; lia.
  - inversion Fs as [|? ? Pd Ft]; subst.
    destruct k; cbn [replace_go]; [|now apply IH].
    destruct (match_at re p (d :: t)) as [y|] eqn:M.
    + apply Forall_app; split.
      * apply Forall_forall; intros c I; now apply (Hf (caps y)).
      * pose proof (Hm _ _ _ M) as Lt.
        destruct (length (d :: t) - length (rest y)) eqn:E; [lia|].
        now apply IH.
    + constructor; [now apply (Hc p d t)|now apply IH].
Qed.

Lemma replace_nonempty (s : jsstring) :
  (forall cs, f cs <> []) -> s <> [] -> replace re f s <> [].
Proof.
  intros Hf Hs; destruct s as [|c t]; [easy|].
  unfold replace; cbn [replace_go].
  destruct (match_at re None (c :: t)) as [y|]; [|easy].
  intros E; apply app_eq_nil in E as [E _]; now apply Hf in E.
Qed.

End ReplaceSteps.

(** A pattern that is one character class, replaced by a fixed string. *)
Lemma replace_cls (p : char -> bool) (rep s : jsstring) :
  replace (Cls p) (template [RText rep]) s =
  flat_map (fun d => if p d then rep else [d]) s.
Proof.
  unfold replace; generalize (@None char).
  induction s as [|d t IH]; intros q.
  - reflexivity.
  - cbn [replace_go flat_map].
    unfold match_at; cbn [m rest].
    destruct (p d); cbn [hd_error].
    + cbn [length rest caps template flat_map].
      rewrite Nat.sub_succ_l, Nat.sub_diag by lia.
      now rewrite IH, app_nil_r.
    + now rewrite IH.
Qed.

(** ** sanitizeVideoTitleForFilename *)

Section Sanitize.

Lemma m_seq (a b : regex) (x : mstate) :
  m (Seq a b) x = flat_map (m b) (m a x).
Proof. reflexivity. Qed.

Lemma m_star (g : bool) (a : regex) (x : mstate) :
  m (Star g a) x = star_loop (m a) g (S (length (rest x))) x.
Proof. reflexivity. Qed.

Lemma star_greedy_nonempty (a : regex) (x : mstate) : m (Star true a) x <> [].
Proof.
  rewrite m_star; cbn [star_loop].
  intros E; now apply app_eq_nil in E as [_ E].
Qed.

Lemma star_loop_ext (step step' : mstate -> list mstate) (g : bool) :
  (forall x, step x = step' x) ->
  forall n x, star_loop step g n x = star_loop step' g n x.
Proof.
  intros E; induction n as [|n IH]; intros x; cbn [star_loop]; [easy|].
  rewrite E.
  assert (F : forall l,
             flat_map (fun y => if length (rest y) <? length (rest x)
                                then star_loop step g n y else []) l =
             flat_map (fun y => if length (rest y) <? length (rest x)
                                then star_loop step' g n y else []) l)
    by (intros l; apply flat_map_ext; intros y; now rewrite IH).
  now rewrite F.
Qed.

(** A literal of one character reads what the class of that character
    reads. *)
Lemma lit1_cls (c : char) (x : mstate) : m (Lit [c]) x = m (Cls (N.eqb c)) x.
Proof.
  cbn [m startsWith]; destruct (rest x) as [|d t]; [reflexivity|].
  rewrite andb_true_r.
  destruct (N.eqb_spec c d) as [->|]; reflexivity.
Qed.

Lemma underscores_cls (x : mstate) :
  m re_underscores x =
  m (Seq (Cls (N.eqb 95)) (Seq (Cls (N.eqb 95)) (Star true (Cls (N.eqb 95))))) x.
Proof.
  unfold re_underscores; cbn [at_least].
  change (str "_") with [95%N].
  rewrite !m_seq, lit1_cls; apply flat_map_ext; intros z.
  rewrite !m_seq, lit1_cls; apply flat_map_ext; intros z'.
  rewrite !m_star; apply star_loop_ext; intros z''; apply lit1_cls.
Qed.

(** A match of "_{2,}" reads a whole run of two underscores or more. *)
Lemma underscores_match (q : option char) (s : jsstring) (y : mstate) :
  match_at re_underscores q s = Some y ->
  exists w,
    s = 95%N :: 95%N :: w ++ rest y /\
    match rest y with [] => True | d :: _ => d <> 95%N end.
Proof.
  unfold match_at; rewrite underscores_cls; intros H.
  apply hd_m_seq in H as (z & Hz & H).
  apply hd_m_seq in H as (z' & Hz' & H).
  pose proof (hd_m_star_greedy_cls _ _ _ H) as G.
  apply hd_in in H; inv_m.
  repeat match goal with
         | E : (95 =? _)%N = true |- _ => apply N.eqb_eq in E; subst
         end.
  eexists; split; [reflexivity|].
  match goal with |- match ?r with _ => _ end => destruct r as [|d r'] end;
    [easy|].
  apply N.eqb_neq in G; now intros ->.
Qed.

Lemma underscores_miss (q : option char) (t : jsstring) :
  match_at re_underscores q (95%N :: 95%N :: t) <> None.
Proof.
  unfold match_at; rewrite underscores_cls, !m_seq.
  assert (E : forall p r, m (Cls (N.eqb 95)) (MState p (95%N :: r) []) =
                          [MState (Some 95%N) r []]) by reflexivity.
  rewrite E; cbn [flat_map]; rewrite app_nil_r, m_seq, E.
  cbn [flat_map]; rewrite app_nil_r.
  destruct (m (Star true (Cls (N.eqb 95))) (MState (Some 95%N) t [])) eqn:S;
    [now apply star_greedy_nonempty in S|easy].
Qed.

(** After the third replacement no two underscores stand side by side, and
    the result begins with an underscore only where the input did. *)
Lemma collapse_no_double :
  forall n s p,
    length s <= n ->
    no_double 95%N (replace_go re_underscores underscore p s 0) = true /\
    (hd_error (replace_go re_underscores underscore p s 0) = Some 95%N ->
     hd_error s = Some 95%N).
Proof.
  induction n as [|n IH]; intros s p L.
  - destruct s; [|simpl in L; lia]; cbn [replace_go].
    destruct (match_at re_underscores p []) as [y|] eqn:M; [|easy].
    now apply underscores_match in M as (w & E & _).
  - destruct s as [|c t].
    { cbn [replace_go].
      destruct (match_at re_underscores p []) as [y|] eqn:M; [|easy].
      now apply underscores_match in M as (w & E & _). }
    destruct (match_at re_underscores p (c :: t)) as [y|] eqn:M.
    + destruct (underscores_match _ _ _ M) as (w & E & G).
      injection E as -> ->.
      pose proof (replace_go_match re_underscores underscore p 95%N
                    (95%N :: w) (rest y) y M eq_refl) as R.
      match goal with
      | |- context [replace_go ?a ?b ?c ?d 0] =>
          replace (replace_go a b c d 0)
            with (underscore (caps y) ++
                  replace_go a b (last_char (95%N :: w) (Some 95%N)) (rest y) 0)
            by (symmetry; exact R)
      end.
      clear R; change (underscore (caps y)) with [95%N]; cbn [app].
      destruct (IH (rest y) (last_char (95%N :: w) (Some 95%N))) as [ND HD].
      { simpl in L; rewrite length_app in L; lia. }
      split; [|easy].
      cbn [no_double]; rewrite ND, andb_true_r.
      destruct (replace_go re_underscores underscore _ (rest y) 0)
        as [|b o] eqn:O; [easy|].
      destruct (N.eqb_spec b 95%N) as [->|]; [|easy].
      specialize (HD eq_refl).
      destruct (rest y); [easy|]; now injection HD as ->.
    + cbn [replace_go]; rewrite M.
      destruct (IH t (Some c)) as [ND HD]; [simpl in L; lia|].
      split; [|easy].
      cbn [no_double]; rewrite ND, andb_true_r.
      destruct (replace_go re_underscores underscore (Some c) t 0)
        as [|b o] eqn:O; [easy|].
      destruct (N.eqb_spec c 95%N) as [->|]; [|easy].
      destruct (N.eqb_spec b 95%N) as [->|]; [|easy].
      specialize (HD eq_refl).
      destruct t as [|d t']; [easy|]; injection HD as ->.
      now apply underscores_miss in M.
Qed.

Lemma spaces_match (q : option char) (c : char) (t : jsstring) :
  is_space c = true -> match_at re_spaces q (c :: t) <> None.
Proof.
  intros S; unfold match_at, re_spaces, Plus; rewrite m_seq.
  assert (E : m (Cls is_space) (MState q (c :: t) []) = [MState (Some c) t []])
    by (cbn [m rest caps]; now rewrite S).
  rewrite E; cbn [flat_map]; rewrite app_nil_r.
  destruct (m (Star true (Cls is_space)) (MState (Some c) t [])) eqn:S';
    [now apply star_greedy_nonempty in S'|easy].
Qed.

Lemma spaces_consume (q : option char) (s : jsstring) (y : mstate) :
  match_at re_spaces q s = Some y ->
  exists c w, s = c :: w ++ rest y /\ is_space c = true.
Proof.
  intros M; apply hd_in in M; unfold re_spaces in M; inv_m.
  eexists _, _; split; [reflexivity|easy].
Qed.

Lemma filename_not_space (c : char) :
  filename_char c = true -> is_space c = false.
Proof.
  intros H; destruct (is_space c) eqn:S; [exfalso|easy].
  unfold filename_char, wordchar, alnum, is_space in *.
  rewrite ?orb_true_iff, ?andb_true_iff, ?N.eqb_eq, ?N.leb_le in *; lia.
Qed.

Lemma filename_safe (c : char) :
  filename_char c = true -> unsafe_char c = false.
Proof.
  unfold filename_char, unsafe_char.
  destruct (wordchar c), (is_space c), (c =? 45)%N, (c =? 46)%N; easy.
Qed.

Lemma safe_filename (c : char) :
  unsafe_char c = false -> is_space c = false -> filename_char c = true.
Proof.
  unfold filename_char, unsafe_char; intros U S; rewrite S in U.
  destruct (wordchar c), (c =? 45)%N, (c =? 46)%N; easy.
Qed.

Lemma step1_chars (s : jsstring) :
  Forall (fun c => unsafe_char c = false) (replace re_unsafe underscore s).
Proof.
  unfold re_unsafe, underscore; rewrite replace_cls.
  induction s as [|a s IH]; cbn [flat_map]; [constructor|].
  destruct (unsafe_char a) eqn:U; cbn [app]; now constructor.
Qed.

Lemma step2_chars (s : jsstring) :
  Forall (fun c => unsafe_char c = false) s ->
  Forall (fun c => filename_char c = true) (replace re_spaces underscore s).
Proof.
  intros F; unfold replace.
  apply (replace_go_kept re_spaces underscore
           (fun c => unsafe_char c = false)
           (fun c => filename_char c = true)); [| | |exact F].
  - now intros cs c [<-|[]].
  - intros q c t U M; apply safe_filename; [easy|].
    destruct (is_space c) eqn:S; [now apply (spaces_match q c t) in S|easy].
  - intros q s0 y M; apply spaces_consume in M as (c & w & -> & _).
    cbn [length]; rewrite length_app; lia.
Qed.

Lemma step3_chars (s : jsstring) :
  Forall (fun c => filename_char c = true) s ->
  Forall (fun c => filename_char c = true) (replace re_underscores underscore s).
Proof.
  intros F; apply Forall_forall; intros c I.
  apply replace_go_chars in I as [I|(cs & [<-|[]])]; [|easy].
  rewrite Forall_forall in F; auto.
Qed.

Lemma in_firstn {A : Type} (n : nat) (l : list A) (a : A) :
  In a (firstn n l) -> In a l.
Proof.
  intros I; rewrite <- (firstn_skipn n l); apply in_or_app; now left.
Qed.

Lemma no_double_firstn (c : char) (n : nat) :
  forall s, no_double c s = true -> no_double c (firstn n s) = true.
Proof.
  induction n as [|n IH]; intros [|a s] H; try easy.
  cbn [firstn]; cbn [no_double] in H; apply andb_prop in H as [H1 H2].
  cbn [no_double]; rewrite (IH _ H2), andb_true_r.
  destruct n; [easy|]; now destruct s.
Qed.

Lemma no_double_run (c : char) (a t : jsstring) :
  no_double c (a ++ c :: c :: t) = false.
Proof.
  induction a as [|d a IH].
  - cbn [app no_double]; now rewrite N.eqb_refl.
  - cbn [app]; cbn [no_double]; rewrite IH; apply andb_false_r.
Qed.

Lemma sanitize_chars (title : jsstring) :
  forallb filename_char (sanitizeVideoTitleForFilename title) = true.
Proof.
  destruct title as [|c t]; [reflexivity|].
  apply forallb_forall; intros d I.
  cbn [sanitizeVideoTitleForFilename] in I; apply in_firstn in I.
  pose proof (step3_chars _ (step2_chars _ (step1_chars (c :: t)))) as F.
  rewrite Forall_forall in F; auto.
Qed.

Lemma sanitize_nonempty (title : jsstring) :
  sanitizeVideoTitleForFilename title <> [].
Proof.
  destruct title as [|c t]; [easy|].
  cbn [sanitizeVideoTitleForFilename].
  assert (N : replace re_underscores underscore
                (replace re_spaces underscore
                   (replace re_unsafe underscore (c :: t))) <> [])
    by (repeat apply replace_nonempty; easy).
  now destruct (replace re_underscores _ _).
Qed.

Lemma sanitize_no_double (title : jsstring) :
  no_double 95%N (sanitizeVideoTitleForFilename title) = true.
Proof.
  destruct title as [|c t]; [reflexivity|].
  cbn [sanitizeVideoTitleForFilename].
  apply no_double_firstn; unfold replace at 1.
  now apply (collapse_no_double _ _ None (le_n _)).
Qed.

Lemma flat_map_keep (p : char -> bool) (rep s : jsstring) :
  (forall c, In c s -> p c = false) ->
  flat_map (fun d => if p d then rep else [d]) s = s.
Proof.
  induction s as [|a s IH]; intros H; [easy|]; cbn [flat_map].
  rewrite (H a (or_introl eq_refl)), IH; [easy|].
  intros c I; apply H; now right.
Qed.

(** What the function returns as it is. *)
Lemma sanitize_fixed (r : jsstring) :
  r <> [] -> forallb filename_char r = true -> no_double 95%N r = true ->
  length r <= 100 ->
  sanitizeVideoTitleForFilename r = r.
Proof.
  intros N F D L; destruct r as [|c t]; [easy|].
  cbn [sanitizeVideoTitleForFilename].
  rewrite forallb_forall in F.
  assert (S1 : replace re_unsafe underscore (c :: t) = c :: t).
  { unfold re_unsafe, underscore; rewrite replace_cls.
    apply flat_map_keep; intros d I; now apply filename_safe, F. }
  rewrite S1.
  assert (S2 : replace re_spaces underscore (c :: t) = c :: t).
  { apply replace_no_match; intros a b q E.
    destruct (match_at re_spaces q b) as [y|] eqn:M; [exfalso|easy].
    apply spaces_consume in M as (d & w & -> & Sd).
    assert (I : In d (c :: t)) by (rewrite E; apply in_or_app; right; now left).
    apply F, filename_not_space in I; congruence. }
  rewrite S2.
  assert (S3 : replace re_underscores underscore (c :: t) = c :: t).
  { apply replace_no_match; intros a b q E.
    destruct (match_at re_underscores q b) as [y|] eqn:M; [exfalso|easy].
    apply underscores_match in M as (w & -> & _).
    rewrite E, no_double_run in D; easy. }
  rewrite S3; now apply firstn_all2.
Qed.

End Sanitize.

(** ** Where the characters of the output come from *)

Section Sources.

Lemma capture_in (cs : list (nat * jsstring)) (n : nat) (c : char) :
  In c (capture cs n) -> exists k w, In (k, w) cs /\ In c w.
Proof.
  induction cs as [|[k w] cs IH]; cbn [capture]; [easy|].
  destruct (Nat.eqb k n); intros H.
  - exists k, w; split; [now left|easy].
  - destruct (IH H) as (k' & w' & I & J); exists k', w'; split; [now right|easy].
Qed.

(** A group holds a piece of the text the match was looked for in. *)
Lemma m_captures (r : regex) :
  forall x y, In y (m r x) ->
    forall e, In e (caps y) ->
      In e (caps x) \/ (forall c, In c (snd e) -> In c (rest x)).
Proof.
  induction r as [|l|p|a IHa b IHb|a IHa b IHb|g a IHa|n a IHa|ml|ml|a IHa];
    intros x y H.
  - apply in_m_eps in H as ->; now left.
  - apply in_m_lit in H as (t & _ & ->); now left.
  - apply in_m_cls in H as (c & t & _ & _ & ->); now left.
  - apply in_m_seq in H as (z & Hz & Hy); intros e He.
    destruct (IHb _ _ Hy _ He) as [I|I]; [now apply (IHa _ _ Hz)|].
    right; intros c Hc.
    destruct (m_consumes _ _ _ Hz) as (w & E & _).
    rewrite E; apply in_or_app; right; auto.
  - apply in_m_alt in H as [H|H]; eauto.
  - pose (P := fun x y : mstate =>
                  forall e, In e (caps y) ->
                    In e (caps x) \/
                    (forall c, In c (snd e) -> In c (rest x))).
    assert (R : forall x0, P x0 x0) by (intros x0 e He; now left).
    assert (St : forall x0 z y0, In z (m a x0) -> P z y0 -> P x0 y0).
    { intros x0 z y0 Hz Pz e He.
      destruct (Pz e He) as [I|I]; [now apply (IHa _ _ Hz)|].
      right; intros c Hc.
      destruct (m_consumes _ _ _ Hz) as (w & E & _).
      rewrite E; apply in_or_app; right; auto. }
    exact (in_star_loop (m a) P R St g _ x y H).
  - apply in_m_group in H as (z & w & Hz & E & ->); intros e He.
    cbn [caps] in He; destruct He as [<-|He].
    + right; cbn [snd]; intros c Hc; rewrite E; apply in_or_app; now left.
    + now apply (IHa _ _ Hz).
  - apply in_m_bol in H as (-> & _); now left.
  - apply in_m_eol in H as (-> & _); now left.
  - apply in_m_neglook in H as (-> & _); now left.
Qed.

Variable re : regex.
Variable f : list (nat * jsstring) -> jsstring.
Variable T : char -> Prop.

Hypothesis f_source :
  forall cs c, In c (f cs) -> T c \/ exists n, In c (capture cs n).

Lemma match_source (p : option char) (s : jsstring) (y : mstate) (c : char) :
  match_at re p s = Some y -> In c (f (caps y)) -> In c s \/ T c.
Proof.
  intros M H; apply f_source in H as [H|(n & H)]; [now right|left].
  apply capture_in in H as (k & w & I & J).
  apply hd_in in M.
  destruct (m_captures _ _ _ M _ I) as [[]|S]; exact (S c J).
Qed.

(** Every code unit of the result comes from the input, or is one the
    replacement writes itself. *)
Lemma replace_go_source (c : char) :
  forall s p k, In c (replace_go re f p s k) -> In c s \/ T c.
Proof.
  induction s as [|d t IH]; intros p k H.
  - destruct k; cbn [replace_go] in H; [|easy].
    destruct (match_at re p []) as [y|] eqn:M; [|easy].
    rewrite app_nil_r in H; now apply (match_source _ _ _ _ M).
  - destruct k as [|k]; cbn [replace_go] in H.
    + destruct (match_at re p (d :: t)) as [y|] eqn:M.
      * apply in_app_or in H as [H|H]; [now apply (match_source _ _ _ _ M)|].
        destruct (length (d :: t) - length (rest y)).
        -- destruct H as [<-|H]; [left; now left|].
           destruct (IH _ _ H); [left; now right|auto].
        -- destruct (IH _ _ H); [left; now right|auto].
      * destruct H as [<-|H]; [left; now left|].
        destruct (IH _ _ H); [left; now right|auto].
    + destruct (IH _ _ H); [left; now right|auto].
Qed.

End Sources.

Section OutputCharacters.

Let T (c : char) : Prop := tag_char c = true.

Lemma tag_in (l : jsstring) (c : char) :
  forallb tag_char l = true -> In c l -> tag_char c = true.
Proof. intros F I; rewrite forallb_forall in F; auto. Qed.

Lemma template_source (parts : list rpart) :
  (forall l, In (RText l) parts -> forallb tag_char l = true) ->
  forall cs c, In c (template parts cs) ->
               T c \/ exists n, In c (capture cs n).
Proof.
  intros Hp cs c H; unfold template in H.
  apply in_flat_map in H as ([l|n] & I & H).
  - left; apply (tag_in l); [now apply Hp|easy].
  - right; now exists n.
Qed.

Lemma wrap_source (open close : jsstring) (n : nat) :
  forallb tag_char open = true -> forallb tag_char close = true ->
  forall cs c, In c (open ++ trim (capture cs n) ++ close) ->
               T c \/ exists k, In c (capture cs k).
Proof.
  intros O C cs c H.
  apply in_app_or in H as [H|H]; [left; now apply (tag_in open)|].
  apply in_app_or in H as [H|H]; [|left; now apply (tag_in close)].
  right; exists n; now apply trim_incl.
Qed.

Ltac texts :=
  let l := fresh "l" in
  let I := fresh "I" in
  intros l I; cbn [In] in I;
  repeat (destruct I as [I|I];
          [try discriminate I; injection I as <-; reflexivity|]);
  destruct I.

Ltac from_pass :=
  match goal with
  | H : In _ (replace_go _ _ _ _ _) |- _ =>
      apply (replace_go_source _ _ T) in H;
      [destruct H as [H|H]; [|now right]
      | first [ apply template_source; texts
              | apply wrap_source; reflexivity
              | intros cs0 c0 H0; apply in_app_or in H0 as [H0|H0];
                [left; (eapply tag_in; [|exact H0]; reflexivity)|];
                apply in_app_or in H0 as [H0|H0];
                [right; eexists; exact H0
                |left; (eapply tag_in; [|exact H0]; reflexivity)] ] ]
  end.

Lemma inlinePasses_source (v : jsval) (c : char) :
  In c (inlinePasses v) -> In c (escapeHtml v) \/ T c.
Proof.
  unfold inlinePasses, orderedLists, unorderedLists, italic, bold,
    speakerLabels, inlineCode, codeBlocks, em_template, strong_template.
  unfold replace; cbv zeta; intros H.
  repeat from_pass; now left.
Qed.

Lemma paragraphLine_source (b : bool) (line : jsstring) (c : char) :
  In c (fst (paragraphLine b line)) -> In c line \/ T c.
Proof.
  unfold paragraphLine.
  assert (I : forall d, In d (trim line) -> In d line) by apply trim_incl.
  destruct (trim line) as [|d l].
  - destruct b; cbn [fst]; [|easy].
    intros H; right; (eapply tag_in; [|exact H]; reflexivity).
  - destruct (is_container_line (d :: l)), b; cbn [fst negb]; auto;
      intros H; apply in_app_or in H as [H|H]; auto;
      right; (eapply tag_in; [|exact H]; reflexivity).
Qed.

Lemma paragraphLines_source (c : char) (ls : list jsstring) :
  forall b, In c (fst (paragraphLines b ls)) ->
            (exists l, In l ls /\ In c l) \/ T c.
Proof.
  induction ls as [|l ls IH]; intros b; [easy|].
  cbn [paragraphLines].
  pose proof (paragraphLine_source b l c) as H1.
  destruct (paragraphLine b l) as [out st].
  specialize (IH st); destruct (paragraphLines st ls) as [outs st'].
  cbn [fst] in *; intros H; apply in_app_or in H as [H|H].
  - destruct (H1 H); [left; exists l; split; [now left|easy]|now right].
  - destruct (IH H) as [(l' & I & J)|]; [left; exists l'; split; [now right|easy]
                                        |now right].
Qed.

Lemma paragraphs_source (s : jsstring) (c : char) :
  In c (paragraphs s) -> In c s \/ T c.
Proof.
  unfold paragraphs, closeParagraph.
  pose proof (paragraphLines_source c (split_on nl s) false) as P.
  destruct (paragraphLines false (split_on nl s)) as [out st]; cbn [fst] in P.
  assert (Q : In c out -> In c s \/ T c).
  { intros H; destruct (P H) as [(l & I & J)|]; [left|now right].
    now apply (split_on_incl s l). }
  destruct st; [|exact Q].
  intros H; apply in_app_or in H as [H|H]; [auto|].
  right; (eapply tag_in; [|exact H]; reflexivity).
Qed.

Lemma render_source (v : jsval) (c : char) :
  In c (render v) -> In c (escapeHtml v) \/ tag_char c = true.
Proof.
  rewrite render_paragraphs; intros H.
  apply paragraphs_source in H as [H|H]; [|now right].
  now apply inlinePasses_source.
Qed.

Lemma escape_char_no_quote (c d : char) :
  In d (escape_char c) -> quote_char d = false.
Proof.
  unfold escape_char, quote_char.
  destruct (N.eqb_spec c 38);
    [|destruct (N.eqb_spec c 60);
      [|destruct (N.eqb_spec c 62);
        [|destruct (N.eqb_spec c 34); [|destruct (N.eqb_spec c 39)]]]];
    norm_str; simpl; intros H;
    repeat (destruct H as [<-|H]; [try reflexivity|]); try easy.
  apply orb_false_intro; now apply N.eqb_neq.
Qed.

Lemma escapeHtml_no_quote (v : jsval) (d : char) :
  In d (escapeHtml v) -> quote_char d = false.
Proof.
  destruct v; simpl; try easy.
  rewrite escape_string_chars; intros H.
  apply in_flat_map in H as (c & _ & H).
  now apply escape_char_no_quote in H.
Qed.

Lemma tag_char_no_quote (d : char) : tag_char d = true -> quote_char d = false.
Proof.
  intros H; unfold quote_char.
  destruct (N.eqb_spec d 34) as [->|]; [now vm_compute in H|].
  destruct (N.eqb_spec d 39) as [->|]; [now vm_compute in H|easy].
Qed.

End OutputCharacters.

(** ** Paragraph tags come in pairs *)

Section Pairing.

(** No inline tag begins like a paragraph tag or a line break. *)
Lemma inline_not_paragraph (r b : jsstring) :
  start_of inline_tags r = true ->
  startsWith (r ++ b) (str "p>") = false /\
  startsWith (r ++ b) (str "/p>") = false /\
  startsWith (r ++ b) (str "br />") = false.
Proof.
  unfold start_of; intros H.
  apply existsb_exists in H as (t & It & S).
  apply startsWith_app in S; rewrite S.
  cbn [inline_tags List.map In] in It.
  repeat (destruct It as [<-|It]; [repeat split; reflexivity|]); easy.
Qed.

(** Text of the inline passes does not change the state of the scan. *)
Lemma paired_skip (a : jsstring) :
  tags_only a = true -> forall st b, paired st (a ++ b) = paired st b.
Proof.
  induction a as [|c a IH]; intros H st b; [reflexivity|].
  unfold tags_only in H; cbn [marked] in H; apply andb_prop in H as [H1 H2].
  cbn [app paired].
  change (str "<p>") with (60%N :: str "p>").
  change (str "</p>") with (60%N :: str "/p>").
  change (str "<br />") with (60%N :: str "br />").
  cbn [startsWith].
  destruct (N.eqb_spec c 60) as [->|N].
  - destruct (inline_not_paragraph a b H1) as (-> & -> & ->).
    rewrite N.eqb_refl; cbn [andb]; now apply IH.
  - destruct (N.eqb_spec 60 c) as [E|_]; [now subst|].
    cbn [andb]; now apply IH.
Qed.

Lemma paired_line (line : jsstring) :
  tags_only line = true ->
  forall st more,
    paired st (fst (paragraphLine st line) ++ more) =
    paired (snd (paragraphLine st line)) more.
Proof.
  intros H st more; apply tags_only_trim in H; unfold paragraphLine.
  destruct (trim line) as [|c l]; [now destruct st|].
  destruct (is_container_line (c :: l)), st; cbn [fst snd negb];
    rewrite <- ?app_assoc;
    first [ now apply paired_skip
          | rewrite <- (paired_skip _ H _ more); reflexivity ].
Qed.

Lemma paired_lines (ls : list jsstring) :
  Forall (fun l => tags_only l = true) ls ->
  forall st more,
    paired st (fst (paragraphLines st ls) ++ more) =
    paired (snd (paragraphLines st ls)) more.
Proof.
  induction 1 as [|l ls Hl _ IH]; intros st more; [reflexivity|].
  cbn [paragraphLines].
  pose proof (paired_line l Hl st) as H1.
  destruct (paragraphLine st l) as [out st1].
  specialize (IH st1); destruct (paragraphLines st1 ls) as [outs st2].
  cbn [fst snd] in *.
  now rewrite <- app_assoc, H1, IH.
Qed.

Lemma paragraphs_paired (s : jsstring) :
  tags_only s = true -> paired false (paragraphs s) = true.
Proof.
  intros H; unfold paragraphs, closeParagraph.
  pose proof (split_on_tags_only s [] H) as S.
  destruct (split_on nl s) as [|l ls]; [easy|].
  assert (F : Forall (fun l' => tags_only l' = true) (l :: ls))
    by (destruct S; now constructor).
  pose proof (paired_lines _ F false) as P.
  destruct (paragraphLines false (l :: ls)) as [out [|]]; cbn [fst snd] in P.
  - now rewrite P.
  - now rewrite <- (app_nil_r out), P.
Qed.

Lemma render_paired (v : jsval) : paired false (render v) = true.
Proof.
  rewrite render_paragraphs.
  apply paragraphs_paired, inlinePasses_tags_only.
Qed.

End Pairing.

(** ** escapeHtml, read backwards *)

Section Escape.

Ltac escape_cases c :=
  destruct (N.eqb_spec c 38);
  [|destruct (N.eqb_spec c 60);
    [|destruct (N.eqb_spec c 62);
      [|destruct (N.eqb_spec c 34); [|destruct (N.eqb_spec c 39)]]]].

(** What was escaped can be read off the front of the result. *)
Lemma escape_char_inj (c1 c2 : char) (r1 r2 : jsstring) :
  escape_char c1 ++ r1 = escape_char c2 ++ r2 -> c1 = c2 /\ r1 = r2.
Proof.
  unfold escape_char; escape_cases c1; escape_cases c2;
    norm_str; cbn [app]; intros E;
    first [ discriminate E
          | injection E; intros; subst; first [easy|now split|congruence] ].
Qed.

Lemma escape_char_nonempty (c : char) : escape_char c <> [].
Proof. unfold escape_char; escape_cases c; easy. Qed.

Lemma escape_inj (a : jsstring) :
  forall b, flat_map escape_char a = flat_map escape_char b -> a = b.
Proof.
  induction a as [|c a IH]; intros [|d b]; cbn [flat_map]; intros E.
  - reflexivity.
  - symmetry in E; apply app_eq_nil in E as [E _].
    now apply escape_char_nonempty in E.
  - apply app_eq_nil in E as [E _]; now apply escape_char_nonempty in E.
  - apply escape_char_inj in E as [-> E]; f_equal; now apply IH.
Qed.

Lemma references_only_app (a b : jsstring) :
  references_only a = true -> references_only b = true ->
  references_only (a ++ b) = true.
Proof.
  induction a as [|c a IH]; [easy|]; cbn [app references_only].
  intros H Hb; apply andb_prop in H as [H1 H2].
  rewrite IH by easy.
  destruct (N.eqb c 38); [|easy].
  now rewrite start_of_app.
Qed.

Lemma escape_char_references (c : char) :
  references_only (escape_char c) = true.
Proof.
  unfold escape_char; escape_cases c; try reflexivity.
  cbn [references_only].
  now destruct (N.eqb_spec c 38).
Qed.

Lemma escape_references (s : jsstring) :
  references_only (flat_map escape_char s) = true.
Proof.
  induction s as [|c s IH]; [easy|]; cbn [flat_map].
  apply references_only_app; [apply escape_char_references|easy].
Qed.

End Escape.

(** ** The language table *)

Section Languages.

Lemma str_eqb_eq (a : jsstring) : forall b, str_eqb a b = true -> a = b.
Proof.
  induction a as [|x a IH]; intros [|y b]; cbn [str_eqb]; try easy.
  intros H; apply andb_prop in H as [E H].
  apply N.eqb_eq in E; subst; f_equal; auto.
Qed.

Lemma languageName_listed (name code : jsstring) :
  In (name, code) LANGUAGES -> languageName code = name.
Proof.
  cbn [LANGUAGES In]; intros H.
  repeat (destruct H as [H|H]; [injection H as <- <-; reflexivity|]); easy.
Qed.

Lemma languageName_default (code : jsstring) :
  (forall name, ~ In (name, code) LANGUAGES) ->
  languageName code = str "English".
Proof.
  intros N; unfold languageName.
  destruct (find _ LANGUAGES) as [[k c]|] eqn:F; [|reflexivity].
  apply find_some in F as [I E]; cbn [snd] in E.
  apply str_eqb_eq in E; subst c; now apply N in I.
Qed.

End Languages.

(** ** Further properties of the module *)

Section Further.

Lemma markdownToHtml_cases (v : jsval) :
  markdownToHtml v = Ok [] \/ markdownToHtml v = Ok (render v).
Proof.
  unfold markdownToHtml.
  destruct v as [| |b| |s|]; cbn [not_string call_trim bind]; auto.
  destruct (trim s); auto.
Qed.

(** X1. On every value, [cleanYoutubeUrl] returns either the pair of nulls
    or a video id of exactly eleven characters among letters, digits,
    underscore and hyphen, together with the watch URL
    [https://www.youtube.com/watch?v=] followed by that id: the two fields
    are null together, and a URL that is returned is always in the one
    canonical form.  A value that is not a string gives the nulls, and the
    id returned for a string is a piece of that string. *)
Theorem cleanYoutubeUrl_canonical :
  forall v : jsval,
    (cleanYoutubeUrl v = not_cleaned \/
     exists id,
       length id = 11 /\ forallb idchar id = true /\
       cleanYoutubeUrl v = Cleaned (Some (watch_url id)) (Some id)) /\
    (not_string v = true -> cleanYoutubeUrl v = not_cleaned) /\
    (forall s id,
        v = VString s -> videoId (cleanYoutubeUrl v) = Some id ->
        includes s id = true).
Proof.
  intros v; split; [apply clean_canonical|split].
  - now destruct v.
  - intros s id -> H.
    destruct (clean_string s) as [E|(i & _ & _ & I & E)]; rewrite E in H;
      [easy|].
    now injection H as <-.
Qed.

Lemma cleanYoutubeUrl_canonical_witness :
  includes (str "see https://youtu.be/dQw4w9WgXcQ now") (str "dQw4w9WgXcQ")
  = true.
Proof.
  apply (proj2 (proj2 (cleanYoutubeUrl_canonical
                         (VString (str "see https://youtu.be/dQw4w9WgXcQ now"))))
           _ _ eq_refl).
  vm_compute; reflexivity.
Defined.

(** X2. A watch link, written with or without scheme and [www.], gives its
    video id and the canonical URL, whatever follows the eleven characters
    of the id (a time stamp, a play list, anything). *)
Theorem cleanYoutubeUrl_watch :
  forall pre id post : jsstring,
    In pre url_prefixes ->
    length id = 11 -> forallb idchar id = true ->
    cleanYoutubeUrl
      (VString (pre ++ str "youtube.com/watch?v=" ++ id ++ post)) =
    Cleaned (Some (watch_url id)) (Some id).
Proof. exact clean_watch. Qed.

Lemma cleanYoutubeUrl_watch_witness :
  cleanYoutubeUrl
    (VString (str "https://www.youtube.com/watch?v=dQw4w9WgXcQ&t=10s")) =
  Cleaned (Some (str "https://www.youtube.com/watch?v=dQw4w9WgXcQ"))
          (Some (str "dQw4w9WgXcQ")).
Proof.
  exact (cleanYoutubeUrl_watch (str "https://www.") (str "dQw4w9WgXcQ")
           (str "&t=10s") (or_introl eq_refl) eq_refl eq_refl).
Defined.

(** X3. Each of the six link shapes of the first six patterns (watch,
    youtu.be, embed, live, shorts, v), written with or without scheme and
    [www.], gives the id and the same canonical watch URL, when what follows
    the id holds no slash. *)
Theorem cleanYoutubeUrl_shapes :
  forall pre path id post : jsstring,
    In pre url_prefixes -> In path url_paths ->
    length id = 11 -> forallb idchar id = true -> slash_free post = true ->
    cleanYoutubeUrl (VString (pre ++ path ++ id ++ post)) =
    Cleaned (Some (watch_url id)) (Some id).
Proof. exact clean_shape. Qed.

Lemma cleanYoutubeUrl_shapes_witness :
  cleanYoutubeUrl (VString (str "https://youtu.be/dQw4w9WgXcQ?si=abc")) =
  Cleaned (Some (str "https://www.youtube.com/watch?v=dQw4w9WgXcQ"))
          (Some (str "dQw4w9WgXcQ")).
Proof.
  exact (cleanYoutubeUrl_shapes (str "https://") (str "youtu.be/")
           (str "dQw4w9WgXcQ") (str "?si=abc")
           (or_intror (or_introl eq_refl)) (or_intror (or_introl eq_refl))
           eq_refl eq_refl eq_refl).
Defined.

(** X4. Cleaning is idempotent: the URL that [cleanYoutubeUrl] returns is
    itself accepted, and cleans to the same URL and the same id. *)
Theorem cleanYoutubeUrl_idempotent :
  forall (v : jsval) (u : jsstring),
    cleanUrl (cleanYoutubeUrl v) = Some u ->
    cleanYoutubeUrl (VString u) = cleanYoutubeUrl v.
Proof.
  intros v u.
  destruct (clean_canonical v) as [E|(id & L & F & E)]; rewrite E;
    cbn [cleanUrl not_cleaned]; [easy|].
  intros [= <-].
  pose proof (clean_watch (str "https://www.") id []
                (or_introl eq_refl) L F) as W.
  rewrite app_nil_r in W; exact W.
Qed.

Lemma cleanYoutubeUrl_idempotent_witness :
  cleanYoutubeUrl (VString (str "https://www.youtube.com/watch?v=dQw4w9WgXcQ")) =
  cleanYoutubeUrl (VString (str "youtu.be/dQw4w9WgXcQ")).
Proof.
  apply (cleanYoutubeUrl_idempotent (VString (str "youtu.be/dQw4w9WgXcQ"))).
  vm_compute; reflexivity.
Defined.

(** X5. A string made of id characters only is accepted exactly when it is
    eleven characters long, and then it is the id. *)
Theorem cleanYoutubeUrl_bare_id :
  forall s : jsstring,
    forallb idchar s = true ->
    cleanYoutubeUrl (VString s) =
    if length s =? 11 then Cleaned (Some (watch_url s)) (Some s)
    else not_cleaned.
Proof. exact clean_bare. Qed.

Lemma cleanYoutubeUrl_bare_id_witness :
  cleanYoutubeUrl (VString (str "dQw4w9WgXcQ")) =
  Cleaned (Some (str "https://www.youtube.com/watch?v=dQw4w9WgXcQ"))
          (Some (str "dQw4w9WgXcQ")).
Proof. exact (cleanYoutubeUrl_bare_id (str "dQw4w9WgXcQ") eq_refl). Defined.

(** X6. Whatever the title, the sanitized title is not empty, is at most
    100 code units long, and holds only letters, digits, underscore, hyphen
    and full stop: no white space, no slash, nothing else. *)
Theorem sanitized_title_is_safe :
  forall title : jsstring,
    sanitizeVideoTitleForFilename title <> [] /\
    length (sanitizeVideoTitleForFilename title) <= 100 /\
    forallb filename_char (sanitizeVideoTitleForFilename title) = true.
Proof.
  intros title; split; [apply sanitize_nonempty|split; [|apply sanitize_chars]].
  destruct title as [|c t]; [cbn; lia|].
  cbn [sanitizeVideoTitleForFilename]; apply firstn_le_length.
Qed.

(** X7. The sanitized title never holds two underscores side by side. *)
Theorem sanitized_title_no_double_underscore :
  forall title : jsstring,
    no_double 95%N (sanitizeVideoTitleForFilename title) = true.
Proof. exact sanitize_no_double. Qed.

(** X8. Sanitizing is idempotent. *)
Theorem sanitize_idempotent :
  forall title : jsstring,
    sanitizeVideoTitleForFilename (sanitizeVideoTitleForFilename title) =
    sanitizeVideoTitleForFilename title.
Proof.
  intros title; apply sanitize_fixed.
  - apply sanitize_nonempty.
  - apply sanitize_chars.
  - apply sanitize_no_double.
  - destruct title as [|c t]; [cbn; lia|].
    cbn [sanitizeVideoTitleForFilename]; apply firstn_le_length.
Qed.

(** X9. A title that is not empty, is at most 100 code units long, is made
    of letters, digits, underscore, hyphen and full stop, and has no two
    underscores side by side is returned as it is. *)
Theorem sanitize_keeps_clean_title :
  forall r : jsstring,
    r <> [] -> forallb filename_char r = true -> no_double 95%N r = true ->
    length r <= 100 ->
    sanitizeVideoTitleForFilename r = r.
Proof. exact sanitize_fixed. Qed.

Lemma sanitize_keeps_clean_title_witness :
  sanitizeVideoTitleForFilename (str "My_talk-2.mp4") = str "My_talk-2.mp4".
Proof.
  apply sanitize_keeps_clean_title;
    [discriminate|reflexivity|reflexivity|cbn; lia].
Defined.

(** X10. In what [escapeHtml] returns every ampersand starts one of the
    five references the function writes, and there is no double quote and
    no apostrophe. *)
Theorem escapeHtml_references :
  forall v : jsval,
    references_only (escapeHtml v) = true /\
    existsb quote_char (escapeHtml v) = false.
Proof.
  intros v; split.
  - destruct v; try reflexivity.
    cbn [escapeHtml]; rewrite escape_string_chars; apply escape_references.
  - destruct (existsb quote_char (escapeHtml v)) eqn:E; [|easy].
    apply existsb_exists in E as (c & I & Q).
    apply escapeHtml_no_quote in I; congruence.
Qed.

(** X11. [escapeHtml] loses nothing: two strings with the same escaped form
    are the same string. *)
Theorem escapeHtml_injective :
  forall a b : jsstring,
    escapeHtml (VString a) = escapeHtml (VString b) -> a = b.
Proof.
  intros a b; cbn [escapeHtml]; rewrite !escape_string_chars.
  apply escape_inj.
Qed.

Lemma escapeHtml_injective_witness : str "a<b" = str "a<b".
Proof. exact (escapeHtml_injective (str "a<b") (str "a<b") eq_refl). Defined.

(** X12. Every code unit of what [markdownToHtml] returns is a code unit of
    the escaped input or one of the characters of the renderer's own tags;
    so the output holds no double quote and no apostrophe, whatever the
    input. *)
Theorem markdownToHtml_characters :
  forall v : jsval,
    exists out,
      markdownToHtml v = Ok out /\
      (forall c, In c out -> In c (escapeHtml v) \/ tag_char c = true) /\
      existsb quote_char out = false.
Proof.
  intros v.
  assert (S : forall c, In c (render v) ->
                        In c (escapeHtml v) \/ tag_char c = true)
    by apply render_source.
  assert (Q : existsb quote_char (render v) = false).
  { destruct (existsb quote_char (render v)) eqn:E; [|easy].
    apply existsb_exists in E as (c & I & Qc).
    apply S in I as [I|I];
      [apply escapeHtml_no_quote in I|apply tag_char_no_quote in I];
      congruence. }
  destruct (markdownToHtml_cases v) as [E|E]; rewrite E.
  - exists []; repeat split; easy.
  - exists (render v); repeat split; easy.
Qed.

(** X13. In what [markdownToHtml] returns the paragraph tags come in pairs:
    reading from the left, an opening tag stands only where no paragraph is
    open, a closing tag and a line break only inside an open paragraph, and
    no paragraph is left open at the end. *)
Theorem markdownToHtml_paragraphs_paired :
  forall v : jsval,
    exists out, markdownToHtml v = Ok out /\ paired false out = true.
Proof.
  intros v; destruct (markdownToHtml_cases v) as [E|E]; rewrite E.
  - now exists [].
  - exists (render v); split; [easy|apply render_paired].
Qed.

(** X14. The two replacements of lines 160-161, which remove empty
    paragraphs, never find one: block assembly opens a paragraph only in
    front of the text of a line, so the result of line 158 is already the
    result of the function. *)
Theorem empty_paragraph_removal_is_idle :
  forall v : jsval,
    removeEmptyParagraphs (paragraphs (inlinePasses v)) =
    paragraphs (inlinePasses v).
Proof.
  intros v; apply removeEmptyParagraphs_id, paragraphs_marked,
    inlinePasses_tags_only.
Qed.

(** X15. Text without any of the characters [& < > ' ` * _ - :], the double
    quote and the digits goes through the escape and the seven inline passes
    of lines 77-127 unchanged. *)
Theorem inline_passes_keep_plain_text :
  forall s : jsstring, plain s = true -> inlinePasses (VString s) = s.
Proof. exact inlinePasses_plain. Qed.

Lemma inline_passes_keep_plain_text_witness :
  inlinePasses (VString (str "Hello world, how are you?")) =
  str "Hello world, how are you?".
Proof.
  exact (inline_passes_keep_plain_text (str "Hello world, how are you?")
           eq_refl).
Defined.

(** X16. The reverse lookup of App.tsx in the language table gives back the
    name of every language of the table from its code, and [English] for a
    code the table does not hold. *)
Theorem languageName_round_trip :
  (forall name code : jsstring,
      In (name, code) LANGUAGES -> languageName code = name) /\
  (forall code : jsstring,
      (forall name, ~ In (name, code) LANGUAGES) ->
      languageName code = str "English").
Proof. split; [exact languageName_listed|exact languageName_default]. Qed.

Lemma languageName_round_trip_witness :
  languageName (str "zh-CN") = str "Chinese (Simplified)".
Proof.
  apply (proj1 languageName_round_trip).
  cbn [LANGUAGES In]; do 6 right; left; reflexivity.
Defined.

End Further.

(** ** One piece of markup in plain text *)

Section Features.

Lemma replace_go_idle (re : regex) (f : list (nat * jsstring) -> jsstring) :
  forall s p,
    (forall a b q, s = a ++ b -> match_at re q b = None) ->
    replace_go re f p s 0 = s.
Proof.
  induction s as [|c t IH]; intros p H; cbn [replace_go].
  - now rewrite (H [] [] p eq_refl).
  - rewrite (H [] (c :: t) p eq_refl), IH; [easy|].
    intros a b q ->; now apply (H (c :: a) b q).
Qed.

(** A text with exactly one match: what stands before it and behind it is
    copied, the match is replaced. *)
Lemma replace_single (re : regex) (f : list (nat * jsstring) -> jsstring)
    (w b : jsstring) (y : mstate) :
  forall a p,
    (forall a1 a2 q, a = a1 ++ a2 -> a2 <> [] ->
                     match_at re q (a2 ++ w ++ b) = None) ->
    w <> [] -> match_at re (last_char a p) (w ++ b) = Some y -> rest y = b ->
    (forall b1 b2 q, b = b1 ++ b2 -> match_at re q b2 = None) ->
    replace_go re f p (a ++ w ++ b) 0 = a ++ f (caps y) ++ b.
Proof.
  induction a as [|d a IH]; intros p Ha Hw M R Hb.
  - destruct w as [|c w']; [easy|]; cbn [app last_char] in *.
    rewrite (replace_go_match re f p c w' b y M R).
    now rewrite replace_go_idle.
  - pose proof (Ha [] (d :: a) p eq_refl ltac:(easy)) as N.
    cbn [app] in N |- *; cbn [replace_go]; rewrite N; f_equal.
    apply IH; try easy.
    intros a1 a2 q -> N2; now apply (Ha (d :: a1) a2 q).
Qed.

(** A pattern whose matches all hold a character of [K] finds nothing in a
    text without such characters. *)
Lemma replace_lacking (K : char -> bool) (re : regex)
    (f : list (nat * jsstring) -> jsstring) :
  (forall p s y, match_at re p s = Some y -> existsb K s = true) ->
  forall s, existsb K s = false -> replace re f s = s.
Proof.
  intros N s H; apply replace_no_match; intros a b q ->.
  rewrite existsb_app in H; apply orb_false_elim in H as [_ H].
  destruct (match_at re q b) as [y|] eqn:M; [|easy].
  apply N in M; congruence.
Qed.

(** A pattern whose matches all begin with [word] finds nothing in a text
    that does not hold the word. *)
Lemma replace_without (word : jsstring) (re : regex)
    (f : list (nat * jsstring) -> jsstring) :
  (forall p s y, match_at re p s = Some y -> startsWith s word = true) ->
  forall s, includes s word = false -> replace re f s = s.
Proof.
  intros N s H; apply replace_no_match; intros a b q ->.
  destruct (match_at re q b) as [y|] eqn:M; [|easy].
  apply N in M.
  assert (I : includes b word = true)
    by (destruct b; cbn [includes]; now rewrite M).
  apply (includes_suffix a) in I; congruence.
Qed.

(** The lazy iteration of a class stops at the first place where the rest
    of the pattern succeeds. *)
Lemma bt_lazy_cls (p : char -> bool) (t : jsstring)
    (cs : list (nat * jsstring)) (k : mstate -> option mstate) (z : mstate) :
  forall w n q,
    length (w ++ t) < n -> forallb p w = true ->
    (forall w1 w2, w = w1 ++ w2 -> w2 <> [] ->
                   k (MState (last_char w1 q) (w2 ++ t) cs) = None) ->
    k (MState (last_char w q) t cs) = Some z ->
    bt_star (bt (Cls p)) false n (MState q (w ++ t) cs) k = Some z.
Proof.
  induction w as [|c w IH]; intros n q L F N K;
    (destruct n; [simpl in L; lia|]); cbn [bt_star].
  - cbn [app last_char] in *; now rewrite K.
  - pose proof (N [] (c :: w) eq_refl ltac:(easy)) as N0.
    cbn [app last_char] in N0 |- *; rewrite N0.
    cbn [forallb] in F; apply andb_prop in F as [Pc F].
    cbn [bt rest caps]; rewrite Pc; cbn [rest].
    assert (Lt : (length (w ++ t) <? length (c :: w ++ t)) = true)
      by (apply Nat.ltb_lt; simpl; lia).
    rewrite Lt; apply IH; [simpl in L; lia|easy| |easy].
    intros w1 w2 -> N2; now apply (N (c :: w1) w2).
Qed.

Lemma bt_group (n : nat) (a : regex) (x : mstate)
    (k : mstate -> option mstate) :
  bt (Group n a) x k =
  bt a x (fun y => k (MState (prev y) (rest y) ((n, consumed x y) :: caps y))).
Proof. reflexivity. Qed.

Lemma bt_seq (a b : regex) (x : mstate) (k : mstate -> option mstate) :
  bt (Seq a b) x k = bt a x (fun y => bt b y k).
Proof. reflexivity. Qed.

Lemma bt_star_eq (g : bool) (a : regex) (x : mstate)
    (k : mstate -> option mstate) :
  bt (Star g a) x k = bt_star (bt a) g (S (length (rest x))) x k.
Proof. reflexivity. Qed.

Lemma bt_lit_fail (l : jsstring) (x : mstate) (k : mstate -> option mstate) :
  startsWith (rest x) l = false -> bt (Lit l) x k = None.
Proof. intros H; cbn [bt]; now rewrite H. Qed.

(** A group around a lazy class iteration, closed by the literal [d]: the
    group takes the text up to the first place where [d] stands. *)
Lemma bt_lazy_group (p : char -> bool) (d w b : jsstring) (n : nat)
    (q : option char) :
  forallb p w = true ->
  (forall w1 w2, w = w1 ++ w2 -> w2 <> [] ->
                 startsWith (w2 ++ d ++ b) d = false) ->
  bt (Seq (Group n (Star false (Cls p))) (Lit d))
     (MState q (w ++ d ++ b) []) Some =
  Some (MState (last_char d (last_char w q)) b [(n, w)]).
Proof.
  intros F N; rewrite bt_seq, bt_group, bt_star_eq.
  apply bt_lazy_cls; [cbn [rest]; lia|easy| |].
  - intros w1 w2 E N2; apply bt_lit_fail; cbn [rest]; now apply (N w1).
  - cbn [prev rest caps].
    rewrite (bt_lit d); do 3 f_equal.
    now rewrite (consumed_app (MState q (w ++ d ++ b) [])
                   (MState (last_char w q) (d ++ b) []) w).
Qed.

(** The patterns of fenced code and of strong emphasis have one shape: a
    delimiter, a group with a lazy class iteration, the delimiter again. *)
Lemma delimited_match (p : char -> bool) (d w b : jsstring) (q : option char) :
  forallb p w = true ->
  (forall w1 w2, w = w1 ++ w2 -> w2 <> [] ->
                 startsWith (w2 ++ d ++ b) d = false) ->
  match_at (Seq (Lit d) (Seq (Group 1 (Star false (Cls p))) (Lit d))) q
           (d ++ w ++ d ++ b) =
  Some (MState (last_char d (last_char w (last_char d q))) b [(1, w)]).
Proof.
  intros F N; rewrite match_at_bt, bt_seq, bt_lit.
  now apply bt_lazy_group.
Qed.

Lemma delimited_first (p : char -> bool) (d : jsstring) (q : option char)
    (s : jsstring) (y : mstate) :
  match_at (Seq (Lit d) (Seq (Group 1 (Star false (Cls p))) (Lit d))) q s =
  Some y ->
  startsWith s d = true.
Proof. intros M; apply hd_in in M; inv_m; apply startsWith_refl. Qed.

Lemma lacking_head (c e : char) (s t : jsstring) :
  existsb (N.eqb c) s = false -> In e s -> (c =? e)%N = false.
Proof.
  intros H I; destruct (N.eqb_spec c e) as [->|]; [|easy].
  assert (X : existsb (N.eqb e) s = true)
    by (apply existsb_exists; exists e; split; [easy|apply N.eqb_refl]).
  congruence.
Qed.

(** One delimited piece in a text that does not hold the first character
    of the delimiter anywhere else. *)
Lemma delimited_single (p : char -> bool) (c : char) (d' : jsstring)
    (f : list (nat * jsstring) -> jsstring) (a w b : jsstring) :
  existsb (N.eqb c) a = false -> existsb (N.eqb c) w = false ->
  existsb (N.eqb c) b = false -> forallb p w = true ->
  replace (Seq (Lit (c :: d')) (Seq (Group 1 (Star false (Cls p))) (Lit (c :: d'))))
          f (a ++ (c :: d') ++ w ++ (c :: d') ++ b) =
  a ++ f [(1, w)] ++ b.
Proof.
  intros Ka Kw Kb F; set (d := c :: d').
  set (re := Seq (Lit d) (Seq (Group 1 (Star false (Cls p))) (Lit d))).
  assert (E : d ++ w ++ d ++ b = (d ++ w ++ d) ++ b)
    by (now rewrite <- !app_assoc).
  assert (M : forall q,
             match_at re q ((d ++ w ++ d) ++ b) =
             Some (MState (last_char d (last_char w (last_char d q))) b
                          [(1, w)])).
  { intros q; rewrite <- E; apply delimited_match; [easy|].
    intros w1 [|e w2] -> N; [easy|].
    cbn [app startsWith d].
    rewrite (lacking_head c e _ [] Kw); [easy|].
    apply in_or_app; right; now left. }
  rewrite E; unfold replace.
  apply (replace_single re f (d ++ w ++ d) b
           (MState (last_char d (last_char w (last_char d (last_char a None))))
                   b [(1, w)]) a None);
    [|discriminate|apply M|reflexivity|].
  - intros a1 [|e a2] q -> N; [easy|].
    destruct (match_at re q _) as [y|] eqn:My; [exfalso|easy].
    apply delimited_first in My; cbn [app startsWith d] in My.
    rewrite (lacking_head c e _ [] Ka) in My; [easy|].
    apply in_or_app; right; now left.
  - intros b1 [|e b2] q -> .
    + destruct (match_at re q []) as [y|] eqn:My; [exfalso|easy].
      now apply delimited_first in My.
    + destruct (match_at re q (e :: b2)) as [y|] eqn:My; [exfalso|easy].
      apply delimited_first in My; cbn [startsWith d] in My.
      rewrite (lacking_head c e _ [] Kb) in My; [easy|].
      apply in_or_app; right; now left.
Qed.

(** One match that begins with the character [c], in a text that holds
    [c] nowhere else. *)
Lemma single_piece (re : regex) (f : list (nat * jsstring) -> jsstring)
    (c : char) (a W b : jsstring) (cs : list (nat * jsstring)) :
  (forall q s y, match_at re q s = Some y -> hd_error s = Some c) ->
  existsb (N.eqb c) a = false -> existsb (N.eqb c) b = false -> W <> [] ->
  (forall q, exists p', match_at re q (W ++ b) = Some (MState p' b cs)) ->
  replace re f (a ++ W ++ b) = a ++ f cs ++ b.
Proof.
  intros First Ka Kb NW M; unfold replace.
  destruct (M (last_char a None)) as (p' & My).
  apply (replace_single re f W b (MState p' b cs) a None);
    [|easy|exact My|reflexivity|].
  - intros a1 [|e a2] q -> N; [easy|].
    destruct (match_at re q _) as [y|] eqn:E; [exfalso|easy].
    apply First in E; cbn [app hd_error] in E; injection E as ->.
    rewrite existsb_app in Ka; apply orb_false_elim in Ka as [_ Ka].
    cbn [existsb] in Ka; now rewrite N.eqb_refl in Ka.
  - intros b1 [|e b2] q ->.
    + destruct (match_at re q []) as [y|] eqn:E; [exfalso|easy].
      now apply First in E.
    + destruct (match_at re q (e :: b2)) as [y|] eqn:E; [exfalso|easy].
      apply First in E; cbn [hd_error] in E; injection E as ->.
      rewrite existsb_app in Kb; apply orb_false_elim in Kb as [_ Kb].
      cbn [existsb] in Kb; now rewrite N.eqb_refl in Kb.
Qed.

Lemma bt_cls (p : char -> bool) (c : char) (t : jsstring) (q : option char)
    (cs : list (nat * jsstring)) (k : mstate -> option mstate) :
  p c = true ->
  bt (Cls p) (MState q (c :: t) cs) k = k (MState (Some c) t cs).
Proof. intros H; cbn [bt rest caps]; now rewrite H. Qed.

(** Inline code: the group takes the text up to the next backtick. *)
Lemma code_match (c0 : char) (w' b : jsstring) (q : option char) :
  existsb (N.eqb 96) (c0 :: w') = false ->
  match_at re_code q (str "`" ++ (c0 :: w') ++ str "`" ++ b) =
  Some (MState (Some 96%N) b [(1, c0 :: w')]).
Proof.
  intros K; cbn [existsb] in K; apply orb_false_elim in K as [K0 K].
  assert (NB : forall e, (96 =? e)%N = false -> none_of (str "`") e = true).
  { intros e H; unfold none_of, one_of; cbn [existsb str List.map
      list_ascii_of_string].
    change (N_of_ascii "`") with 96%N.
    now rewrite N.eqb_sym, H. }
  assert (F : forallb (none_of (str "`")) w' = true).
  { apply forallb_forall; intros e I; apply NB.
    now apply (lacking_head 96%N e w' []). }
  rewrite match_at_bt; unfold re_code, Plus.
  rewrite bt_seq, bt_lit, bt_seq, bt_group, bt_seq.
  cbn [app]; rewrite bt_cls by (now apply NB).
  rewrite bt_star_eq.
  apply bt_lazy_cls; [cbn [rest]; lia|easy| |].
  - intros w1 [|e w2] E N2; [easy|].
    apply bt_lit_fail; cbn [rest app startsWith str List.map
                            list_ascii_of_string].
    change (N_of_ascii "`") with 96%N.
    rewrite (lacking_head 96%N e w' [] K); [easy|].
    rewrite E; apply in_or_app; right; now left.
  - cbn [prev rest caps].
    rewrite (bt_lit (str "`")); do 3 f_equal.
    now rewrite (consumed_app
                   (MState (last_char (str "`") q)
                           (c0 :: w' ++ str "`" ++ b) [])
                   (MState (last_char w' (Some c0)) (str "`" ++ b) [])
                   (c0 :: w')).
Qed.

Lemma code_first (q : option char) (s : jsstring) (y : mstate) :
  match_at re_code q s = Some y -> hd_error s = Some 96%N.
Proof. intros M; apply hd_in in M; unfold re_code in M; inv_m; reflexivity. Qed.

Lemma bt_alt (a b : regex) (x : mstate) (k : mstate -> option mstate) :
  bt (Alt a b) x k =
  match bt a x k with Some z => Some z | None => bt b x k end.
Proof. reflexivity. Qed.

Lemma bt_neglook (a : regex) (x : mstate) (k : mstate -> option mstate) :
  bt (NegLook a) x k =
  match bt a x Some with Some _ => None | None => k x end.
Proof. reflexivity. Qed.

Lemma bt_bol (ml : bool) (x : mstate) (k : mstate -> option mstate) :
  bt (Bol ml) x k = if at_bol ml x then k x else None.
Proof. reflexivity. Qed.

Lemma bt_cls_fail (p : char -> bool) (c : char) (t : jsstring)
    (q : option char) (cs : list (nat * jsstring))
    (k : mstate -> option mstate) :
  p c = false -> bt (Cls p) (MState q (c :: t) cs) k = None.
Proof. intros H; cbn [bt rest caps]; now rewrite H. Qed.

Lemma bt_lit1_fail (c e : char) (t : jsstring) (q : option char)
    (cs : list (nat * jsstring)) (k : mstate -> option mstate) :
  (c =? e)%N = false -> bt (Lit [c]) (MState q (e :: t) cs) k = None.
Proof. intros H; apply bt_lit_fail; cbn [rest startsWith]; now rewrite H. Qed.

Lemma bt_lit1 (c : char) (t : jsstring) (q : option char)
    (cs : list (nat * jsstring)) (k : mstate -> option mstate) :
  bt (Lit [c]) (MState q (c :: t) cs) k = k (MState (Some c) t cs).
Proof. apply (bt_lit [c]). Qed.

(** Emphasis between white space: the three groups are the white space in
    front, the text, and the white space behind. *)
Lemma em_match (c s1 s2 w0 : char) (w' b : jsstring) (q : option char) :
  is_space s1 = true -> is_space s2 = true ->
  is_space c = false -> is_space w0 = false ->
  existsb (N.eqb c) (w0 :: w') = false -> forallb dot (w0 :: w') = true ->
  match_at (re_em [c]) q (s1 :: c :: (w0 :: w') ++ c :: s2 :: b) =
  Some (MState (Some s2) b [(3, [s2]); (2, w0 :: w'); (1, [s1])]).
Proof.
  intros S1 S2 Sc S0 K D.
  assert (C1 : (c =? s1)%N = false).
  { destruct (N.eqb_spec c s1) as [->|]; [congruence|easy]. }
  rewrite match_at_bt; unfold re_em.
  rewrite bt_seq, bt_group, bt_alt, bt_bol.
  match goal with
  | |- context [if at_bol ?ml ?x then ?t else None] =>
      assert (B : (if at_bol ml x then t else None) = None);
      [destruct (at_bol ml x); [|easy]|rewrite B; clear B]
  end.
  { cbn [prev rest caps]; rewrite bt_seq; now apply bt_lit1_fail. }
  rewrite bt_cls by easy; cbn [prev rest caps].
  rewrite (consumed_app _ _ [s1]) by reflexivity.
  rewrite bt_seq, bt_lit1, bt_seq, bt_neglook.
  cbn [app]; rewrite (bt_cls_fail is_space w0) by easy.
  rewrite bt_seq, bt_group, bt_star_eq.
  change (w0 :: w' ++ c :: s2 :: b) with ((w0 :: w') ++ c :: s2 :: b).
  apply bt_lazy_cls; [cbn [rest]; lia|easy| |].
  - intros w1 [|e w2] E N2; [easy|].
    cbn [prev rest caps app]; rewrite bt_seq, bt_neglook.
    destruct (is_space e) eqn:Se.
    + now rewrite bt_cls.
    + rewrite bt_cls_fail by easy; rewrite bt_seq.
      apply bt_lit1_fail, (lacking_head c e (w0 :: w') []); [easy|].
      rewrite E; apply in_or_app; right; now left.
  - cbn [prev rest caps].
    rewrite (consumed_app _ _ (w0 :: w')) by reflexivity.
    rewrite bt_seq, bt_neglook, (bt_cls_fail is_space c) by easy.
    rewrite bt_seq, bt_lit1, bt_group, bt_alt, bt_cls by easy.
    cbn [prev rest caps].
    now rewrite (consumed_app _ _ [s2]) by reflexivity.
Qed.

(** *** What each pass needs to find a match *)

Lemma fence_trigger (p : option char) (s : jsstring) (y : mstate) :
  match_at re_fence p s = Some y -> existsb (N.eqb 96) s = true.
Proof.
  intros M; apply hd_in in M; unfold re_fence in M; inv_m.
  has_markup 96%N.
Qed.

Lemma code_trigger (p : option char) (s : jsstring) (y : mstate) :
  match_at re_code p s = Some y -> existsb (N.eqb 96) s = true.
Proof.
  intros M; apply hd_in in M; unfold re_code in M; inv_m.
  has_markup 96%N.
Qed.

Lemma speaker_trigger (p : option char) (s : jsstring) (y : mstate) :
  match_at re_speaker p s = Some y -> existsb (N.eqb 58) s = true.
Proof.
  intros M; apply hd_in in M; unfold re_speaker in M; inv_m;
    has_markup 58%N.
Qed.

Lemma strong_trigger (c c' : char) (p : option char) (s : jsstring)
    (y : mstate) :
  match_at (re_strong [c; c']) p s = Some y -> existsb (N.eqb c) s = true.
Proof.
  intros M; apply hd_in in M; unfold re_strong in M; inv_m.
  apply existsb_exists; exists c; split; [cbn [app]; find_in|apply N.eqb_refl].
Qed.

Lemma em_trigger (c : char) (p : option char) (s : jsstring) (y : mstate) :
  match_at (re_em [c]) p s = Some y -> existsb (N.eqb c) s = true.
Proof.
  intros M; apply hd_in in M; unfold re_em in M; inv_m;
    (apply existsb_exists; exists c; split;
     [cbn [app]; find_in|apply N.eqb_refl]).
Qed.

Lemma ul_trigger (p : option char) (s : jsstring) (y : mstate) :
  match_at re_ul p s = Some y -> existsb (one_of (str "-*")) s = true.
Proof.
  intros M; apply hd_in in M; unfold re_ul in M; inv_m.
  match goal with
  | H : one_of (str "-*") ?x = true |- _ =>
      apply existsb_exists; exists x; split; [find_in|exact H]
  end.
Qed.

Lemma ol_trigger (p : option char) (s : jsstring) (y : mstate) :
  match_at re_ol p s = Some y -> existsb digit s = true.
Proof.
  intros M; apply hd_in in M; unfold re_ol in M; inv_m.
  match goal with
  | H : digit ?x = true |- _ =>
      apply existsb_exists; exists x; split; [find_in|exact H]
  end.
Qed.

Lemma merge_first (close open : jsstring) (p : option char) (s : jsstring)
    (y : mstate) :
  match_at (re_merge close open) p s = Some y -> startsWith s close = true.
Proof.
  intros M; apply hd_in in M; unfold re_merge in M; inv_m;
    apply startsWith_refl.
Qed.

(** *** Each pass on a buffer that holds nothing for it *)

Lemma escape_keep (s : jsstring) :
  existsb (one_of [38; 60; 62; 34; 39]%N) s = false -> escape_string s = s.
Proof.
  rewrite escape_string_chars.
  induction s as [|c t IH]; [easy|]; cbn [existsb flat_map].
  intros H; apply orb_false_elim in H as [Hc H]; rewrite (IH H).
  unfold one_of in Hc; cbn [existsb] in Hc.
  unfold escape_char.
  destruct (N.eqb c 38), (N.eqb c 60), (N.eqb c 62), (N.eqb c 34),
    (N.eqb c 39); easy.
Qed.

Lemma codeBlocks_idle (s : jsstring) :
  existsb (N.eqb 96) s = false -> codeBlocks s = s.
Proof. apply replace_lacking, fence_trigger. Qed.

Lemma inlineCode_idle (s : jsstring) :
  existsb (N.eqb 96) s = false -> inlineCode s = s.
Proof. apply replace_lacking, code_trigger. Qed.

Lemma speakerLabels_idle (s : jsstring) :
  existsb (N.eqb 58) s = false -> speakerLabels s = s.
Proof. apply replace_lacking, speaker_trigger. Qed.

Lemma strong_idle (c : char) (s : jsstring) :
  existsb (N.eqb c) s = false -> replace (re_strong [c; c]) strong_template s = s.
Proof. apply replace_lacking, strong_trigger. Qed.

Lemma italic_idle (s : jsstring) :
  existsb (N.eqb 42) s = false -> existsb (N.eqb 95) s = false -> italic s = s.
Proof.
  intros A B; unfold italic.
  change (str "*") with [42%N]; change (str "_") with [95%N].
  rewrite (replace_lacking _ _ _ (em_trigger 42%N) s A).
  apply (replace_lacking _ _ _ (em_trigger 95%N) s B).
Qed.

Lemma unorderedLists_idle (s : jsstring) :
  existsb (one_of (str "-*")) s = false -> includes s (str "</ul>") = false ->
  unorderedLists s = s.
Proof.
  intros A B; unfold unorderedLists; cbv zeta.
  rewrite (replace_lacking _ _ _ ul_trigger s A).
  apply (replace_without (str "</ul>")); [apply merge_first|easy].
Qed.

Lemma orderedLists_idle (s : jsstring) :
  existsb digit s = false -> includes s (str "</ol>") = false ->
  orderedLists s = s.
Proof.
  intros A B; unfold orderedLists; cbv zeta.
  rewrite (replace_lacking _ _ _ ol_trigger s A).
  apply (replace_without (str "</ol>")); [apply merge_first|easy].
Qed.

(** *** Plain text holds nothing for any pass *)

Lemma plain_lacks (K : char -> bool) (s : jsstring) :
  (forall c, K c = true -> markup_char c = true) ->
  plain s = true -> existsb K s = false.
Proof.
  intros HK P; destruct (existsb K s) eqn:E; [|easy].
  apply existsb_exists in E as (c & I & Kc).
  unfold plain in P; rewrite forallb_forall in P; apply P in I.
  now rewrite (HK c Kc) in I.
Qed.

Lemma key_markup (k : char) :
  markup_char k = true -> forall c, (k =? c)%N = true -> markup_char c = true.
Proof. intros H c E; apply N.eqb_eq in E; now subst. Qed.

Lemma marks_markup (c : char) :
  one_of (str "-*") c = true -> markup_char c = true.
Proof.
  unfold one_of; cbn [existsb str List.map list_ascii_of_string]; intros H.
  apply orb_prop in H as [H|H]; [apply N.eqb_eq in H; now subst|].
  apply orb_prop in H as [H|H]; [apply N.eqb_eq in H; now subst|easy].
Qed.

Lemma digit_markup (c : char) : digit c = true -> markup_char c = true.
Proof. intros H; unfold markup_char; rewrite H; apply orb_true_r. Qed.

Lemma special_markup (c : char) :
  one_of [38; 60; 62; 34; 39]%N c = true -> markup_char c = true.
Proof.
  unfold one_of; cbn [existsb]; intros H.
  repeat (apply orb_prop in H as [H|H]; [apply N.eqb_eq in H; now subst|]).
  easy.
Qed.

Lemma plain_trim (s : jsstring) : plain s = true -> plain (trim s) = true.
Proof.
  unfold plain; rewrite !forallb_forall; intros H c I.
  now apply H, trim_incl.
Qed.

(** A word does not begin in text that does not hold its first character. *)
Lemma includes_skip_char (k : char) (x y w : jsstring) :
  existsb (N.eqb k) x = false ->
  includes (x ++ y) (k :: w) = includes y (k :: w).
Proof.
  induction x as [|c x IH]; [easy|]; cbn [existsb app]; intros H.
  apply orb_false_elim in H as [Hc H].
  cbn [includes startsWith]; rewrite Hc; cbn [andb orb]; now apply IH.
Qed.

Lemma includes_skip (x y w : jsstring) :
  existsb (N.eqb 60) x = false ->
  includes (x ++ y) (60%N :: w) = includes y (60%N :: w).
Proof. apply includes_skip_char. Qed.

Lemma space_plain (c : char) : is_space c = true -> plain [c] = true.
Proof.
  intros H; unfold plain; cbn [forallb]; rewrite andb_true_r.
  destruct (markup_char c) eqn:E; [exfalso|easy].
  unfold markup_char, one_of, digit, is_space in *.
  cbn [existsb str List.map list_ascii_of_string app] in E.
  rewrite ?orb_true_iff, ?andb_true_iff, ?N.eqb_eq, ?N.leb_le in *.
  cbn in E; lia.
Qed.

Lemma em_shape (c : char) (q : option char) (s : jsstring) (y : mstate) :
  match_at (re_em [c]) q s = Some y ->
  hd_error s = Some c \/ exists sp t, s = sp :: c :: t.
Proof.
  intros M; apply hd_in in M; unfold re_em in M; inv_m;
    first [ now left | right; eexists _, _; reflexivity ].
Qed.

Lemma space_not (k c : char) :
  is_space k = false -> is_space c = true -> (k =? c)%N = false.
Proof. intros A B; destruct (N.eqb_spec k c) as [->|]; [congruence|easy]. Qed.

Lemma includes_cons_other (k c : char) (t w : jsstring) :
  (k =? c)%N = false -> includes (c :: t) (k :: w) = includes t (k :: w).
Proof. intros H; cbn [includes startsWith]; now rewrite H. Qed.

Lemma includes_cons_same (k : char) (t w : jsstring) :
  includes (k :: t) (k :: w) = startsWith t w || includes t (k :: w).
Proof. cbn [includes startsWith]; now rewrite N.eqb_refl. Qed.

Lemma includes_none (x w : jsstring) :
  existsb (N.eqb 60) x = false -> includes x (60%N :: w) = false.
Proof.
  intros H; rewrite <- (app_nil_r x), includes_skip by easy; reflexivity.
Qed.

End Features.

Ltac key_in_markup :=
  first [ exact (key_markup 96%N eq_refl)
        | exact (key_markup 58%N eq_refl)
        | exact (key_markup 42%N eq_refl)
        | exact (key_markup 95%N eq_refl)
        | exact (key_markup 60%N eq_refl)
        | exact marks_markup
        | exact digit_markup
        | exact special_markup ].

(** The buffer, a concatenation of plain pieces and literal pieces, holds
    no character of the class. *)
Ltac lacks :=
  first [ reflexivity
        | apply plain_lacks;
          [key_in_markup|first [assumption|now apply plain_trim]]
        | rewrite existsb_app; apply orb_false_intro; lacks ].

(** The buffer does not hold the closing tag of a list. *)
Ltac no_word :=
  norm_str; cbn [app];
  repeat first
    [ rewrite includes_skip by lacks
    | apply includes_none; lacks
    | rewrite includes_cons_other
        by first [ reflexivity
                 | apply (space_not 60%N); [reflexivity|assumption] ]
    | rewrite includes_cons_same;
      cbn [startsWith N.eqb Pos.eqb andb orb] ].

Section FeatureResults.

Lemma strong_single (c : char) (a w b : jsstring) :
  existsb (N.eqb c) a = false -> existsb (N.eqb c) w = false ->
  existsb (N.eqb c) b = false -> forallb dot w = true ->
  replace (re_strong [c; c]) strong_template (a ++ [c; c] ++ w ++ [c; c] ++ b) =
  a ++ str "<strong>" ++ w ++ str "</strong>" ++ b.
Proof.
  intros Ka Kw Kb D; unfold re_strong.
  rewrite (delimited_single dot c [c] strong_template a w b Ka Kw Kb D).
  unfold strong_template; cbn [template flat_map capture Nat.eqb].
  now rewrite app_nil_r, <- !app_assoc.
Qed.

Lemma strong_stars (a w b : jsstring) :
  plain a = true -> plain w = true -> plain b = true ->
  forallb dot w = true ->
  inlinePasses (VString (a ++ str "**" ++ w ++ str "**" ++ b)) =
  a ++ str "<strong>" ++ w ++ str "</strong>" ++ b.
Proof.
  intros Pa Pw Pb D; unfold inlinePasses, escapeHtml; cbv zeta.
  rewrite escape_keep by lacks.
  rewrite codeBlocks_idle by lacks.
  rewrite inlineCode_idle by lacks.
  rewrite speakerLabels_idle by lacks.
  unfold bold.
  change (str "**") with [42; 42]%N; change (str "__") with [95; 95]%N.
  rewrite strong_single by (first [lacks|easy]).
  rewrite strong_idle by lacks.
  rewrite italic_idle by lacks.
  rewrite unorderedLists_idle by (first [lacks|no_word]).
  rewrite orderedLists_idle by (first [lacks|no_word]).
  reflexivity.
Qed.

Lemma strong_underscores (a w b : jsstring) :
  plain a = true -> plain w = true -> plain b = true ->
  forallb dot w = true ->
  inlinePasses (VString (a ++ str "__" ++ w ++ str "__" ++ b)) =
  a ++ str "<strong>" ++ w ++ str "</strong>" ++ b.
Proof.
  intros Pa Pw Pb D; unfold inlinePasses, escapeHtml; cbv zeta.
  rewrite escape_keep by lacks.
  rewrite codeBlocks_idle by lacks.
  rewrite inlineCode_idle by lacks.
  rewrite speakerLabels_idle by lacks.
  unfold bold.
  change (str "**") with [42; 42]%N; change (str "__") with [95; 95]%N.
  rewrite (strong_idle 42%N) by lacks.
  rewrite strong_single by (first [lacks|easy]).
  rewrite italic_idle by lacks.
  rewrite unorderedLists_idle by (first [lacks|no_word]).
  rewrite orderedLists_idle by (first [lacks|no_word]).
  reflexivity.
Qed.

Lemma fence_single (a w b : jsstring) :
  plain a = true -> plain w = true -> plain b = true ->
  codeBlocks (a ++ str "```" ++ w ++ str "```" ++ b) =
  a ++ str "<pre><code>" ++ trim w ++ str "</code></pre>" ++ b.
Proof.
  intros Pa Pw Pb; unfold codeBlocks, re_fence.
  change (str "```") with [96; 96; 96]%N.
  rewrite (delimited_single any 96%N [96; 96]%N) by
    (first [lacks|now apply forallb_forall]).
  cbn [capture Nat.eqb]; now rewrite <- !app_assoc.
Qed.

Lemma fenced_block (a w b : jsstring) :
  plain a = true -> plain w = true -> plain b = true ->
  inlinePasses (VString (a ++ str "```" ++ w ++ str "```" ++ b)) =
  a ++ str "<pre><code>" ++ trim w ++ str "</code></pre>" ++ b.
Proof.
  intros Pa Pw Pb; unfold inlinePasses, escapeHtml; cbv zeta.
  rewrite escape_keep by lacks.
  rewrite fence_single by easy.
  rewrite inlineCode_idle by lacks.
  rewrite speakerLabels_idle by lacks.
  unfold bold.
  change (str "**") with [42; 42]%N; change (str "__") with [95; 95]%N.
  rewrite (strong_idle 42%N) by lacks.
  rewrite (strong_idle 95%N) by lacks.
  rewrite italic_idle by lacks.
  rewrite unorderedLists_idle by (first [lacks|no_word]).
  rewrite orderedLists_idle by (first [lacks|no_word]).
  reflexivity.
Qed.

Lemma code_single (a w b : jsstring) :
  plain a = true -> plain w = true -> plain b = true -> w <> [] ->
  inlineCode (a ++ str "`" ++ w ++ str "`" ++ b) =
  a ++ str "<code>" ++ w ++ str "</code>" ++ b.
Proof.
  intros Pa Pw Pb N; unfold inlineCode.
  assert (Kw : existsb (N.eqb 96) w = false) by lacks.
  destruct w as [|c0 w']; [easy|].
  assert (E : str "`" ++ (c0 :: w') ++ str "`" ++ b =
              (str "`" ++ (c0 :: w') ++ str "`") ++ b)
    by (now rewrite <- !app_assoc).
  rewrite E.
  rewrite (single_piece re_code _ 96%N a _ b [(1, c0 :: w')]).
  - cbn [capture Nat.eqb]; now rewrite <- !app_assoc.
  - apply code_first.
  - lacks.
  - lacks.
  - discriminate.
  - intros q; eexists; rewrite <- E; now apply code_match.
Qed.

Lemma code_span (a w b : jsstring) :
  plain a = true -> plain w = true -> plain b = true -> w <> [] ->
  inlinePasses (VString (a ++ str "`" ++ w ++ str "`" ++ b)) =
  a ++ str "<code>" ++ w ++ str "</code>" ++ b.
Proof.
  intros Pa Pw Pb N; unfold inlinePasses, escapeHtml; cbv zeta.
  rewrite escape_keep by lacks.
  assert (F : codeBlocks (a ++ str "`" ++ w ++ str "`" ++ b) =
              a ++ str "`" ++ w ++ str "`" ++ b).
  { unfold codeBlocks.
    apply (replace_without (str "```")).
    - intros p s y M; apply hd_in in M; unfold re_fence in M; inv_m.
      apply startsWith_refl.
    - assert (K : existsb (N.eqb 96) w = false) by lacks.
      assert (Kb : existsb (N.eqb 96) b = false) by lacks.
      destruct w as [|c0 w']; [easy|].
      cbn [existsb] in K; apply orb_false_elim in K as [K0 K].
      assert (S : forall x y z,
                 existsb (N.eqb 96) x = false ->
                 includes (x ++ y) (96%N :: z) = includes y (96%N :: z)).
      { induction x as [|e x IH]; [easy|]; cbn [existsb app]; intros y z H.
        apply orb_false_elim in H as [He H].
        cbn [includes startsWith]; rewrite He; cbn [andb orb]; now apply IH. }
      change (str "```") with (96%N :: str "``").
      rewrite S by lacks.
      change (str "`") with [96%N]; cbn [app includes startsWith str
        List.map list_ascii_of_string].
      change (N_of_ascii "`") with 96%N.
      rewrite N.eqb_refl, K0; cbn [andb orb].
      change (w' ++ 96%N :: b) with (w' ++ [96%N] ++ b).
      rewrite S by easy.
      cbn [app includes startsWith]; rewrite N.eqb_refl; cbn [andb].
      destruct b as [|e b']; [reflexivity|].
      pose proof Kb as Kb'.
      cbn [existsb] in Kb'; apply orb_false_elim in Kb' as [Ke _].
      rewrite Ke; cbn [andb orb].
      rewrite <- (app_nil_r (e :: b')), S by exact Kb; reflexivity. }
  rewrite F.
  rewrite code_single by easy.
  rewrite speakerLabels_idle by lacks.
  unfold bold.
  change (str "**") with [42; 42]%N; change (str "__") with [95; 95]%N.
  rewrite (strong_idle 42%N) by lacks.
  rewrite (strong_idle 95%N) by lacks.
  rewrite italic_idle by lacks.
  rewrite unorderedLists_idle by (first [lacks|no_word]).
  rewrite orderedLists_idle by (first [lacks|no_word]).
  reflexivity.
Qed.

Lemma em_single (c s1 s2 : char) (a w b : jsstring) :
  is_space s1 = true -> is_space s2 = true -> is_space c = false ->
  existsb (N.eqb c) a = false -> existsb (N.eqb c) w = false ->
  existsb (N.eqb c) b = false -> forallb dot w = true ->
  (exists w0 w', w = w0 :: w' /\ is_space w0 = false) ->
  replace (re_em [c]) em_template (a ++ [s1] ++ [c] ++ w ++ [c] ++ [s2] ++ b) =
  a ++ [s1] ++ str "<em>" ++ w ++ str "</em>" ++ [s2] ++ b.
Proof.
  intros S1 S2 Sc Ka Kw Kb D (w0 & w' & -> & S0).
  assert (C1 : (c =? s1)%N = false).
  { destruct (N.eqb_spec c s1) as [->|]; [congruence|easy]. }
  assert (E : [s1] ++ [c] ++ (w0 :: w') ++ [c] ++ [s2] ++ b =
              (s1 :: c :: (w0 :: w') ++ [c; s2]) ++ b)
    by (cbn [app]; now rewrite <- app_assoc).
  rewrite E; unfold replace.
  rewrite (replace_single (re_em [c]) em_template
             (s1 :: c :: (w0 :: w') ++ [c; s2]) b
             (MState (Some s2) b [(3, [s2]); (2, w0 :: w'); (1, [s1])])
             a None).
  - cbn [caps]; unfold em_template.
    cbn [template flat_map capture Nat.eqb].
    now rewrite app_nil_r, <- !app_assoc.
  - intros a1 [|e a2] q -> N; [easy|].
    destruct (match_at (re_em [c]) q _) as [y|] eqn:M; [exfalso|easy].
    rewrite existsb_app in Ka; apply orb_false_elim in Ka as [_ Ka].
    cbn [existsb] in Ka; apply orb_false_elim in Ka as [Ke Ka].
    apply em_shape in M as [M|(sp & t & M)].
    + cbn [app hd_error] in M; injection M as ->.
      now rewrite N.eqb_refl in Ke.
    + destruct a2 as [|e' a2]; cbn [app] in M; injection M as _ M _.
      * subst s1; now rewrite N.eqb_refl in C1.
      * subst e'; cbn [existsb] in Ka; now rewrite N.eqb_refl in Ka.
  - discriminate.
  - cbn [app]; rewrite <- app_assoc; cbn [app].
    now apply (em_match c s1 s2 w0 w' b).
  - reflexivity.
  - intros b1 b2 q ->.
    destruct (match_at (re_em [c]) q b2) as [y|] eqn:M; [exfalso|easy].
    apply em_trigger in M.
    rewrite existsb_app in Kb; apply orb_false_elim in Kb as [_ Kb].
    exact (eq_true_false_abs _ M Kb).
Qed.

(** Two delimiters with text between them are not a doubled delimiter. *)
Lemma lone_delims (k s1 s2 : char) (a w b : jsstring) :
  existsb (N.eqb k) a = false -> (k =? s1)%N = false ->
  existsb (N.eqb k) w = false -> w <> [] ->
  (k =? s2)%N = false -> existsb (N.eqb k) b = false ->
  includes (a ++ [s1] ++ [k] ++ w ++ [k] ++ [s2] ++ b) [k; k] = false.
Proof.
  intros Ka K1 Kw N K2 Kb.
  rewrite includes_skip_char by easy.
  rewrite includes_skip_char by (cbn [existsb]; now rewrite K1).
  destruct w as [|w0 w']; [easy|].
  cbn [existsb] in Kw; apply orb_false_elim in Kw as [K0 Kw].
  cbn [app includes startsWith]; rewrite K0, ?andb_false_r; cbn [andb orb].
  rewrite includes_skip_char by easy.
  cbn [includes startsWith]; rewrite K2, ?andb_false_r; cbn [andb orb].
  rewrite <- (app_nil_r b), includes_skip_char by easy.
  reflexivity.
Qed.

Lemma em_stars (a w b : jsstring) (s1 s2 : char) :
  plain a = true -> plain w = true -> plain b = true ->
  is_space s1 = true -> is_space s2 = true ->
  forallb dot w = true ->
  (exists w0 w', w = w0 :: w' /\ is_space w0 = false) ->
  inlinePasses
    (VString (a ++ [s1] ++ str "*" ++ w ++ str "*" ++ [s2] ++ b)) =
  a ++ [s1] ++ str "<em>" ++ w ++ str "</em>" ++ [s2] ++ b.
Proof.
  intros Pa Pw Pb S1 S2 D W.
  pose proof (space_plain _ S1) as P1; pose proof (space_plain _ S2) as P2.
  assert (Nw : w <> []) by (destruct W as (? & ? & -> & _); discriminate).
  unfold inlinePasses, escapeHtml; cbv zeta.
  rewrite escape_keep by lacks.
  rewrite codeBlocks_idle by lacks.
  rewrite inlineCode_idle by lacks.
  rewrite speakerLabels_idle by lacks.
  unfold bold.
  change (str "**") with [42; 42]%N; change (str "__") with [95; 95]%N.
  change (str "*") with [42%N]; change (str "_") with [95%N].
  rewrite (replace_without [42; 42]%N (re_strong [42; 42]%N)).
  2: { intros p s y; apply (delimited_first dot). }
  2: { apply lone_delims; first [lacks|easy|now apply space_not]. }
  rewrite (strong_idle 95%N) by lacks.
  unfold italic.
  change (str "*") with [42%N]; change (str "_") with [95%N].
  rewrite em_single by (first [lacks|easy]).
  rewrite (replace_lacking _ _ _ (em_trigger 95%N)) by lacks.
  rewrite unorderedLists_idle by (first [lacks|no_word]).
  rewrite orderedLists_idle by (first [lacks|no_word]).
  reflexivity.
Qed.

Lemma em_underscores (a w b : jsstring) (s1 s2 : char) :
  plain a = true -> plain w = true -> plain b = true ->
  is_space s1 = true -> is_space s2 = true ->
  forallb dot w = true ->
  (exists w0 w', w = w0 :: w' /\ is_space w0 = false) ->
  inlinePasses
    (VString (a ++ [s1] ++ str "_" ++ w ++ str "_" ++ [s2] ++ b)) =
  a ++ [s1] ++ str "<em>" ++ w ++ str "</em>" ++ [s2] ++ b.
Proof.
  intros Pa Pw Pb S1 S2 D W.
  pose proof (space_plain _ S1) as P1; pose proof (space_plain _ S2) as P2.
  assert (Nw : w <> []) by (destruct W as (? & ? & -> & _); discriminate).
  unfold inlinePasses, escapeHtml; cbv zeta.
  rewrite escape_keep by lacks.
  rewrite codeBlocks_idle by lacks.
  rewrite inlineCode_idle by lacks.
  rewrite speakerLabels_idle by lacks.
  unfold bold.
  change (str "**") with [42; 42]%N; change (str "__") with [95; 95]%N.
  change (str "*") with [42%N]; change (str "_") with [95%N].
  rewrite (strong_idle 42%N) by lacks.
  rewrite (replace_without [95; 95]%N (re_strong [95; 95]%N)).
  2: { intros p s y; apply (delimited_first dot). }
  2: { apply lone_delims; first [lacks|easy|now apply space_not]. }
  unfold italic.
  change (str "*") with [42%N]; change (str "_") with [95%N].
  rewrite (replace_lacking _ _ _ (em_trigger 42%N)) by lacks.
  rewrite em_single by (first [lacks|easy]).
  rewrite unorderedLists_idle by (first [lacks|no_word]).
  rewrite orderedLists_idle by (first [lacks|no_word]).
  reflexivity.
Qed.

(** *** One line of text, end to end *)

Lemma split_on_one (s : jsstring) :
  existsb (N.eqb nl) s = false -> split_on nl s = [s].
Proof.
  induction s as [|c s IH]; [easy|]; cbn [existsb split_on]; intros H.
  apply orb_false_elim in H as [Hc H].
  rewrite N.eqb_sym in Hc; rewrite Hc, (IH H); reflexivity.
Qed.

Lemma paragraphs_one_line (s : jsstring) :
  existsb (N.eqb nl) s = false ->
  paragraphs s =
  match trim s with
  | [] => []
  | l => if is_container_line l then l else str "<p>" ++ l ++ str "</p>"
  end.
Proof.
  intros H; unfold paragraphs; rewrite (split_on_one s H).
  cbn [paragraphLines]; unfold paragraphLine.
  destruct (trim s) as [|c l]; [reflexivity|].
  destruct (is_container_line (c :: l)); cbn [negb closeParagraph];
    now rewrite ?app_nil_r, <- ?app_assoc.
Qed.

Lemma dot_no_nl (s : jsstring) :
  forallb dot s = true -> existsb (N.eqb nl) s = false.
Proof.
  intros H; destruct (existsb (N.eqb nl) s) eqn:E; [|easy].
  apply existsb_exists in E as (c & I & Hc).
  apply N.eqb_eq in Hc; subst c.
  rewrite forallb_forall in H; now apply H in I.
Qed.

Lemma trimStart_keep (u : jsstring) (c : char) (v : jsstring) :
  is_space c = false -> exists u', trimStart (u ++ c :: v) = u' ++ c :: v.
Proof.
  intros H; induction u as [|d u (u' & E)]; cbn [app trimStart].
  - rewrite H; now exists [].
  - destruct (is_space d); [now exists u'|now exists (d :: u)].
Qed.

Lemma trimEnd_keep (x : jsstring) (c : char) (y : jsstring) :
  is_space c = false -> exists y', trimEnd (x ++ c :: y) = x ++ c :: y'.
Proof.
  intros H; unfold trimEnd.
  rewrite rev_app_distr; cbn [rev]; rewrite <- app_assoc; cbn [app].
  destruct (trimStart_keep (rev y) c (rev x) H) as (u' & E).
  rewrite E, rev_app_distr; cbn [rev].
  rewrite rev_involutive, <- app_assoc; cbn [app].
  now exists (rev u').
Qed.

(** A line that begins, behind plain text, with a tag that is none of the
    five the assembler looks for is a text line. *)
Lemma text_piece (a r : jsstring) (x : char) :
  plain a = true -> one_of (str "luopc") x = false ->
  exists c l,
    trim (a ++ 60%N :: x :: r) = c :: l /\ is_container_line (c :: l) = false.
Proof.
  intros Pa X; unfold trim.
  assert (S : exists u, trimStart (a ++ 60%N :: x :: r) = u ++ 60%N :: x :: r /\
                        plain u = true).
  { induction a as [|d a IH]; cbn [app trimStart].
    - now exists [].
    - unfold plain in Pa; cbn [forallb] in Pa; apply andb_prop in Pa as [Pd Pa].
      destruct (is_space d); [now apply IH|].
      exists (d :: a); split; [easy|].
      unfold plain; cbn [forallb]; now rewrite Pd. }
  destruct S as (u & -> & Pu).
  destruct (trimEnd_keep u 60%N (x :: r) eq_refl) as (y' & E2).
  destruct u as [|d u'].
  - exists 60%N, y'; split; [exact E2|].
    destruct (trimEnd_prefix ([] ++ 60%N :: x :: r)) as (sp & E3 & _).
    assert (E4 : 60%N :: x :: r = (60%N :: y') ++ sp)
      by (etransitivity; [exact E3|f_equal; exact E2]).
    clear E3; cbn [app] in E4; injection E4 as E3.
    destruct y' as [|e y2]; [reflexivity|].
    cbn [app] in E3; injection E3 as <- _.
    unfold is_container_line; norm_str; cbn [startsWith].
    unfold one_of in X; revert X; norm_str; cbn [existsb].
    rewrite (N.eqb_sym x 108), (N.eqb_sym x 117), (N.eqb_sym x 111),
      (N.eqb_sym x 112), (N.eqb_sym x 99).
    destruct (108 =? x)%N, (117 =? x)%N, (111 =? x)%N, (112 =? x)%N,
      (99 =? x)%N; easy.
  - exists d, (u' ++ 60%N :: y'); split; [exact E2|].
    unfold plain in Pu; cbn [forallb] in Pu; apply andb_prop in Pu as [Pd _].
    assert (N60 : (60 =? d)%N = false).
    { destruct (N.eqb_spec 60 d) as [<-|]; [now vm_compute in Pd|easy]. }
    unfold is_container_line; norm_str; cbn [startsWith]; now rewrite N60.
Qed.

Lemma not_blank (s : jsstring) (c : char) :
  In c s -> is_space c = false -> forallb is_space s = false.
Proof.
  intros I H; destruct (forallb is_space s) eqn:E; [|easy].
  rewrite forallb_forall in E; apply E in I; congruence.
Qed.

Lemma render_text_line (v : jsval) (a r : jsstring) (x : char) :
  inlinePasses v = a ++ 60%N :: x :: r ->
  plain a = true -> one_of (str "luopc") x = false ->
  existsb (N.eqb nl) (a ++ 60%N :: x :: r) = false ->
  blank_input v = false ->
  markdownToHtml v =
  Ok (str "<p>" ++ trim (a ++ 60%N :: x :: r) ++ str "</p>").
Proof.
  intros E Pa X L B.
  rewrite (markdownToHtml_render v B), render_paragraphs, E.
  rewrite (paragraphs_one_line _ L).
  destruct (text_piece a r x Pa X) as (c & l & T & C).
  rewrite T; cbv iota zeta; now rewrite C.
Qed.

Lemma render_container_line (v : jsval) (tag r : jsstring) :
  In tag [str "<code"; str "<pre"; str "<ul"; str "<ol"] ->
  inlinePasses v = tag ++ 62%N :: r ->
  existsb (N.eqb nl) (tag ++ 62%N :: r) = false ->
  blank_input v = false ->
  markdownToHtml v = Ok (trim (tag ++ 62%N :: r)).
Proof.
  intros I E L B.
  rewrite (markdownToHtml_render v B), render_paragraphs, E.
  rewrite (paragraphs_one_line _ L).
  assert (T : exists y, trim (tag ++ 62%N :: r) = tag ++ 62%N :: y).
  { unfold trim.
    assert (S : trimStart (tag ++ 62%N :: r) = tag ++ 62%N :: r)
      by (destruct I as [<-|[<-|[<-|[<-|[]]]]]; reflexivity).
    destruct (trimEnd_keep tag 62%N r eq_refl) as (y & Ey).
    exists y; etransitivity; [|exact Ey]; f_equal; exact S. }
  destruct T as (y & T).
  assert (C : is_container_line (tag ++ 62%N :: y) = true)
    by (destruct I as [<-|[<-|[<-|[<-|[]]]]]; reflexivity).
  assert (N : tag ++ 62%N :: y <> [])
    by (destruct I as [<-|[<-|[<-|[<-|[]]]]]; discriminate).
  destruct (trim (tag ++ 62%N :: r)) as [|c l] eqn:Tr; [now rewrite <- T in N|].
  assert (C' : is_container_line (c :: l) = true)
    by (etransitivity; [|exact C]; f_equal; exact T).
  cbv iota zeta; now rewrite C'.
Qed.

Ltac no_nl :=
  first [ reflexivity
        | apply dot_no_nl; assumption
        | rewrite existsb_app; apply orb_false_intro; no_nl ].

Lemma strong_line (a w b : jsstring) :
  plain a = true -> plain w = true -> plain b = true ->
  forallb dot a = true -> forallb dot w = true -> forallb dot b = true ->
  markdownToHtml (VString (a ++ str "**" ++ w ++ str "**" ++ b)) =
  Ok (str "<p>" ++ trim (a ++ str "<strong>" ++ w ++ str "</strong>" ++ b)
      ++ str "</p>").
Proof.
  intros Pa Pw Pb Da Dw Db.
  apply (render_text_line _ a (str "trong>" ++ w ++ str "</strong>" ++ b)
           115%N); try easy.
  - now apply strong_stars.
  - change (a ++ 60%N :: 115%N :: str "trong>" ++ w ++ str "</strong>" ++ b)
      with (a ++ str "<strong>" ++ w ++ str "</strong>" ++ b).
    no_nl.
  - cbn [blank_input]; apply (not_blank _ 42%N); [|reflexivity].
    apply in_or_app; right; now left.
Qed.

Lemma em_line (a w b : jsstring) (s1 s2 : char) :
  plain a = true -> plain w = true -> plain b = true ->
  is_space s1 = true -> is_space s2 = true ->
  forallb dot (a ++ [s1] ++ w ++ [s2] ++ b) = true ->
  (exists w0 w', w = w0 :: w' /\ is_space w0 = false) ->
  markdownToHtml
    (VString (a ++ [s1] ++ str "*" ++ w ++ str "*" ++ [s2] ++ b)) =
  Ok (str "<p>" ++
      trim (a ++ [s1] ++ str "<em>" ++ w ++ str "</em>" ++ [s2] ++ b) ++
      str "</p>").
Proof.
  intros Pa Pw Pb S1 S2 D W.
  rewrite !forallb_app in D.
  apply andb_prop in D as [Da D]; apply andb_prop in D as [D1 D].
  apply andb_prop in D as [Dw D]; apply andb_prop in D as [D2 Db].
  pose proof (em_stars a w b s1 s2 Pa Pw Pb S1 S2 Dw W) as E.
  assert (A1 : forall t, a ++ [s1] ++ t = (a ++ [s1]) ++ t)
    by (intros; apply app_assoc).
  rewrite !A1 in E |- *.
  apply (render_text_line _ (a ++ [s1])
           (str "m>" ++ w ++ str "</em>" ++ [s2] ++ b) 101%N); try easy.
  - unfold plain; rewrite forallb_app; apply andb_true_intro; split;
      [exact Pa|now apply space_plain].
  - change ((a ++ [s1]) ++ 60%N :: 101%N :: str "m>" ++ w ++ str "</em>" ++ [s2] ++ b)
      with ((a ++ [s1]) ++ str "<em>" ++ w ++ str "</em>" ++ [s2] ++ b).
    no_nl.
  - cbn [blank_input]; apply (not_blank _ 42%N); [|reflexivity].
    apply in_or_app; right; apply in_or_app; left; now left.
Qed.

Lemma code_line (w b : jsstring) :
  plain w = true -> plain b = true -> w <> [] ->
  forallb dot w = true -> forallb dot b = true ->
  markdownToHtml (VString (str "`" ++ w ++ str "`" ++ b)) =
  Ok (trim (str "<code>" ++ w ++ str "</code>" ++ b)).
Proof.
  intros Pw Pb N Dw Db.
  apply (render_container_line _ (str "<code") (w ++ str "</code>" ++ b)).
  - now left.
  - now apply (code_span [] w b).
  - change (str "<code" ++ 62%N :: w ++ str "</code>" ++ b)
      with (str "<code>" ++ w ++ str "</code>" ++ b).
    no_nl.
  - cbn [blank_input]; apply (not_blank _ 96%N); [now left|reflexivity].
Qed.

Lemma fence_line (w b : jsstring) :
  plain w = true -> plain b = true ->
  forallb dot w = true -> forallb dot b = true ->
  markdownToHtml (VString (str "```" ++ w ++ str "```" ++ b)) =
  Ok (trim (str "<pre><code>" ++ trim w ++ str "</code></pre>" ++ b)).
Proof.
  intros Pw Pb Dw Db.
  apply (render_container_line _ (str "<pre")
           (str "<code>" ++ trim w ++ str "</code></pre>" ++ b)).
  - right; now left.
  - now apply (fenced_block [] w b).
  - change (str "<pre" ++ 62%N :: str "<code>" ++ trim w ++ str "</code></pre>" ++ b)
      with (str "<pre><code>" ++ trim w ++ str "</code></pre>" ++ b).
    assert (Dt : forallb dot (trim w) = true).
    { rewrite forallb_forall in *; intros c I; now apply Dw, trim_incl. }
    no_nl.
  - cbn [blank_input]; apply (not_blank _ 96%N); [now left|reflexivity].
Qed.

End FeatureResults.

(** ** What one piece of markup in plain text becomes *)

Section Markup.

(** X17. Strong emphasis.  In text that holds none of the characters the
    passes react to, a piece [w] of such text without a line terminator,
    written between two pairs of asterisks or of underscores, comes out of
    the inline passes as [w] in a strong-emphasis container, the text around
    it unchanged; and when the text is one line, [markdownToHtml] returns
    that line, trimmed, as one paragraph. *)
Theorem strong_emphasis_rendered :
  forall a w b : jsstring,
    plain a = true -> plain w = true -> plain b = true ->
    forallb dot w = true ->
    inlinePasses (VString (a ++ str "**" ++ w ++ str "**" ++ b)) =
    a ++ str "<strong>" ++ w ++ str "</strong>" ++ b /\
    inlinePasses (VString (a ++ str "__" ++ w ++ str "__" ++ b)) =
    a ++ str "<strong>" ++ w ++ str "</strong>" ++ b /\
    (forallb dot a = true -> forallb dot b = true ->
     markdownToHtml (VString (a ++ str "**" ++ w ++ str "**" ++ b)) =
     Ok (str "<p>" ++
         trim (a ++ str "<strong>" ++ w ++ str "</strong>" ++ b) ++
         str "</p>")).
Proof.
  intros a w b Pa Pw Pb D; split; [|split].
  - now apply strong_stars.
  - now apply strong_underscores.
  - intros Da Db; now apply strong_line.
Qed.

Lemma strong_emphasis_rendered_witness :
  markdownToHtml (VString (str "say **hi there** now ")) =
  Ok (str "<p>say <strong>hi there</strong> now</p>").
Proof.
  exact (proj2 (proj2 (strong_emphasis_rendered
                         (str "say ") (str "hi there") (str " now ")
                         eq_refl eq_refl eq_refl eq_refl))
           eq_refl eq_refl).
Defined.

(** X18. Emphasis.  In such text, a piece [w] that does not begin with
    white space and holds no line terminator, written between two asterisks
    or two underscores that have white space in front and behind, comes out
    of the inline passes as [w] in an emphasis container, with the white
    space on both sides kept; and when the text is one line,
    [markdownToHtml] returns that line, trimmed, as one paragraph. *)
Theorem emphasis_rendered :
  forall (a w b : jsstring) (s1 s2 : char),
    plain a = true -> plain w = true -> plain b = true ->
    is_space s1 = true -> is_space s2 = true ->
    forallb dot w = true ->
    (exists w0 w', w = w0 :: w' /\ is_space w0 = false) ->
    inlinePasses
      (VString (a ++ [s1] ++ str "*" ++ w ++ str "*" ++ [s2] ++ b)) =
    a ++ [s1] ++ str "<em>" ++ w ++ str "</em>" ++ [s2] ++ b /\
    inlinePasses
      (VString (a ++ [s1] ++ str "_" ++ w ++ str "_" ++ [s2] ++ b)) =
    a ++ [s1] ++ str "<em>" ++ w ++ str "</em>" ++ [s2] ++ b /\
    (forallb dot (a ++ [s1] ++ w ++ [s2] ++ b) = true ->
     markdownToHtml
       (VString (a ++ [s1] ++ str "*" ++ w ++ str "*" ++ [s2] ++ b)) =
     Ok (str "<p>" ++
         trim (a ++ [s1] ++ str "<em>" ++ w ++ str "</em>" ++ [s2] ++ b) ++
         str "</p>")).
Proof.
  intros a w b s1 s2 Pa Pw Pb S1 S2 D W; split; [|split].
  - now apply em_stars.
  - now apply em_underscores.
  - intros Dl; now apply em_line.
Qed.

Lemma emphasis_rendered_witness :
  markdownToHtml (VString (str "this is *very* good")) =
  Ok (str "<p>this is <em>very</em> good</p>").
Proof.
  exact (proj2 (proj2 (emphasis_rendered
                         (str "this is") (str "very") (str "good")
                         32%N 32%N eq_refl eq_refl eq_refl eq_refl eq_refl
                         eq_refl
                         (ex_intro _ 118%N
                            (ex_intro _ (str "ery") (conj eq_refl eq_refl)))))
           eq_refl).
Defined.

(** X19. Inline code.  In such text, a piece [w] of such text that is not
    empty, written between two backticks, comes out of the inline passes as
    [w] in a code container, the text around it unchanged; and a one-line
    input that begins with such a piece is returned, trimmed, without a
    paragraph around it. *)
Theorem inline_code_rendered :
  forall a w b : jsstring,
    plain a = true -> plain w = true -> plain b = true -> w <> [] ->
    inlinePasses (VString (a ++ str "`" ++ w ++ str "`" ++ b)) =
    a ++ str "<code>" ++ w ++ str "</code>" ++ b /\
    (forallb dot w = true -> forallb dot b = true ->
     markdownToHtml (VString (str "`" ++ w ++ str "`" ++ b)) =
     Ok (trim (str "<code>" ++ w ++ str "</code>" ++ b))).
Proof.
  intros a w b Pa Pw Pb N; split.
  - now apply code_span.
  - intros Dw Db; now apply code_line.
Qed.

Lemma inline_code_rendered_witness :
  markdownToHtml (VString (str "`npm install` first")) =
  Ok (str "<code>npm install</code> first").
Proof.
  refine (proj2 (inline_code_rendered [] (str "npm install") (str " first")
                   eq_refl eq_refl eq_refl _)
            eq_refl eq_refl).
  discriminate.
Defined.

(** X20. Fenced code.  In such text, a piece [w] of such text written
    between two fences of three backticks comes out of the inline passes as
    [w], trimmed, in a preformatted code container, the text around it
    unchanged; and a one-line input that begins with such a piece is
    returned, trimmed, without a paragraph around it. *)
Theorem fenced_code_rendered :
  forall a w b : jsstring,
    plain a = true -> plain w = true -> plain b = true ->
    inlinePasses (VString (a ++ str "```" ++ w ++ str "```" ++ b)) =
    a ++ str "<pre><code>" ++ trim w ++ str "</code></pre>" ++ b /\
    (forallb dot w = true -> forallb dot b = true ->
     markdownToHtml (VString (str "```" ++ w ++ str "```" ++ b)) =
     Ok (trim (str "<pre><code>" ++ trim w ++ str "</code></pre>" ++ b))).
Proof.
  intros a w b Pa Pw Pb; split.
  - now apply fenced_block.
  - intros Dw Db; now apply fence_line.
Qed.

Lemma fenced_code_rendered_witness :
  markdownToHtml (VString (str "``` let x = y ```")) =
  Ok (str "<pre><code>let x = y</code></pre>").
Proof.
  exact (proj2 (fenced_code_rendered [] (str " let x = y ") []
                  eq_refl eq_refl eq_refl)
           eq_refl eq_refl).
Defined.

End Markup.

(** ** Lists *)

Section Lists.

(** A greedy class iteration that cannot begin reads nothing. *)
Lemma bt_greedy_stop (p : char -> bool) (x : mstate)
    (k : mstate -> option mstate) :
  match rest x with [] => True | c :: _ => p c = false end ->
  bt (Star true (Cls p)) x k = k x.
Proof.
  intros H; rewrite bt_star_eq; cbn [bt_star bt].
  destruct (rest x) as [|c t]; [reflexivity|]; now rewrite H.
Qed.

(** A greedy class iteration reads the whole run when the rest of the
    pattern succeeds behind it. *)
Lemma bt_greedy_cls (p : char -> bool) (t : jsstring)
    (cs : list (nat * jsstring)) (k : mstate -> option mstate) (z : mstate) :
  forall w n q,
    length (w ++ t) < n -> forallb p w = true ->
    k (MState (last_char w q) t cs) = Some z ->
    match t with [] => True | c :: _ => p c = false end ->
    bt_star (bt (Cls p)) true n (MState q (w ++ t) cs) k = Some z.
Proof.
  induction w as [|c w IH]; intros n q L F K T;
    (destruct n; [simpl in L; lia|]); cbn [bt_star].
  - cbn [app last_char] in *.
    destruct t as [|c t]; [cbn [bt rest]; now rewrite K|].
    now rewrite bt_cls_fail, K.
  - cbn [forallb] in F; apply andb_prop in F as [Pc F].
    cbn [app]; rewrite bt_cls by exact Pc; cbn [rest].
    assert (Lt : (length (w ++ t) <? length (c :: w ++ t)) = true)
      by (apply Nat.ltb_lt; simpl; lia).
    rewrite Lt, (IH n (Some c)); [easy|simpl in L; lia|easy|easy|easy].
Qed.

Lemma item_text_parts (i : jsstring) :
  item_text i = true ->
  plain i = true /\ forallb dot i = true /\
  exists c l, i = c :: l /\ is_space c = false.
Proof.
  unfold item_text; intros H.
  apply andb_prop in H as [H S]; apply andb_prop in H as [P D].
  repeat split; try easy.
  destruct i as [|c l]; [easy|]; exists c, l; split; [easy|].
  now apply negb_true_iff.
Qed.

(** A list line: the marker, one space, the text of the item. *)
Lemma ul_match (p : option char) (i0 : char) (i' t : jsstring) :
  match p with None => True | Some c => is_line_terminator c = true end ->
  is_space i0 = false -> forallb dot (i0 :: i') = true ->
  match t with [] => True | c :: _ => dot c = false end ->
  match_at re_ul p (45%N :: 32%N :: (i0 :: i') ++ t) =
  Some (MState (last_char i' (Some i0)) t [(1, i0 :: i')]).
Proof.
  intros B S0 D T; rewrite match_at_bt; unfold re_ul, Plus.
  rewrite bt_seq, bt_bol.
  assert (A : at_bol true (MState p (45%N :: 32%N :: (i0 :: i') ++ t) []) = true).
  { unfold at_bol; cbn [prev]; destruct p as [c|]; [now rewrite B|easy]. }
  rewrite A.
  rewrite bt_seq, bt_greedy_stop by reflexivity.
  rewrite bt_seq, bt_cls by reflexivity.
  rewrite bt_seq, bt_seq, bt_cls by reflexivity.
  rewrite bt_greedy_stop by (cbn [rest app]; exact S0).
  rewrite bt_group, bt_star_eq.
  apply bt_greedy_cls; [cbn [rest]; lia|easy| |easy].
  cbn [prev rest caps last_char].
  now rewrite (consumed_app _ _ (i0 :: i')) by reflexivity.
Qed.

Lemma ul_not_bol (c : char) (s : jsstring) (y : mstate) :
  match_at re_ul (Some c) s = Some y -> is_line_terminator c = true.
Proof.
  intros M; apply hd_in in M; unfold re_ul in M; inv_m.
  match goal with
  | H : at_bol true _ = true |- _ => unfold at_bol in H; cbn [prev] in H
  end.
  easy.
Qed.

Lemma last_char_in (w : jsstring) :
  forall q, w <> [] -> exists c, last_char w q = Some c /\ In c w.
Proof.
  induction w as [|d w IH]; intros q N; [easy|]; cbn [last_char].
  destruct w as [|e w'].
  - exists d; split; [reflexivity|now left].
  - destruct (IH (Some d)) as (c & E & I); [easy|].
    exists c; split; [exact E|now right].
Qed.

Lemma ul_lines (items : list jsstring) :
  forallb item_text items = true ->
  forall p,
    match p with None => True | Some c => is_line_terminator c = true end ->
    replace_go re_ul
      (fun cs => str "<ul><li>" ++ trim (capture cs 1) ++ str "</li></ul>")
      p (join_lines (List.map (fun i => str "- " ++ i) items)) 0 =
    join_lines
      (List.map (fun i => str "<ul><li>" ++ trim i ++ str "</li></ul>") items).
Proof.
  set (f := fun cs => str "<ul><li>" ++ trim (capture cs 1) ++ str "</li></ul>").
  assert (E0 : forall q, replace_go re_ul f q [] 0 = []).
  { intros q; cbn [replace_go].
    destruct (match_at re_ul q []) as [y|] eqn:M; [|easy].
    now apply ul_trigger in M. }
  induction items as [|i rest IH]; intros F p B; [apply E0|].
  cbn [forallb] in F; apply andb_prop in F as [Fi F].
  destruct (item_text_parts i Fi) as (Pi & Di & i0 & i' & -> & S0).
  cbn [List.map join_lines].
  destruct rest as [|j r].
  - cbn [List.map].
    replace (str "- " ++ i0 :: i') with (45%N :: (32%N :: i0 :: i') ++ [])
      by (now rewrite app_nil_r).
    etransitivity;
      [apply (replace_go_match re_ul f p 45%N (32%N :: i0 :: i') []
                (MState (last_char i' (Some i0)) [] [(1, i0 :: i')]));
       [now apply (ul_match p i0 i' [])|reflexivity]|].
    rewrite E0; cbn [caps]; unfold f.
    cbn [capture Nat.eqb]; now rewrite !app_nil_r.
  - set (J := join_lines (List.map (fun i => str "- " ++ i) (j :: r))) in *.
    set (J' := join_lines
                 (List.map (fun i => str "<ul><li>" ++ trim i ++ str "</li></ul>")
                           (j :: r))) in *.
    cbn [List.map].
    change ((str "- " ++ i0 :: i') ++ nl :: J)
      with (45%N :: (32%N :: i0 :: i') ++ nl :: J).
    etransitivity;
      [apply (replace_go_match re_ul f p 45%N (32%N :: i0 :: i') (nl :: J)
                (MState (last_char i' (Some i0)) (nl :: J) [(1, i0 :: i')]));
       [now apply (ul_match p i0 i' (nl :: J))|reflexivity]|].
    cbn [caps]; unfold f at 1; cbn [capture Nat.eqb].
    rewrite <- !app_assoc; do 2 f_equal.
    assert (Step : forall c,
               is_line_terminator c = false ->
               replace_go re_ul f (Some c) (nl :: J) 0 = nl :: J').
    { intros c Hc; cbn [replace_go].
      destruct (match_at re_ul (Some c) (nl :: J)) as [y|] eqn:M.
      - apply ul_not_bol in M; now rewrite Hc in M.
      - f_equal; apply IH; easy. }
    destruct (last_char_in (32%N :: i0 :: i') (Some 45%N)) as (c & E & I);
      [easy|].
    f_equal; etransitivity; [|apply (Step c)].
    + f_equal; exact E.
    + destruct I as [<-|I]; [reflexivity|].
      rewrite forallb_forall in Di; apply Di in I.
      unfold dot in I; now apply negb_true_iff in I.
Qed.

(** *** Merging the one-item lists *)

Lemma step_none (re : regex) (f : list (nat * jsstring) -> jsstring)
    (p : option char) (c : char) (t : jsstring) :
  match_at re p (c :: t) = None ->
  replace_go re f p (c :: t) 0 = c :: replace_go re f (Some c) t 0.
Proof. intros M; cbn [replace_go]; now rewrite M. Qed.

Lemma merge_none (close open : jsstring) (p : option char) (s : jsstring) :
  startsWith s close = false -> match_at (re_merge close open) p s = None.
Proof.
  intros H; destruct (match_at (re_merge close open) p s) as [y|] eqn:M;
    [|easy].
  apply merge_first in M; congruence.
Qed.

Lemma merge_match (close open t : jsstring) (p : option char) :
  match_at (re_merge close open) p (close ++ [nl] ++ open ++ t) =
  Some (MState (last_char open (Some nl)) t []).
Proof.
  rewrite match_at_bt; unfold re_merge, Opt.
  rewrite bt_seq, bt_lit, bt_seq, bt_alt, (bt_lit [nl]), bt_lit.
  reflexivity.
Qed.

(** Text without [<] is copied. *)
Lemma merge_copy (close' open x t : jsstring) :
  existsb (N.eqb 60) x = false ->
  forall p,
    replace_go (re_merge (60%N :: close') open) (template []) p (x ++ t) 0 =
    x ++ replace_go (re_merge (60%N :: close') open) (template [])
           (last_char x p) t 0.
Proof.
  induction x as [|c x IH]; intros H p; [reflexivity|].
  cbn [existsb] in H; apply orb_false_elim in H as [Hc H].
  cbn [app last_char]; rewrite step_none, IH; [easy|easy|].
  apply merge_none; cbn [startsWith]; now rewrite Hc.
Qed.

Ltac copy_tag :=
  repeat (rewrite step_none by (apply merge_none; reflexivity)).

Lemma join_cons (l : jsstring) (ls : list jsstring) :
  join_lines (l :: ls) =
  l ++ match ls with [] => [] | _ :: _ => nl :: join_lines ls end.
Proof. destruct ls; cbn [join_lines]; [now rewrite app_nil_r|reflexivity]. Qed.

(** Behind an item, the end of its list and the beginning of the next are
    removed. *)
Lemma merge_junction (x : char) (i T : jsstring) (p : option char) :
  x = 117%N \/ x = 111%N ->
  existsb (N.eqb 60) (trim i) = false ->
  replace_go (re_merge [60; 47; x; 108; 62]%N [60; x; 108; 62]%N)
    (template []) p
    (str "<li>" ++ trim i ++ str "</li>" ++ [60; 47; x; 108; 62]%N ++
     nl :: [60; x; 108; 62]%N ++ T) 0 =
  str "<li>" ++ trim i ++ str "</li>" ++
  replace_go (re_merge [60; 47; x; 108; 62]%N [60; x; 108; 62]%N)
    (template []) (Some 62%N) T 0.
Proof.
  intros X Hi; norm_str; cbn [app].
  destruct X as [-> | ->]; copy_tag;
    rewrite merge_copy by easy; cbn [app]; copy_tag;
    do 10 apply f_equal;
    (etransitivity;
     [apply (replace_go_match _ _ _ 60%N
               ([47; _; 108; 62]%N ++ nl :: [60; _; 108; 62]%N) T
               (MState (Some 62%N) T []));
      [apply (merge_match [60; 47; _; 108; 62]%N [60; _; 108; 62]%N T)
      |reflexivity]|]);
    reflexivity.
Qed.

Lemma merge_last (x : char) (i : jsstring) (p : option char) :
  x = 117%N \/ x = 111%N ->
  existsb (N.eqb 60) (trim i) = false ->
  replace_go (re_merge [60; 47; x; 108; 62]%N [60; x; 108; 62]%N)
    (template []) p
    (str "<li>" ++ trim i ++ str "</li>" ++ [60; 47; x; 108; 62]%N) 0 =
  str "<li>" ++ trim i ++ str "</li>" ++ [60; 47; x; 108; 62]%N.
Proof.
  intros X Hi; norm_str; cbn [app].
  destruct X as [-> | ->]; copy_tag;
    rewrite merge_copy by easy; cbn [app]; copy_tag;
    reflexivity.
Qed.

(** The items of the one-item lists, which the first replacement has put on
    a line each, end up in one list. *)
Lemma merge_items (x : char) (items : list jsstring) :
  x = 117%N \/ x = 111%N ->
  (forall j, In j items -> existsb (N.eqb 60) (trim j) = false) ->
  forall i p,
    existsb (N.eqb 60) (trim i) = false ->
    replace_go (re_merge [60; 47; x; 108; 62]%N [60; x; 108; 62]%N)
      (template []) p
      (str "<li>" ++ trim i ++ str "</li>" ++ [60; 47; x; 108; 62]%N ++
       match List.map (fun j => [60; x; 108; 62]%N ++ str "<li>" ++
                                trim j ++ str "</li>" ++
                                [60; 47; x; 108; 62]%N) items with
       | [] => []
       | _ :: _ =>
           nl :: join_lines
                   (List.map (fun j => [60; x; 108; 62]%N ++ str "<li>" ++
                                       trim j ++ str "</li>" ++
                                       [60; 47; x; 108; 62]%N) items)
       end) 0 =
    str "<li>" ++ trim i ++ str "</li>" ++
    concat (List.map (fun j => str "<li>" ++ trim j ++ str "</li>") items) ++
    [60; 47; x; 108; 62]%N.
Proof.
  intros X; induction items as [|j r IH]; intros F i p Hi.
  - cbn [List.map concat]; rewrite app_nil_r.
    now apply merge_last.
  - assert (Hj : existsb (N.eqb 60) (trim j) = false)
      by (apply F; now left).
    assert (Fr : forall j0, In j0 r -> existsb (N.eqb 60) (trim j0) = false)
      by (intros j0 I; apply F; now right).
    specialize (IH Fr j (Some 62%N) Hj).
    cbn [List.map concat]; rewrite join_cons, <- !app_assoc.
    rewrite (merge_junction x i _ p X Hi).
    do 3 f_equal; rewrite <- ?app_assoc in IH |- *; exact IH.
Qed.

Lemma join_lacks (K : char -> bool) (ls : list jsstring) :
  K nl = false -> (forall l, In l ls -> existsb K l = false) ->
  existsb K (join_lines ls) = false.
Proof.
  intros N; induction ls as [|l ls IH]; intros H; [reflexivity|].
  rewrite join_cons, existsb_app, (H l (or_introl eq_refl)); cbn [orb].
  destruct ls as [|l' ls']; [reflexivity|].
  cbn [existsb]; rewrite N; cbn [orb].
  apply IH; intros l0 I; apply H; now right.
Qed.

Lemma concat_lacks (K : char -> bool) (ls : list jsstring) :
  (forall l, In l ls -> existsb K l = false) -> existsb K (concat ls) = false.
Proof.
  induction ls as [|l ls IH]; intros H; [reflexivity|].
  cbn [concat]; rewrite existsb_app, (H l (or_introl eq_refl)); cbn [orb].
  apply IH; intros l0 I; apply H; now right.
Qed.

(** The first replacement and the merge, on a block of list lines. *)
Lemma unorderedLists_block (i : jsstring) (rest : list jsstring) :
  forallb item_text (i :: rest) = true ->
  unorderedLists (join_lines (List.map (fun i => str "- " ++ i) (i :: rest))) =
  str "<ul>" ++
  concat (List.map (fun i => str "<li>" ++ trim i ++ str "</li>") (i :: rest)) ++
  str "</ul>".
Proof.
  intros F; unfold unorderedLists; cbv zeta; unfold replace at 2.
  rewrite (ul_lines (i :: rest) F None I).
  assert (L : forall j, In j (i :: rest) -> existsb (N.eqb 60) (trim j) = false).
  { intros j Ij; rewrite forallb_forall in F; apply F in Ij.
    destruct (item_text_parts j Ij) as (Pj & _); lacks. }
  unfold replace.
  change (List.map (fun i0 => str "<ul><li>" ++ trim i0 ++ str "</li></ul>")
                   (i :: rest))
    with (List.map (fun j => [60; 117; 108; 62]%N ++ str "<li>" ++ trim j ++
                             str "</li>" ++ [60; 47; 117; 108; 62]%N)
                   (i :: rest)).
  cbn [List.map]; rewrite join_cons, <- !app_assoc.
  change (str "</ul>") with [60; 47; 117; 108; 62]%N.
  change (str "<ul>") with [60; 117; 108; 62]%N.
  cbn [app]; copy_tag.
  do 4 apply f_equal.
  etransitivity;
    [apply (merge_items 117%N rest (or_introl eq_refl)
              (fun j Ij => L j (or_intror Ij)) i (Some 62%N)
              (L i (or_introl eq_refl)))|].
  cbn [concat]; now rewrite <- !app_assoc.
Qed.

Lemma lines_lack (K : char -> bool) (items : list jsstring) :
  K nl = false -> existsb K (str "- ") = false ->
  (forall c, K c = true -> markup_char c = true) ->
  forallb item_text items = true ->
  existsb K (join_lines (List.map (fun i => str "- " ++ i) items)) = false.
Proof.
  intros N M HK F; apply join_lacks; [easy|].
  intros l I; apply in_map_iff in I as (j & <- & Ij).
  rewrite forallb_forall in F; apply F in Ij.
  destruct (item_text_parts j Ij) as (Pj & _).
  rewrite existsb_app, M; cbn [orb]; now apply plain_lacks.
Qed.

Lemma items_lack (K : char -> bool) (items : list jsstring) :
  existsb K (str "<li>") = false -> existsb K (str "</li>") = false ->
  (forall c, K c = true -> markup_char c = true) ->
  forallb item_text items = true ->
  existsb K (concat (List.map (fun i => str "<li>" ++ trim i ++ str "</li>")
                              items)) = false.
Proof.
  intros A B HK F; apply concat_lacks.
  intros l I; apply in_map_iff in I as (j & <- & Ij).
  rewrite forallb_forall in F; apply F in Ij.
  destruct (item_text_parts j Ij) as (Pj & _).
  rewrite !existsb_app, A, B, orb_false_r; cbn [orb].
  now apply plain_lacks, plain_trim.
Qed.

(** The items of a list hold the closing tag of no list. *)
Lemma items_no_word (x : char) (items : list jsstring) (t : jsstring) :
  x = 117%N \/ x = 111%N ->
  forallb item_text items = true ->
  includes t [60; 47; x; 108; 62]%N = false ->
  includes (concat (List.map (fun i => str "<li>" ++ trim i ++ str "</li>")
                             items) ++ t) [60; 47; x; 108; 62]%N = false.
Proof.
  intros X; induction items as [|j r IH]; intros F T; [exact T|].
  cbn [forallb] in F; apply andb_prop in F as [Fj F].
  destruct (item_text_parts j Fj) as (Pj & _).
  specialize (IH F T).
  cbn [List.map concat]; rewrite <- !app_assoc.
  destruct X as [-> | ->]; no_word; exact IH.
Qed.

Lemma bullet_list (i : jsstring) (rest : list jsstring) :
  forallb item_text (i :: rest) = true ->
  inlinePasses
    (VString (join_lines (List.map (fun i => str "- " ++ i) (i :: rest)))) =
  str "<ul>" ++
  concat (List.map (fun i => str "<li>" ++ trim i ++ str "</li>") (i :: rest)) ++
  str "</ul>".
Proof.
  intros F; unfold inlinePasses, escapeHtml; cbv zeta.
  rewrite escape_keep
    by (apply lines_lack; first [reflexivity|exact special_markup|easy]).
  rewrite codeBlocks_idle
    by (apply lines_lack;
        first [reflexivity|exact (key_markup 96%N eq_refl)|easy]).
  rewrite inlineCode_idle
    by (apply lines_lack;
        first [reflexivity|exact (key_markup 96%N eq_refl)|easy]).
  rewrite speakerLabels_idle
    by (apply lines_lack;
        first [reflexivity|exact (key_markup 58%N eq_refl)|easy]).
  unfold bold.
  change (str "**") with [42; 42]%N; change (str "__") with [95; 95]%N.
  rewrite (strong_idle 42%N)
    by (apply lines_lack;
        first [reflexivity|exact (key_markup 42%N eq_refl)|easy]).
  rewrite (strong_idle 95%N)
    by (apply lines_lack;
        first [reflexivity|exact (key_markup 95%N eq_refl)|easy]).
  rewrite italic_idle
    by (apply lines_lack;
        first [reflexivity|exact (key_markup 42%N eq_refl)
              |exact (key_markup 95%N eq_refl)|easy]).
  rewrite (unorderedLists_block i rest F).
  apply orderedLists_idle.
  - rewrite existsb_app; apply orb_false_intro; [reflexivity|].
    rewrite existsb_app; apply orb_false_intro; [|reflexivity].
    apply items_lack; first [reflexivity|exact digit_markup|easy].
  - change (str "</ol>") with [60; 47; 111; 108; 62]%N.
    norm_str; cbn [app].
    rewrite includes_cons_same; cbn [startsWith N.eqb Pos.eqb andb orb].
    repeat (rewrite includes_cons_other by reflexivity).
    apply (items_no_word 111%N); [now right|easy|reflexivity].
Qed.

Lemma trim_enclosed (c d : char) (s : jsstring) :
  is_space c = false -> is_space d = false ->
  trim (c :: s ++ [d]) = c :: s ++ [d].
Proof.
  intros Hc Hd; unfold trim; cbn [trimStart]; rewrite Hc.
  unfold trimEnd.
  change (c :: s ++ [d]) with ((c :: s) ++ [d]).
  rewrite rev_app_distr; cbn [rev app trimStart]; rewrite Hd.
  change (d :: rev s ++ [c]) with ([d] ++ rev (c :: s)).
  now rewrite rev_app_distr, rev_involutive.
Qed.

Lemma bullet_list_line (i : jsstring) (rest : list jsstring) :
  forallb item_text (i :: rest) = true ->
  markdownToHtml
    (VString (join_lines (List.map (fun i => str "- " ++ i) (i :: rest)))) =
  Ok (str "<ul>" ++
      concat (List.map (fun i => str "<li>" ++ trim i ++ str "</li>")
                       (i :: rest)) ++
      str "</ul>").
Proof.
  intros F.
  set (X := concat (List.map (fun i => str "<li>" ++ trim i ++ str "</li>")
                             (i :: rest))).
  assert (T : trim (str "<ul" ++ 62%N :: X ++ str "</ul>") =
              str "<ul>" ++ X ++ str "</ul>").
  { replace (str "<ul" ++ 62%N :: X ++ str "</ul>")
      with (60%N :: (str "ul>" ++ X ++ str "</ul") ++ [62%N])
      by (rewrite <- !app_assoc; reflexivity).
    rewrite trim_enclosed by reflexivity.
    rewrite <- !app_assoc; reflexivity. }
  rewrite <- T.
  apply (render_container_line _ (str "<ul") (X ++ str "</ul>")).
  - right; right; now left.
  - now apply bullet_list.
  - change (str "<ul" ++ 62%N :: X ++ str "</ul>")
      with (str "<ul>" ++ X ++ str "</ul>").
    rewrite existsb_app; apply orb_false_intro; [reflexivity|].
    rewrite existsb_app; apply orb_false_intro; [|reflexivity].
    apply concat_lacks; intros l I.
    apply in_map_iff in I as (j & <- & Ij).
    rewrite forallb_forall in F; apply F in Ij.
    destruct (item_text_parts j Ij) as (_ & Dj & _).
    assert (Dt : forallb dot (trim j) = true).
    { rewrite forallb_forall in *; intros c I; now apply Dj, trim_incl. }
    rewrite existsb_app; apply orb_false_intro; [reflexivity|].
    rewrite existsb_app; apply orb_false_intro; [|reflexivity].
    now apply dot_no_nl.
  - cbn [blank_input]; apply (not_blank _ 45%N); [|reflexivity].
    cbn [List.map]; rewrite join_cons; now left.
Qed.

(** *** Ordered lists *)

Lemma digit_not_space (c : char) : digit c = true -> is_space c = false.
Proof.
  intros H; destruct (is_space c) eqn:S; [exfalso|easy].
  unfold digit, is_space in *.
  rewrite ?orb_true_iff, ?andb_true_iff, ?N.eqb_eq, ?N.leb_le in *; lia.
Qed.

Lemma ol_match (p : option char) (n0 : char) (n' : jsstring) (i0 : char)
    (i' t : jsstring) :
  match p with None => True | Some c => is_line_terminator c = true end ->
  digit n0 = true -> forallb digit n' = true ->
  is_space i0 = false -> forallb dot (i0 :: i') = true ->
  match t with [] => True | c :: _ => dot c = false end ->
  match_at re_ol p (n0 :: n' ++ 46%N :: 32%N :: (i0 :: i') ++ t) =
  Some (MState (last_char i' (Some i0)) t [(1, i0 :: i')]).
Proof.
  intros B N0 N' S0 D T; rewrite match_at_bt; unfold re_ol, Plus.
  rewrite bt_seq, bt_bol.
  assert (A : at_bol true
                (MState p (n0 :: n' ++ 46%N :: 32%N :: (i0 :: i') ++ t) []) = true).
  { unfold at_bol; cbn [prev]; destruct p as [c|]; [now rewrite B|easy]. }
  rewrite A.
  rewrite bt_seq, bt_greedy_stop
    by (cbn [rest]; now apply digit_not_space).
  rewrite bt_seq, bt_seq, bt_cls by exact N0.
  rewrite bt_star_eq.
  apply bt_greedy_cls; [cbn [rest]; lia|easy| |reflexivity].
  rewrite bt_seq, (bt_lit1 46%N).
  rewrite bt_seq, bt_seq, bt_cls by reflexivity.
  rewrite bt_greedy_stop by (cbn [rest app]; exact S0).
  rewrite bt_group, bt_star_eq.
  apply bt_greedy_cls; [cbn [rest]; lia|easy| |easy].
  cbn [prev rest caps last_char].
  now rewrite (consumed_app _ _ (i0 :: i')) by reflexivity.
Qed.

Lemma ol_not_bol (c : char) (s : jsstring) (y : mstate) :
  match_at re_ol (Some c) s = Some y -> is_line_terminator c = true.
Proof.
  intros M; apply hd_in in M; unfold re_ol in M; inv_m.
  match goal with
  | H : at_bol true _ = true |- _ => unfold at_bol in H; cbn [prev] in H
  end.
  easy.
Qed.

Lemma numbered_parts (ni : jsstring * jsstring) :
  numbered ni = true ->
  (exists n0 n', fst ni = n0 :: n' /\ digit n0 = true /\
                 forallb digit n' = true) /\
  item_text (snd ni) = true.
Proof.
  unfold numbered; intros H; apply andb_prop in H as [N I]; split; [|easy].
  destruct (fst ni) as [|n0 n']; [easy|].
  cbn [forallb] in N; apply andb_prop in N as [N0 N'].
  now exists n0, n'.
Qed.

Lemma ol_lines (items : list (jsstring * jsstring)) :
  forallb numbered items = true ->
  forall p,
    match p with None => True | Some c => is_line_terminator c = true end ->
    replace_go re_ol
      (fun cs => str "<ol><li>" ++ trim (capture cs 1) ++ str "</li></ol>")
      p (join_lines
           (List.map (fun ni => fst ni ++ str ". " ++ snd ni) items)) 0 =
    join_lines
      (List.map (fun ni => str "<ol><li>" ++ trim (snd ni) ++ str "</li></ol>")
                items).
Proof.
  set (f := fun cs => str "<ol><li>" ++ trim (capture cs 1) ++ str "</li></ol>").
  assert (E0 : forall q, replace_go re_ol f q [] 0 = []).
  { intros q; cbn [replace_go].
    destruct (match_at re_ol q []) as [y|] eqn:M; [|easy].
    now apply ol_trigger in M. }
  induction items as [|[n i] rest IH]; intros F p B; [apply E0|].
  cbn [forallb] in F; apply andb_prop in F as [Fi F].
  destruct (numbered_parts _ Fi) as ((n0 & n' & En & N0 & N') & Ti).
  cbn [fst snd] in En, Ti; subst n.
  destruct (item_text_parts i Ti) as (Pi & Di & i0 & i' & -> & S0).
  cbn [List.map fst snd]; rewrite join_cons.
  set (tl := match List.map (fun ni => fst ni ++ str ". " ++ snd ni) rest with
             | [] => []
             | _ :: _ =>
                 nl :: join_lines
                         (List.map (fun ni => fst ni ++ str ". " ++ snd ni) rest)
             end).
  assert (Tl : match tl with [] => True | c :: _ => dot c = false end)
    by (unfold tl; destruct rest; cbn [List.map]; easy).
  transitivity (replace_go re_ol f p
                  (n0 :: (n' ++ 46%N :: 32%N :: i0 :: i') ++ tl) 0);
    [f_equal; cbn [app]; now rewrite <- !app_assoc|].
  etransitivity;
    [apply (replace_go_match re_ol f p n0 (n' ++ 46%N :: 32%N :: i0 :: i') tl
              (MState (last_char i' (Some i0)) tl [(1, i0 :: i')]));
     [|reflexivity]|].
  { rewrite <- app_assoc; cbn [app].
    now apply (ol_match p n0 n' i0 i' tl). }
  cbn [caps]; unfold f at 1; cbn [capture Nat.eqb].
  rewrite join_cons, <- !app_assoc; do 3 f_equal.
  unfold tl; destruct rest as [|nj r]; [cbn [List.map]; apply E0|].
  cbn [List.map].
  set (J := join_lines _) in *.
  set (J' := join_lines _).
  destruct (last_char_in (n' ++ 46%N :: 32%N :: i0 :: i') (Some n0))
    as (c & Ec & Ic); [now destruct n'|].
  assert (Hc : is_line_terminator c = false).
  { apply in_app_or in Ic as [Ic|Ic].
    - rewrite forallb_forall in N'; apply N' in Ic.
      destruct (is_line_terminator c) eqn:L; [|easy].
      apply line_terminator_space in L.
      now rewrite (digit_not_space c Ic) in L.
    - destruct Ic as [<-|[<-|Ic]]; [reflexivity|reflexivity|].
      rewrite forallb_forall in Di; apply Di in Ic.
      unfold dot in Ic; now apply negb_true_iff in Ic. }
  transitivity (replace_go re_ol f (Some c) (nl :: J) 0);
    [f_equal; exact Ec|].
  cbn [replace_go].
  destruct (match_at re_ol (Some c) (nl :: J)) as [y|] eqn:M.
  - apply ol_not_bol in M; now rewrite Hc in M.
  - f_equal; apply IH; easy.
Qed.

Lemma numbers_lack (K : char -> bool) (items : list (jsstring * jsstring)) :
  K nl = false -> existsb K (str ". ") = false ->
  (forall c, K c = true -> markup_char c = true) ->
  (forall c, digit c = true -> K c = false) ->
  forallb numbered items = true ->
  existsb K (join_lines
               (List.map (fun ni => fst ni ++ str ". " ++ snd ni) items)) =
  false.
Proof.
  intros N M HK HD F; apply join_lacks; [easy|].
  intros l I; apply in_map_iff in I as ([n i] & <- & Ij).
  rewrite forallb_forall in F; apply F in Ij.
  destruct (numbered_parts _ Ij) as ((n0 & n' & En & N0 & N') & Ti).
  cbn [fst snd] in *; subst n.
  destruct (item_text_parts i Ti) as (Pi & _).
  rewrite !existsb_app, M; cbn [orb existsb].
  rewrite (HD n0 N0), (plain_lacks K i HK Pi), orb_false_r; cbn [orb].
  destruct (existsb K n') eqn:E; [|easy].
  apply existsb_exists in E as (c & Ic & Kc).
  rewrite forallb_forall in N'; apply N' in Ic.
  now rewrite (HD c Ic) in Kc.
Qed.

Ltac digits_out :=
  let c := fresh "c" in
  let D := fresh "D" in
  intros c D; unfold digit in D;
  apply andb_prop in D as [? ?];
  repeat match goal with
         | H : (_ <=? _)%N = true |- _ => apply N.leb_le in H
         end;
  unfold one_of; norm_str; cbn [existsb];
  rewrite ?orb_false_iff; repeat split; try reflexivity;
  apply N.eqb_neq; lia.

Lemma orderedLists_block (ni : jsstring * jsstring)
    (rest : list (jsstring * jsstring)) :
  forallb numbered (ni :: rest) = true ->
  orderedLists
    (join_lines (List.map (fun ni => fst ni ++ str ". " ++ snd ni)
                          (ni :: rest))) =
  str "<ol>" ++
  concat (List.map (fun ni => str "<li>" ++ trim (snd ni) ++ str "</li>")
                   (ni :: rest)) ++
  str "</ol>".
Proof.
  intros F; unfold orderedLists; cbv zeta; unfold replace at 2.
  rewrite (ol_lines (ni :: rest) F None I).
  assert (L : forall nj, In nj (ni :: rest) ->
                         existsb (N.eqb 60) (trim (snd nj)) = false).
  { intros nj Ij; rewrite forallb_forall in F; apply F in Ij.
    destruct (numbered_parts _ Ij) as (_ & Tj).
    destruct (item_text_parts _ Tj) as (Pj & _); lacks. }
  unfold replace.
  set (wrap := fun j => [60; 111; 108; 62]%N ++ str "<li>" ++ trim j ++
                        str "</li>" ++ [60; 47; 111; 108; 62]%N).
  set (li := fun j => str "<li>" ++ trim j ++ str "</li>").
  transitivity
    (replace_go (re_merge (str "</ol>") (str "<ol>")) (template []) None
       (join_lines (List.map wrap (List.map snd (ni :: rest)))) 0);
    [f_equal; f_equal; now rewrite map_map|].
  transitivity (str "<ol>" ++ concat (List.map li (List.map snd (ni :: rest)))
                ++ str "</ol>");
    [|now rewrite map_map].
  cbn [List.map]; rewrite join_cons; unfold wrap at 1.
  rewrite <- !app_assoc.
  change (str "</ol>") with [60; 47; 111; 108; 62]%N.
  change (str "<ol>") with [60; 111; 108; 62]%N.
  cbn [app]; copy_tag.
  do 4 apply f_equal.
  etransitivity;
    [apply (merge_items 111%N (List.map snd rest) (or_intror eq_refl))|].
  - intros j Ij; apply in_map_iff in Ij as (nj & <- & Inj).
    apply L; now right.
  - apply L; now left.
  - cbn [concat]; unfold li; now rewrite <- !app_assoc.
Qed.

Lemma numbered_list (ni : jsstring * jsstring)
    (rest : list (jsstring * jsstring)) :
  forallb numbered (ni :: rest) = true ->
  inlinePasses
    (VString (join_lines (List.map (fun ni => fst ni ++ str ". " ++ snd ni)
                                   (ni :: rest)))) =
  str "<ol>" ++
  concat (List.map (fun ni => str "<li>" ++ trim (snd ni) ++ str "</li>")
                   (ni :: rest)) ++
  str "</ol>".
Proof.
  intros F; unfold inlinePasses, escapeHtml; cbv zeta.
  rewrite escape_keep
    by (apply numbers_lack;
        first [reflexivity|exact special_markup|digits_out|easy]).
  rewrite codeBlocks_idle
    by (apply numbers_lack;
        first [reflexivity|exact (key_markup 96%N eq_refl)|digits_out|easy]).
  rewrite inlineCode_idle
    by (apply numbers_lack;
        first [reflexivity|exact (key_markup 96%N eq_refl)|digits_out|easy]).
  rewrite speakerLabels_idle
    by (apply numbers_lack;
        first [reflexivity|exact (key_markup 58%N eq_refl)|digits_out|easy]).
  unfold bold.
  change (str "**") with [42; 42]%N; change (str "__") with [95; 95]%N.
  rewrite (strong_idle 42%N)
    by (apply numbers_lack;
        first [reflexivity|exact (key_markup 42%N eq_refl)|digits_out|easy]).
  rewrite (strong_idle 95%N)
    by (apply numbers_lack;
        first [reflexivity|exact (key_markup 95%N eq_refl)|digits_out|easy]).
  rewrite italic_idle
    by (apply numbers_lack;
        first [reflexivity|exact (key_markup 42%N eq_refl)
              |exact (key_markup 95%N eq_refl)|digits_out|easy]).
  rewrite unorderedLists_idle.
  - now apply orderedLists_block.
  - apply numbers_lack;
      first [reflexivity|exact marks_markup|digits_out|easy].
  - change (str "</ul>") with (60%N :: str "/ul>").
    apply includes_none, numbers_lack;
      first [reflexivity|exact (key_markup 60%N eq_refl)|digits_out|easy].
Qed.

Lemma numbered_list_line (ni : jsstring * jsstring)
    (rest : list (jsstring * jsstring)) :
  forallb numbered (ni :: rest) = true ->
  markdownToHtml
    (VString (join_lines (List.map (fun ni => fst ni ++ str ". " ++ snd ni)
                                   (ni :: rest)))) =
  Ok (str "<ol>" ++
      concat (List.map (fun ni => str "<li>" ++ trim (snd ni) ++ str "</li>")
                       (ni :: rest)) ++
      str "</ol>").
Proof.
  intros F.
  set (X := concat (List.map
                      (fun ni => str "<li>" ++ trim (snd ni) ++ str "</li>")
                      (ni :: rest))).
  assert (T : trim (str "<ol" ++ 62%N :: X ++ str "</ol>") =
              str "<ol>" ++ X ++ str "</ol>").
  { replace (str "<ol" ++ 62%N :: X ++ str "</ol>")
      with (60%N :: (str "ol>" ++ X ++ str "</ol") ++ [62%N])
      by (rewrite <- !app_assoc; reflexivity).
    rewrite trim_enclosed by reflexivity.
    rewrite <- !app_assoc; reflexivity. }
  rewrite <- T.
  apply (render_container_line _ (str "<ol") (X ++ str "</ol>")).
  - right; right; right; now left.
  - now apply numbered_list.
  - change (str "<ol" ++ 62%N :: X ++ str "</ol>")
      with (str "<ol>" ++ X ++ str "</ol>").
    rewrite existsb_app; apply orb_false_intro; [reflexivity|].
    rewrite existsb_app; apply orb_false_intro; [|reflexivity].
    apply concat_lacks; intros l I.
    apply in_map_iff in I as (nj & <- & Ij).
    rewrite forallb_forall in F; apply F in Ij.
    destruct (numbered_parts _ Ij) as (_ & Tj).
    destruct (item_text_parts _ Tj) as (_ & Dj & _).
    assert (Dt : forallb dot (trim (snd nj)) = true).
    { rewrite forallb_forall in *; intros c I; now apply Dj, trim_incl. }
    rewrite existsb_app; apply orb_false_intro; [reflexivity|].
    rewrite existsb_app; apply orb_false_intro; [|reflexivity].
    now apply dot_no_nl.
  - cbn [blank_input].
    cbn [forallb] in F; apply andb_prop in F as [F0 _].
    destruct (numbered_parts _ F0) as ((n0 & n' & En & N0 & _) & _).
    apply (not_blank _ n0); [|now apply digit_not_space].
    cbn [List.map]; rewrite join_cons.
    apply in_or_app; left; apply in_or_app; left.
    assert (G : forall l : jsstring, l = n0 :: n' -> In n0 l)
      by (intros l ->; now left).
    exact (G _ En).
Qed.

End Lists.

Section ListMarkup.

(** X21. Bullet lists.  Lines that each consist of a hyphen, a space and an
    item, where every item is text that holds none of the characters the
    passes react to, holds no line terminator and does not begin with white
    space, come out of the inline passes as one unordered list with one
    entry per line, each entry the trimmed item; [markdownToHtml] returns
    that list as it is, with no paragraph around it. *)
Theorem bullet_list_rendered :
  forall (i : jsstring) (rest : list jsstring),
    forallb item_text (i :: rest) = true ->
    inlinePasses
      (VString (join_lines (List.map (fun i => str "- " ++ i) (i :: rest)))) =
    str "<ul>" ++
    concat (List.map (fun i => str "<li>" ++ trim i ++ str "</li>")
                     (i :: rest)) ++
    str "</ul>" /\
    markdownToHtml
      (VString (join_lines (List.map (fun i => str "- " ++ i) (i :: rest)))) =
    Ok (str "<ul>" ++
        concat (List.map (fun i => str "<li>" ++ trim i ++ str "</li>")
                         (i :: rest)) ++
        str "</ul>").
Proof.
  intros i rest F; split.
  - now apply bullet_list.
  - now apply bullet_list_line.
Qed.

Lemma bullet_list_rendered_witness :
  markdownToHtml (VString (str "- milk
- two eggs 
- flour")) =
  Ok (str "<ul><li>milk</li><li>two eggs</li><li>flour</li></ul>").
Proof.
  exact (proj2 (bullet_list_rendered
                  (str "milk") [str "two eggs "; str "flour"] eq_refl)).
Defined.

(** X22. Numbered lists.  Lines that each consist of a number written in
    digits, a full stop, a space and an item, with the items as above, come
    out of the inline passes as one ordered list with one entry per line,
    each entry the trimmed item: the numbers written in the input are
    dropped; [markdownToHtml] returns that list as it is, with no paragraph
    around it. *)
Theorem numbered_list_rendered :
  forall (ni : jsstring * jsstring) (rest : list (jsstring * jsstring)),
    forallb numbered (ni :: rest) = true ->
    inlinePasses
      (VString (join_lines (List.map (fun ni => fst ni ++ str ". " ++ snd ni)
                                     (ni :: rest)))) =
    str "<ol>" ++
    concat (List.map (fun ni => str "<li>" ++ trim (snd ni) ++ str "</li>")
                     (ni :: rest)) ++
    str "</ol>" /\
    markdownToHtml
      (VString (join_lines (List.map (fun ni => fst ni ++ str ". " ++ snd ni)
                                     (ni :: rest)))) =
    Ok (str "<ol>" ++
        concat (List.map (fun ni => str "<li>" ++ trim (snd ni) ++ str "</li>")
                         (ni :: rest)) ++
        str "</ol>").
Proof.
  intros ni rest F; split.
  - now apply numbered_list.
  - now apply numbered_list_line.
Qed.

Lemma numbered_list_rendered_witness :
  markdownToHtml (VString (str "1. open the page
2. paste the link
10. read")) =
  Ok (str "<ol><li>open the page</li><li>paste the link</li><li>read</li></ol>").
Proof.
  exact (proj2 (numbered_list_rendered
                  (str "1", str "open the page")
                  [(str "2", str "paste the link"); (str "10", str "read")]
                  eq_refl)).
Defined.

End ListMarkup.

(** ** Speaker labels *)

Section SpeakerLabels.

(** A greedy class iteration in front of a character outside the class reads
    the whole run: every shorter run has a character of the class where the
    pattern wants the other one. *)
Lemma bt_greedy_then (p : char -> bool) (c : char) (t : jsstring)
    (cs : list (nat * jsstring)) (k : mstate -> option mstate) :
  p c = false ->
  forall w n q,
    length (w ++ c :: t) < n -> forallb p w = true ->
    bt_star (bt (Cls p)) true n (MState q (w ++ c :: t) cs)
            (fun y => bt (Lit [c]) y k) =
    k (MState (Some c) t cs).
Proof.
  intros Pc; induction w as [|a w IH]; intros n q L F;
    (destruct n; [simpl in L; lia|]); cbn [bt_star].
  - cbn [app]; rewrite bt_cls_fail by exact Pc.
    apply bt_lit1.
  - cbn [forallb] in F; apply andb_prop in F as [Pa F].
    cbn [app]; rewrite bt_cls by exact Pa; cbn [rest].
    assert (Lt : (length (w ++ c :: t) <? length (a :: w ++ c :: t)) = true)
      by (apply Nat.ltb_lt; simpl; lia).
    rewrite Lt, (IH n (Some a)); [|simpl in L; lia|easy].
    destruct (k (MState (Some c) t cs)) as [z|]; [reflexivity|].
    apply bt_lit1_fail.
    destruct (N.eqb_spec c a) as [->|]; [congruence|reflexivity].
Qed.

Lemma alnum_not_colon : alnum 58%N = false.
Proof. reflexivity. Qed.

(** The group of the speaker pattern on a label: whatever follows in the
    pattern continues behind the colon, with the label captured. *)
Lemma bt_label (w : char) (tok t : jsstring) (q : option char)
    (k : mstate -> option mstate) :
  is_space w = true -> tok <> [] -> forallb alnum tok = true ->
  bt (Group 1 (Seq (Lit (str "Speaker"))
                   (Seq (Cls is_space)
                        (Seq (Plus true (Cls alnum)) (Lit (str ":"))))))
     (MState q (str "Speaker" ++ w :: tok ++ 58%N :: t) []) k =
  k (MState (Some 58%N) t [(1, str "Speaker" ++ w :: tok ++ [58%N])]).
Proof.
  intros W N A; destruct tok as [|t0 tok]; [easy|].
  cbn [forallb] in A; apply andb_prop in A as [A0 A].
  rewrite bt_group, bt_seq, bt_lit, bt_seq, bt_cls by exact W.
  unfold Plus; rewrite !bt_seq.
  cbn [app]; rewrite bt_cls by exact A0.
  rewrite bt_star_eq; cbn [rest].
  change (str ":") with [58%N].
  rewrite bt_greedy_then; [|reflexivity|exact (le_n _)|exact A].
  cbn [prev rest caps]; f_equal; f_equal; f_equal; f_equal.
  apply consumed_app; cbn [rest].
  now rewrite <- !app_assoc; cbn [app]; rewrite <- !app_assoc.
Qed.

Lemma bt_eps (x : mstate) (k : mstate -> option mstate) : bt Eps x k = k x.
Proof. reflexivity. Qed.

(** Behind the optional opening tag: the label, then the closing tag when it
    is there. *)
Lemma speaker_core (w : char) (tok t : jsstring) (q : option char) :
  is_space w = true -> tok <> [] -> forallb alnum tok = true ->
  exists y suf,
    bt (Seq (Group 1 (Seq (Lit (str "Speaker"))
                          (Seq (Cls is_space)
                               (Seq (Plus true (Cls alnum)) (Lit (str ":"))))))
            (Opt (Lit (str "</strong>"))))
       (MState q (str "Speaker" ++ w :: tok ++ 58%N :: t) []) Some = Some y /\
    caps y = [(1, str "Speaker" ++ w :: tok ++ [58%N])] /\
    t = suf ++ rest y /\ (suf = [] \/ suf = str "</strong>") /\
    (forall X, t = str "</strong>" ++ X -> rest y = X).
Proof.
  intros W N A; rewrite bt_seq, bt_label by assumption.
  unfold Opt; rewrite bt_alt.
  destruct (startsWith t (str "</strong>")) eqn:E.
  - apply startsWith_app in E.
    set (X := skipn (length (str "</strong>")) t) in E.
    clearbody X; subst t; rewrite bt_lit.
    eexists _, (str "</strong>"); split; [reflexivity|].
    cbn [caps rest]; repeat split; [now right|].
    intros X' E'; now apply app_inv_head in E'.
  - rewrite bt_lit_fail by exact E; rewrite bt_eps.
    eexists _, []; split; [reflexivity|].
    cbn [caps rest]; repeat split; [now left|].
    intros X E'; rewrite E' in E.
    now rewrite startsWith_refl in E.
Qed.

(** The speaker pattern finds a label at the start of a line, with or
    without the opening tag in front of it. *)
Lemma speaker_match (p : option char) (pre : jsstring) (w : char)
    (tok t : jsstring) :
  line_start p = true -> pre = [] \/ pre = str "<strong>" ->
  is_space w = true -> tok <> [] -> forallb alnum tok = true ->
  exists y suf,
    match_at re_speaker p (pre ++ str "Speaker" ++ w :: tok ++ 58%N :: t) =
    Some y /\
    caps y = [(1, str "Speaker" ++ w :: tok ++ [58%N])] /\
    t = suf ++ rest y /\ (suf = [] \/ suf = str "</strong>") /\
    (forall X, t = str "</strong>" ++ X -> rest y = X).
Proof.
  intros B P W N A.
  destruct (speaker_core w tok t (last_char pre p) W N A)
    as (y & suf & K & C).
  exists y, suf; split; [|exact C].
  rewrite match_at_bt; unfold re_speaker.
  rewrite bt_seq, bt_bol.
  change (at_bol true (MState p (pre ++ str "Speaker" ++ w :: tok ++ 58%N :: t) []))
    with (line_start p).
  rewrite B, bt_seq; unfold Opt at 1; rewrite bt_alt.
  destruct P as [-> | ->].
  - cbn [app]; rewrite bt_lit_fail by reflexivity.
    rewrite bt_eps; exact K.
  - rewrite bt_lit; now rewrite K.
Qed.

(** And it finds nothing else. *)
Lemma speaker_shape (p : option char) (s : jsstring) (y : mstate) :
  match_at re_speaker p s = Some y ->
  line_start p = true /\
  exists pre w tok t,
    (pre = [] \/ pre = str "<strong>") /\
    is_space w = true /\ tok <> [] /\ forallb alnum tok = true /\
    s = pre ++ str "Speaker" ++ w :: tok ++ 58%N :: t.
Proof.
  intros M; apply hd_in in M; unfold re_speaker in M; inv_m;
    match goal with
    | B : at_bol true _ = true, Hs : is_space ?a = true,
      Ha : alnum ?b = true, Hw : Forall _ ?w |- _ =>
        (split; [exact B|]);
        assert (A : forallb alnum (b :: w) = true)
          by (cbn [forallb]; rewrite Ha; apply forallb_forall;
              now apply Forall_forall);
        first [exists [], a, (b :: w); eexists;
               repeat split; [now left|exact Hs|easy|exact A]
              |exists (str "<strong>"), a, (b :: w); eexists;
               repeat split; [now right|exact Hs|easy|exact A]]
    end.
Qed.

Lemma speaker_none_nil (p : option char) : match_at re_speaker p [] = None.
Proof.
  destruct (match_at re_speaker p []) as [y|] eqn:M; [|reflexivity].
  apply speaker_shape in M as (_ & pre & w & tok & t & [-> | ->] & _ & _ & _ & E);
    discriminate E.
Qed.

Lemma speaker_inside (c : char) (s : jsstring) :
  is_line_terminator c = false -> match_at re_speaker (Some c) s = None.
Proof.
  intros H; destruct (match_at re_speaker (Some c) s) as [y|] eqn:M;
    [|reflexivity].
  apply speaker_shape in M as (B & _).
  unfold line_start, at_bol in B; cbn [prev andb] in B; congruence.
Qed.

(** Inside a line the scan does not depend on the character behind it. *)
Lemma scan_inside (c c' : char) (s : jsstring) :
  is_line_terminator c = false -> is_line_terminator c' = false ->
  replace_go re_speaker strong_template (Some c) s 0 =
  replace_go re_speaker strong_template (Some c') s 0.
Proof.
  intros H H'; destruct s as [|d s]; cbn [replace_go];
    now rewrite !speaker_inside.
Qed.

Lemma strong_template_eq (cs : list (nat * jsstring)) :
  strong_template cs = str "<strong>" ++ capture cs 1 ++ str "</strong>".
Proof.
  unfold strong_template, template; cbn [flat_map]; now rewrite app_nil_r.
Qed.

Lemma replace_go_found (re : regex) (f : list (nat * jsstring) -> jsstring)
    (p : option char) (M t : jsstring) (y : mstate) :
  M <> [] -> match_at re p (M ++ t) = Some y -> rest y = t ->
  replace_go re f p (M ++ t) 0 =
  f (caps y) ++ replace_go re f (last_char M p) t 0.
Proof.
  destruct M as [|c w]; [easy|]; intros _ H R.
  cbn [app last_char]; now apply replace_go_match.
Qed.

(** One step of the speaker pass at a match: the label goes into one
    container, whatever tags stood around it, and the scan goes on behind
    the match, inside the line. *)
Lemma speaker_step (p : option char) (s : jsstring) (y : mstate) :
  match_at re_speaker p s = Some y ->
  exists (w : char) (tok : jsstring) (c : char),
    line_start p = true /\ is_space w = true /\ tok <> [] /\
    forallb alnum tok = true /\ is_line_terminator c = false /\
    length (rest y) < length s /\
    replace_go re_speaker strong_template p s 0 =
    str "<strong>" ++ (str "Speaker" ++ w :: tok ++ [58%N]) ++ str "</strong>" ++
    replace_go re_speaker strong_template (Some c) (rest y) 0.
Proof.
  intros M.
  destruct (speaker_shape p s y M) as (B & pre & w & tok & t & P & W & N & A & ->).
  destruct (speaker_match p pre w tok t B P W N A)
    as (y' & suf & M' & C & T & S & _).
  rewrite M in M'; injection M' as <-.
  set (M0 := pre ++ str "Speaker" ++ w :: tok ++ 58%N :: suf).
  assert (E : pre ++ str "Speaker" ++ w :: tok ++ 58%N :: t = M0 ++ rest y).
  { unfold M0; rewrite T at 1.
    rewrite <- !app_assoc; cbn [app]; now rewrite <- !app_assoc. }
  assert (L : exists c, last_char M0 p = Some c /\ is_line_terminator c = false).
  { unfold M0; rewrite !last_char_app; cbn [last_char]; rewrite last_char_app.
    cbn [last_char]; destruct S as [-> | ->]; eexists; split; reflexivity. }
  destruct L as (c & L & Tc).
  exists w, tok, c; repeat split; try assumption.
  - rewrite E, length_app.
    assert (0 < length M0); [|lia].
    unfold M0; rewrite !length_app; cbn [length]; rewrite length_app.
    cbn [length]; lia.
  - rewrite E, (replace_go_found re_speaker strong_template p M0 (rest y) y);
      [|unfold M0; destruct pre; discriminate|now rewrite <- E|reflexivity].
    now rewrite strong_template_eq, C, L; cbn [capture Nat.eqb];
      rewrite <- !app_assoc.
Qed.

(** Text without [<] at the front of the result stood at the front of the
    input: what the pass writes begins with a tag. *)
Lemma scan_prefix (u : jsstring) :
  forall (t : jsstring) (q : option char) (X : jsstring),
    existsb (N.eqb 60) u = false ->
    replace_go re_speaker strong_template q t 0 = u ++ X ->
    exists t', t = u ++ t'.
Proof.
  induction u as [|a u IH]; intros t q X H E; [now exists t|].
  cbn [existsb] in H; apply orb_false_elim in H as [Ha H].
  destruct t as [|c t].
  - cbn [replace_go] in E; now rewrite speaker_none_nil in E.
  - cbn [replace_go] in E.
    destruct (match_at re_speaker q (c :: t)) as [y|] eqn:M.
    + rewrite strong_template_eq in E; injection E as <- _.
      discriminate Ha.
    + injection E as <- E.
      destruct (IH _ _ _ H E) as (t' & ->); now exists t'.
Qed.

Lemma class_lacks (P : char -> bool) (k : char) (w : jsstring) :
  P k = false -> forallb P w = true -> existsb (N.eqb k) w = false.
Proof.
  intros Pk F; destruct (existsb (N.eqb k) w) eqn:E; [|reflexivity].
  apply existsb_exists in E as (c & I & Ec).
  apply N.eqb_eq in Ec; subst c.
  rewrite forallb_forall in F; apply F in I; congruence.
Qed.

Lemma label_tail_no_lt (w : char) (tok : jsstring) :
  is_space w = true -> forallb alnum tok = true ->
  existsb (N.eqb 60) (w :: tok ++ [58%N]) = false.
Proof.
  intros W A; cbn [existsb]; apply orb_false_intro.
  - destruct (N.eqb_spec 60 w) as [<-|]; [discriminate W|reflexivity].
  - rewrite existsb_app; apply orb_false_intro; [|reflexivity].
    now apply (class_lacks alnum).
Qed.

(** Where the pass found no label, it has written none that a second pass
    could find. *)
Lemma speaker_no_new (p p' : option char) (d : char) (s : jsstring) :
  line_start p = line_start p' ->
  match_at re_speaker p (d :: s) = None ->
  match_at re_speaker p'
    (d :: replace_go re_speaker strong_template (Some d) s 0) = None.
Proof.
  intros B M.
  destruct (match_at re_speaker p'
              (d :: replace_go re_speaker strong_template (Some d) s 0))
    as [y|] eqn:M'; [exfalso|reflexivity].
  destruct (speaker_shape _ _ _ M')
    as (B' & pre & w & tok & t & P & W & N & A & E).
  assert (U : exists u,
             existsb (N.eqb 60) u = false /\
             replace_go re_speaker strong_template (Some d) s 0 = u ++ t /\
             forall t', pre ++ str "Speaker" ++ w :: tok ++ 58%N :: t' =
                        d :: u ++ t').
  { pose proof (label_tail_no_lt w tok W A) as T.
    destruct P as [-> | ->]; norm_str; cbn [app] in E |- *;
      injection E as -> E;
      [exists (str "peaker" ++ w :: tok ++ [58%N])
      |exists (str "strong>Speaker" ++ w :: tok ++ [58%N])];
      (split; [exact T|]); norm_str; cbn [app];
      (split; [rewrite E|intros t']); now rewrite <- app_assoc. }
  destruct U as (u & Hu & E' & Eu).
  destruct (scan_prefix u s (Some d) t Hu E') as (t' & ->).
  rewrite <- B in B'.
  destruct (speaker_match p pre w tok t' B' P W N A) as (y' & suf & M2 & _).
  rewrite Eu in M2; pose proof (eq_trans (eq_sym M) M2) as Z; discriminate Z.
Qed.

(** The speaker pass changes nothing in its own output. *)
Lemma speaker_twice :
  forall (n : nat) (s : jsstring) (p p' : option char),
    length s <= n -> line_start p = line_start p' ->
    replace_go re_speaker strong_template p'
      (replace_go re_speaker strong_template p s 0) 0 =
    replace_go re_speaker strong_template p s 0.
Proof.
  induction n as [|n IH]; intros s p p' L B.
  - destruct s; [|simpl in L; lia].
    cbn [replace_go]; rewrite !speaker_none_nil.
    cbn [replace_go]; now rewrite speaker_none_nil.
  - destruct (match_at re_speaker p s) as [y|] eqn:M.
    + destruct (speaker_step p s y M)
        as (w & tok & c & Bp & W & N & A & Tc & Ly & E).
      rewrite E.
      set (X := replace_go re_speaker strong_template (Some c) (rest y) 0).
      destruct (speaker_match p' (str "<strong>") w tok (str "</strong>" ++ X))
        as (y2 & suf & M2 & C2 & _ & _ & R2);
        [now rewrite <- B|now right|assumption..|].
      specialize (R2 X eq_refl).
      set (R := str "<strong>" ++ (str "Speaker" ++ w :: tok ++ [58%N]) ++
                str "</strong>").
      assert (E2 : str "<strong>" ++ (str "Speaker" ++ w :: tok ++ [58%N]) ++
                   str "</strong>" ++ X = R ++ X)
        by (unfold R; now rewrite <- !app_assoc).
      assert (E3 : str "<strong>" ++ str "Speaker" ++ w :: tok ++
                   58%N :: str "</strong>" ++ X = R ++ X).
      { unfold R; rewrite <- !app_assoc; cbn [app]; now rewrite <- !app_assoc. }
      rewrite E3 in M2; rewrite E2.
      rewrite (replace_go_found re_speaker strong_template p' R X y2);
        [|discriminate|exact M2|exact R2].
      rewrite strong_template_eq, C2; cbn [capture Nat.eqb].
      assert (Last : last_char R p' = Some 62%N)
        by (unfold R; rewrite !last_char_app; reflexivity).
      assert (Fix : replace_go re_speaker strong_template (Some 62%N) X 0 = X).
      { apply IH; [lia|].
        unfold line_start, at_bol; cbn [prev andb]; now rewrite Tc. }
      rewrite Last, Fix; unfold R; now rewrite <- !app_assoc.
    + destruct s as [|d s].
      * cbn [replace_go]; rewrite !speaker_none_nil.
        cbn [replace_go]; now rewrite speaker_none_nil.
      * rewrite (step_none _ _ _ _ _ M).
        rewrite (step_none _ _ _ _ _ (speaker_no_new p p' d s B M)).
        f_equal; apply IH; [simpl in L; lia|reflexivity].
Qed.

(** *** Transcripts *)

Lemma well_formed_parts (t : turn) :
  well_formed t = true ->
  is_space (gap t) = true /\ dot (gap t) = true /\ token t <> [] /\
  forallb alnum (token t) = true /\ forallb literal_char (said t) = true.
Proof.
  unfold well_formed; intros H.
  apply andb_prop in H as [H S]; apply andb_prop in H as [H T].
  apply andb_prop in H as [G D].
  destruct (token t); [discriminate T|]; repeat split; easy.
Qed.

(** Letters, digits and white space that ends no line are literal. *)
Lemma alnum_literal (c : char) : alnum c = true -> literal_char c = true.
Proof.
  unfold alnum, literal_char, dot, is_line_terminator, none_of, one_of.
  norm_str; cbn [existsb app]; intros H.
  rewrite ?orb_true_iff, ?andb_true_iff, ?N.leb_le in H.
  rewrite andb_true_iff, !negb_true_iff, !orb_false_iff, !N.eqb_neq.
  repeat split; try discriminate; lia.
Qed.

Lemma gap_literal (c : char) :
  is_space c = true -> dot c = true -> literal_char c = true.
Proof.
  unfold literal_char; intros S D; rewrite D; cbn [andb].
  unfold none_of, one_of; norm_str; cbn [existsb app].
  rewrite negb_true_iff, !orb_false_iff, !N.eqb_neq.
  repeat split; try discriminate; intros ->; discriminate S.
Qed.

Lemma label_literal (t : turn) :
  well_formed t = true -> forallb literal_char (label t) = true.
Proof.
  intros H; destruct (well_formed_parts t H) as (G & D & _ & A & _).
  unfold label; rewrite forallb_app; apply andb_true_intro; split;
    [reflexivity|].
  cbn [forallb]; rewrite (gap_literal _ G D); cbn [andb].
  rewrite forallb_app; apply andb_true_intro; split; [|reflexivity].
  apply forallb_forall; intros c I; apply alnum_literal.
  rewrite forallb_forall in A; now apply A.
Qed.

Lemma literal_lacks (K : char -> bool) (s : jsstring) :
  (forall c, K c = true -> literal_char c = false) ->
  forallb literal_char s = true -> existsb K s = false.
Proof.
  intros HK F; destruct (existsb K s) eqn:E; [|reflexivity].
  apply existsb_exists in E as (c & I & Kc).
  rewrite forallb_forall in F; apply F in I.
  apply HK in Kc; congruence.
Qed.

Lemma literal_dot (s : jsstring) :
  forallb literal_char s = true -> forallb dot s = true.
Proof.
  intros F; apply forallb_forall; intros c I.
  rewrite forallb_forall in F; apply F in I.
  unfold literal_char in I; now apply andb_prop in I as [D _].
Qed.

(** A character that is not literal, as a key. *)
Lemma key_literal (k : char) :
  literal_char k = false ->
  forall c, (k =? c)%N = true -> literal_char c = false.
Proof. intros H c E; apply N.eqb_eq in E; now subst c. Qed.

(** Puts the result [E] of a scan in the place of that scan. *)
Ltac scanned E :=
  match goal with
  | |- context [replace_go ?a ?b ?c ?d ?e] =>
      let Z := fresh "Z" in
      let H := fresh "H" in
      set (Z := replace_go a b c d e);
      match type of E with
      | _ = ?r => assert (H : Z = r) by exact E
      end;
      clearbody Z; subst Z
  end.

(** Inside a line the speaker pass copies. *)
Lemma speaker_copy (l : jsstring) :
  forall (t : jsstring) (c : char),
    is_line_terminator c = false -> forallb dot l = true ->
    exists c',
      is_line_terminator c' = false /\
      replace_go re_speaker strong_template (Some c) (l ++ t) 0 =
      l ++ replace_go re_speaker strong_template (Some c') t 0.
Proof.
  induction l as [|a l IH]; intros t c Tc D; [now exists c|].
  cbn [forallb] in D; apply andb_prop in D as [Da D].
  unfold dot in Da; apply negb_true_iff in Da.
  destruct (IH t a Da D) as (c' & Tc' & E).
  exists c'; split; [easy|].
  cbn [app]; rewrite step_none by now apply speaker_inside.
  now rewrite E.
Qed.

(** A label begins with its first letter or with the tag. *)
Lemma speaker_head (p : option char) (c : char) (s : jsstring) :
  (c =? 60)%N = false -> (c =? 83)%N = false ->
  match_at re_speaker p (c :: s) = None.
Proof.
  intros H1 H2; destruct (match_at re_speaker p (c :: s)) as [y|] eqn:M;
    [exfalso|reflexivity].
  apply speaker_shape in M
      as (_ & pre & w & tok & t & [-> | ->] & _ & _ & _ & E);
    norm_str; cbn [app] in E; injection E as -> _; discriminate.
Qed.

Lemma literal_head (s t : jsstring) (k : char) :
  forallb literal_char s = true -> literal_char k = false ->
  match t with [] => True | c :: _ => (k =? c)%N = false end ->
  match s ++ t with [] => True | c :: _ => (k =? c)%N = false end.
Proof.
  destruct s as [|c s]; [easy|]; cbn [forallb app]; intros F K _.
  apply andb_prop in F as [F _].
  destruct (N.eqb_spec k c) as [->|]; [congruence|reflexivity].
Qed.

(** The speaker pass on a transcript: a bare label goes into a container, a
    label between asterisks is left for the next pass. *)
Lemma speaker_lines (ts : list turn) :
  forallb well_formed ts = true ->
  forall p,
    line_start p = true ->
    replace_go re_speaker strong_template p
      (join_lines (List.map turn_line ts)) 0 =
    join_lines
      (List.map (fun t => if starred t then turn_line t else labelled t) ts).
Proof.
  induction ts as [|t ts IH]; intros F p B.
  - cbn [List.map join_lines replace_go]; now rewrite speaker_none_nil.
  - cbn [forallb] in F; apply andb_prop in F as [Ft F].
    destruct (well_formed_parts t Ft) as (G & D & N & A & S).
    pose proof (label_literal t Ft) as Ll.
    cbn [List.map]; rewrite !join_cons.
    set (T := match List.map turn_line ts with
              | [] => []
              | _ :: _ => nl :: join_lines (List.map turn_line ts)
              end).
    set (T' := match List.map
                       (fun t => if starred t then turn_line t else labelled t)
                       ts with
               | [] => []
               | _ :: _ =>
                   nl :: join_lines
                           (List.map
                              (fun t => if starred t then turn_line t
                                        else labelled t) ts)
               end).
    assert (Tail : forall c,
               is_line_terminator c = false ->
               replace_go re_speaker strong_template (Some c) T 0 = T').
    { intros c Tc; unfold T, T'; destruct ts as [|t' ts'];
        cbn [List.map].
      - cbn [replace_go]; now rewrite speaker_none_nil.
      - rewrite step_none by now apply speaker_inside.
        f_equal; apply (IH F); reflexivity. }
    assert (Th : match T with [] => True | c :: _ => (60 =? c)%N = false end)
      by (unfold T; now destruct (List.map turn_line ts)).
    unfold turn_line at 1; destruct (starred t) eqn:St.
    + rewrite <- !app_assoc.
      assert (E0 : str "**" ++ label t ++ str "**" ++ said t ++ T =
                   42%N :: (42%N :: label t ++ str "**" ++ said t) ++ T)
        by (norm_str; cbn [app]; now rewrite <- !app_assoc).
      rewrite E0, step_none by now apply speaker_head.
      destruct (speaker_copy (42%N :: label t ++ str "**" ++ said t) T 42%N)
        as (c' & Tc' & E); [reflexivity| |].
      { cbn [forallb]; rewrite forallb_app, (literal_dot _ Ll).
        now rewrite forallb_app, (literal_dot _ S). }
      etransitivity; [apply (f_equal (cons 42%N)); exact E|].
      rewrite (Tail c' Tc'); unfold turn_line; rewrite St.
      norm_str; cbn [app]; now rewrite <- !app_assoc.
    + rewrite <- !app_assoc.
      destruct (speaker_match p [] (gap t) (token t) (said t ++ T) B)
        as (y & suf & M & C & Es & Ss & _); [now left|assumption..|].
      assert (R : rest y = said t ++ T).
      { destruct Ss as [-> | ->]; [now rewrite Es|exfalso].
        pose proof (literal_head (said t) T 60%N S eq_refl Th) as H.
        rewrite Es in H; discriminate H. }
      assert (E : label t ++ said t ++ T =
                  [] ++ str "Speaker" ++ gap t :: token t ++
                  58%N :: said t ++ T).
      { unfold label; rewrite <- !app_assoc; cbn [app].
        now rewrite <- !app_assoc. }
      rewrite <- E in M.
      rewrite (replace_go_found _ _ p (label t) (said t ++ T) y);
        [|unfold label; discriminate|exact M|exact R].
      rewrite strong_template_eq, C; cbn [capture Nat.eqb].
      assert (Last : last_char (label t) p = Some 58%N)
        by (unfold label; rewrite last_char_app; cbn [last_char];
            now rewrite last_char_app).
      rewrite Last.
      destruct (speaker_copy (said t) T 58%N) as (c' & Tc' & E');
        [reflexivity|now apply literal_dot|].
      scanned E'; rewrite (Tail c' Tc'); unfold labelled, label.
      now rewrite <- !app_assoc.
Qed.

(** A pass whose matches all begin with the character [k] copies text
    without [k]. *)
Lemma scan_copy (re : regex) (f : list (nat * jsstring) -> jsstring)
    (k : char) :
  (forall q s y, match_at re q s = Some y -> hd_error s = Some k) ->
  forall (w t : jsstring) (p : option char),
    existsb (N.eqb k) w = false ->
    replace_go re f p (w ++ t) 0 = w ++ replace_go re f (last_char w p) t 0.
Proof.
  intros First; induction w as [|c w IH]; intros t p K; [reflexivity|].
  cbn [existsb] in K; apply orb_false_elim in K as [Kc K].
  cbn [app last_char]; rewrite step_none, IH; [reflexivity|exact K|].
  destruct (match_at re p (c :: w ++ t)) as [y|] eqn:M; [|reflexivity].
  apply First in M; injection M as ->; now rewrite N.eqb_refl in Kc.
Qed.

Lemma strong_head (c : char) (q : option char) (s : jsstring) (y : mstate) :
  match_at (re_strong [c; c]) q s = Some y -> hd_error s = Some c.
Proof.
  intros M; apply (delimited_first dot) in M.
  destruct s as [|e s]; [discriminate M|].
  cbn [startsWith] in M; apply andb_prop in M as [E _].
  apply N.eqb_eq in E; now subst.
Qed.

Lemma labelled_literal (K : char -> bool) (t : turn) :
  existsb K (str "<strong>") = false -> existsb K (str "</strong>") = false ->
  (forall c, K c = true -> literal_char c = false) ->
  well_formed t = true -> existsb K (labelled t) = false.
Proof.
  intros K1 K2 HK F; destruct (well_formed_parts t F) as (_ & _ & _ & _ & S).
  unfold labelled; rewrite !existsb_app, K1, K2.
  rewrite (literal_lacks K _ HK (label_literal t F)).
  now rewrite (literal_lacks K _ HK S).
Qed.

(** The pass for two asterisks on the transcript as the speaker pass leaves
    it: the labels between asterisks go into containers. *)
Lemma bold_lines (ts : list turn) :
  forallb well_formed ts = true ->
  forall p,
    replace_go (re_strong [42; 42]%N) strong_template p
      (join_lines
         (List.map (fun t => if starred t then turn_line t else labelled t) ts))
      0 =
    join_lines (List.map labelled ts).
Proof.
  set (re := re_strong [42; 42]%N).
  assert (E0 : forall q, replace_go re strong_template q [] 0 = []).
  { intros q; cbn [replace_go].
    destruct (match_at re q []) as [y|] eqn:M; [|reflexivity].
    now apply strong_head in M. }
  induction ts as [|t ts IH]; intros F p; [apply E0|].
  cbn [forallb] in F; apply andb_prop in F as [Ft F].
  destruct (well_formed_parts t Ft) as (G & D & N & A & S).
  pose proof (label_literal t Ft) as Ll.
  cbn [List.map]; rewrite !join_cons.
  set (T := match List.map
                    (fun t => if starred t then turn_line t else labelled t)
                    ts with
            | [] => []
            | _ :: _ =>
                nl :: join_lines
                        (List.map
                           (fun t => if starred t then turn_line t
                                     else labelled t) ts)
            end).
  set (T' := match List.map labelled ts with
             | [] => []
             | _ :: _ => nl :: join_lines (List.map labelled ts)
             end).
  assert (Tail : forall q, replace_go re strong_template q T 0 = T').
  { intros q; unfold T, T'; destruct ts as [|t' ts']; cbn [List.map];
      [apply E0|].
    rewrite step_none.
    - f_equal; apply (IH F).
    - destruct (match_at re q _) as [y|] eqn:M; [|reflexivity].
      now apply strong_head in M. }
  destruct (starred t) eqn:St.
  - unfold turn_line; rewrite St.
    assert (E : (str "**" ++ label t ++ str "**") ++ said t ++ T =
                ([42; 42]%N ++ label t ++ [42; 42]%N) ++ said t ++ T)
      by reflexivity.
    assert (M : match_at re p
                  (([42; 42]%N ++ label t ++ [42; 42]%N) ++ said t ++ T) =
                Some (MState (last_char [42; 42]%N
                                (last_char (label t) (last_char [42; 42]%N p)))
                             (said t ++ T) [(1, label t)])).
    { rewrite <- !app_assoc; apply delimited_match; [now apply literal_dot|].
      intros w1 [|e w2] Ew N2; [easy|].
      cbn [app startsWith].
      rewrite (lacking_head 42%N e (label t) []); [reflexivity| |].
      - now apply (literal_lacks _ _ (key_literal 42%N eq_refl)).
      - rewrite Ew; apply in_or_app; right; now left. }
    rewrite <- app_assoc.
    assert (R0 : [42; 42]%N ++ label t ++ [42; 42]%N <> []) by discriminate.
    pose proof (replace_go_found re strong_template p _ _ _ R0 M eq_refl)
      as R1.
    scanned R1.
    cbn [caps]; rewrite strong_template_eq; cbn [capture Nat.eqb].
    pose proof (scan_copy re strong_template 42%N (strong_head 42%N)
                  (said t) T
                  (last_char ([42; 42]%N ++ label t ++ [42; 42]%N) p)
                  (literal_lacks _ _ (key_literal 42%N eq_refl) S)) as C.
    scanned C; rewrite Tail; unfold labelled.
    now rewrite <- !app_assoc.
  - pose proof (scan_copy re strong_template 42%N (strong_head 42%N)
                  (labelled t) T p
                  (labelled_literal (N.eqb 42) t eq_refl eq_refl
                     (key_literal 42%N eq_refl) Ft)) as C.
    scanned C; now rewrite Tail.
Qed.

(** *** The list passes on lines that begin with a tag *)

(** A pass that is anchored at the start of a line copies inside a line. *)
Lemma anchored_copy (re : regex) (f : list (nat * jsstring) -> jsstring) :
  (forall c s y, match_at re (Some c) s = Some y ->
                 is_line_terminator c = true) ->
  forall (l t : jsstring) (c : char),
    is_line_terminator c = false -> forallb dot l = true ->
    exists c',
      is_line_terminator c' = false /\
      replace_go re f (Some c) (l ++ t) 0 =
      l ++ replace_go re f (Some c') t 0.
Proof.
  intros Anchored; induction l as [|a l IH]; intros t c Tc D;
    [now exists c|].
  cbn [forallb] in D; apply andb_prop in D as [Da D].
  unfold dot in Da; apply negb_true_iff in Da.
  destruct (IH t a Da D) as (c' & Tc' & E).
  exists c'; split; [easy|]; cbn [app]; rewrite step_none, E; [easy|].
  destruct (match_at re (Some c) (a :: l ++ t)) as [y|] eqn:M; [|reflexivity].
  apply Anchored in M; congruence.
Qed.

(** Such a pass leaves lines alone that begin with a tag, when it cannot
    match in front of [<]. *)
Lemma anchored_lines (re : regex) (f : list (nat * jsstring) -> jsstring)
    (ls : list jsstring) :
  (forall c s y, match_at re (Some c) s = Some y ->
                 is_line_terminator c = true) ->
  (forall q s, match_at re q (60%N :: s) = None) ->
  (forall q, match_at re q [] = None) ->
  (forall l, In l ls -> exists l', l = 60%N :: l' /\ forallb dot l' = true) ->
  forall p, replace_go re f p (join_lines ls) 0 = join_lines ls.
Proof.
  intros Anchored Tag Nil.
  assert (E0 : forall q, replace_go re f q [] 0 = [])
    by (intros q; cbn [replace_go]; now rewrite Nil).
  induction ls as [|l ls IH]; intros H p; [apply E0|].
  destruct (H l (or_introl eq_refl)) as (l' & -> & D).
  rewrite join_cons.
  set (T := match ls with [] => [] | _ :: _ => nl :: join_lines ls end).
  assert (Tail : forall c, is_line_terminator c = false ->
                           replace_go re f (Some c) T 0 = T).
  { intros c Tc; unfold T; destruct ls as [|k ls']; [apply E0|].
    rewrite step_none.
    - f_equal; apply IH; intros l0 I; apply H; now right.
    - destruct (match_at re (Some c) _) as [y|] eqn:M; [|reflexivity].
      apply Anchored in M; congruence. }
  cbn [app]; rewrite step_none by apply Tag.
  destruct (anchored_copy re f Anchored l' T 60%N eq_refl D) as (c' & Tc' & E).
  scanned E; now rewrite (Tail c' Tc').
Qed.

Lemma ul_at_tag (q : option char) (s : jsstring) :
  match_at re_ul q (60%N :: s) = None.
Proof.
  rewrite match_at_bt; unfold re_ul; rewrite bt_seq, bt_bol.
  destruct (at_bol true _); [|reflexivity].
  rewrite bt_seq, bt_greedy_stop by reflexivity.
  now rewrite bt_seq, bt_cls_fail.
Qed.

Lemma ol_at_tag (q : option char) (s : jsstring) :
  match_at re_ol q (60%N :: s) = None.
Proof.
  rewrite match_at_bt; unfold re_ol, Plus; rewrite bt_seq, bt_bol.
  destruct (at_bol true _); [|reflexivity].
  rewrite bt_seq, bt_greedy_stop by reflexivity.
  now rewrite !bt_seq, bt_cls_fail.
Qed.

Lemma labelled_line (t : turn) :
  well_formed t = true ->
  exists l', labelled t = 60%N :: l' /\ forallb dot l' = true.
Proof.
  intros F; destruct (well_formed_parts t F) as (_ & _ & _ & _ & S).
  exists (str "strong>" ++ label t ++ str "</strong>" ++ said t).
  split; [reflexivity|].
  rewrite !forallb_app, (literal_dot _ (label_literal t F)).
  now rewrite (literal_dot _ S).
Qed.

Lemma labelled_lines (ts : list turn) :
  forallb well_formed ts = true ->
  forall l, In l (List.map labelled ts) ->
            exists l', l = 60%N :: l' /\ forallb dot l' = true.
Proof.
  intros F l I; apply in_map_iff in I as (t & <- & It).
  rewrite forallb_forall in F; now apply labelled_line, F.
Qed.

Lemma labelled_lack (K : char -> bool) (ts : list turn) :
  K nl = false ->
  existsb K (str "<strong>") = false -> existsb K (str "</strong>") = false ->
  (forall c, K c = true -> literal_char c = false) ->
  forallb well_formed ts = true ->
  existsb K (join_lines (List.map labelled ts)) = false.
Proof.
  intros Kn K1 K2 HK F; apply join_lacks; [exact Kn|].
  intros l I; apply in_map_iff in I as (t & <- & It).
  rewrite forallb_forall in F; now apply labelled_literal, F.
Qed.

(** The transcript holds the closing tag of no list. *)
Lemma labelled_no_word (x : char) (ts : list turn) :
  x = 117%N \/ x = 111%N ->
  forallb well_formed ts = true ->
  includes (join_lines (List.map labelled ts)) [60; 47; x; 108; 62]%N = false.
Proof.
  intros Hx; induction ts as [|t ts IH]; intros F; [reflexivity|].
  cbn [forallb] in F; apply andb_prop in F as [Ft F].
  destruct (well_formed_parts t Ft) as (G & D & N & A & S).
  cbn [List.map]; rewrite join_cons.
  set (T := match List.map labelled ts with
            | [] => []
            | _ :: _ => nl :: join_lines (List.map labelled ts)
            end).
  assert (IT : includes T [60; 47; x; 108; 62]%N = false).
  { unfold T; destruct ts as [|t' ts']; [reflexivity|].
    cbn [List.map]; rewrite includes_cons_other by reflexivity.
    now apply IH. }
  clearbody T; unfold labelled, label.
  norm_str; cbn [app]; rewrite <- !app_assoc; cbn [app].
  assert (St : forall r, startsWith (47 :: 115 :: r)%N [47; x; 108; 62]%N =
                         false)
    by (intros r; destruct Hx as [-> | ->]; reflexivity).
  rewrite includes_cons_same; cbn [startsWith N.eqb Pos.eqb andb orb].
  repeat (rewrite includes_cons_other by reflexivity).
  rewrite includes_cons_other
    by (apply (space_not 60%N); [reflexivity|exact G]).
  rewrite includes_skip by now apply (class_lacks alnum).
  rewrite includes_cons_other by reflexivity.
  rewrite includes_cons_same, St; cbn [orb].
  repeat (rewrite includes_cons_other by reflexivity).
  rewrite includes_skip
    by now apply (literal_lacks _ _ (key_literal 60%N eq_refl)).
  exact IT.
Qed.

Lemma transcript_no_lists (ts : list turn) :
  forallb well_formed ts = true ->
  orderedLists (unorderedLists (join_lines (List.map labelled ts))) =
  join_lines (List.map labelled ts).
Proof.
  intros F; set (B := join_lines (List.map labelled ts)).
  assert (U : unorderedLists B = B).
  { unfold unorderedLists; cbv zeta.
    assert (E : replace re_ul
                  (fun cs => str "<ul><li>" ++ trim (capture cs 1) ++
                             str "</li></ul>") B = B).
    { apply anchored_lines;
        [apply ul_not_bol|apply ul_at_tag| |now apply labelled_lines].
      intros q; destruct (match_at re_ul q []) as [y|] eqn:M; [|reflexivity].
      now apply ul_trigger in M. }
    rewrite E.
    apply (replace_without (str "</ul>")); [apply merge_first|].
    apply (labelled_no_word 117%N); [now left|exact F]. }
  rewrite U; unfold orderedLists; cbv zeta.
  assert (E : replace re_ol
                (fun cs => str "<ol><li>" ++ trim (capture cs 1) ++
                           str "</li></ol>") B = B).
  { apply anchored_lines;
      [apply ol_not_bol|apply ol_at_tag| |now apply labelled_lines].
    intros q; destruct (match_at re_ol q []) as [y|] eqn:M; [|reflexivity].
    now apply ol_trigger in M. }
  rewrite E.
  apply (replace_without (str "</ol>")); [apply merge_first|].
  apply (labelled_no_word 111%N); [now right|exact F].
Qed.

(** The characters that [literal_char] excludes, as keys of the passes. *)
Lemma escaped_not_literal (c : char) :
  one_of [38; 60; 62; 34; 39]%N c = true -> literal_char c = false.
Proof.
  unfold one_of; cbn [existsb]; intros H.
  repeat (apply orb_prop in H as [H|H]; [apply N.eqb_eq in H; now subst|]).
  discriminate H.
Qed.

Lemma turn_lines_lack (K : char -> bool) (ts : list turn) :
  K nl = false -> K 42%N = false ->
  (forall c, K c = true -> literal_char c = false) ->
  forallb well_formed ts = true ->
  existsb K (join_lines (List.map turn_line ts)) = false.
Proof.
  intros Kn Ks HK F; apply join_lacks; [exact Kn|].
  intros l I; apply in_map_iff in I as (t & <- & It).
  rewrite forallb_forall in F; apply F in It.
  destruct (well_formed_parts t It) as (_ & _ & _ & _ & S).
  pose proof (literal_lacks K _ HK (label_literal t It)) as Ll.
  unfold turn_line; rewrite existsb_app, (literal_lacks K _ HK S), orb_false_r.
  destruct (starred t); [|exact Ll].
  rewrite !existsb_app, Ll; norm_str; cbn [existsb].
  now rewrite Ks.
Qed.

(** The inline passes on a transcript: every label in one container, the
    text behind it as it was. *)
Lemma transcript_inline (ts : list turn) :
  forallb well_formed ts = true ->
  inlinePasses (VString (join_lines (List.map turn_line ts))) =
  join_lines (List.map labelled ts).
Proof.
  intros F; unfold inlinePasses, escapeHtml; cbv zeta.
  rewrite escape_keep
    by (apply turn_lines_lack;
        [reflexivity|reflexivity|exact escaped_not_literal|exact F]).
  rewrite codeBlocks_idle
    by (apply turn_lines_lack;
        [reflexivity|reflexivity|exact (key_literal 96%N eq_refl)|exact F]).
  rewrite inlineCode_idle
    by (apply turn_lines_lack;
        [reflexivity|reflexivity|exact (key_literal 96%N eq_refl)|exact F]).
  assert (S : speakerLabels (join_lines (List.map turn_line ts)) =
              join_lines
                (List.map (fun t => if starred t then turn_line t
                                    else labelled t) ts))
    by exact (speaker_lines ts F None eq_refl).
  rewrite S; unfold bold.
  assert (B : replace (re_strong (str "**")) strong_template
                (join_lines
                   (List.map (fun t => if starred t then turn_line t
                                       else labelled t) ts)) =
              join_lines (List.map labelled ts))
    by exact (bold_lines ts F None).
  rewrite B.
  change (str "__") with [95; 95]%N.
  rewrite (strong_idle 95%N)
    by (apply labelled_lack;
        [reflexivity..|exact (key_literal 95%N eq_refl)|exact F]).
  rewrite italic_idle
    by (apply labelled_lack;
        first [reflexivity|exact (key_literal 42%N eq_refl)
              |exact (key_literal 95%N eq_refl)|exact F]).
  now apply transcript_no_lists.
Qed.

(** *** Block assembly of a transcript *)

Lemma split_on_line (l J : jsstring) :
  existsb (N.eqb nl) l = false ->
  split_on nl (l ++ nl :: J) = l :: split_on nl J.
Proof.
  induction l as [|d l IH]; cbn [existsb app split_on]; intros H.
  - now rewrite N.eqb_refl.
  - apply orb_false_elim in H as [Hd H].
    rewrite N.eqb_sym, Hd, (IH H); reflexivity.
Qed.

Lemma split_on_lines (l : jsstring) (ls : list jsstring) :
  (forall k, In k (l :: ls) -> existsb (N.eqb nl) k = false) ->
  split_on nl (join_lines (l :: ls)) = l :: ls.
Proof.
  revert l; induction ls as [|k ls IH]; intros l H.
  - apply split_on_one, H; now left.
  - rewrite join_cons, split_on_line by (apply H; now left).
    f_equal; apply IH; intros k' I; apply H; now right.
Qed.

Lemma labelled_text_line (t : turn) :
  well_formed t = true -> text_line (labelled t) = true.
Proof.
  intros F.
  destruct (text_piece [] (str "trong>" ++ label t ++ str "</strong>" ++ said t)
              115%N eq_refl eq_refl) as (c & l & E & C).
  assert (E' : trim (labelled t) = c :: l) by exact E.
  unfold text_line, blank_line; now rewrite E', C.
Qed.

(** A transcript is rendered as one paragraph, each further line behind a
    line break. *)
Lemma transcript_render (t : turn) (ts : list turn) :
  forallb well_formed (t :: ts) = true ->
  markdownToHtml (VString (join_lines (List.map turn_line (t :: ts)))) =
  Ok (str "<p>" ++ trim (labelled t) ++ broken_lines (List.map labelled ts) ++
      str "</p>").
Proof.
  intros F; rewrite markdownToHtml_render.
  - rewrite render_paragraphs, (transcript_inline _ F); f_equal.
    pose proof F as F'; cbn [forallb] in F'; apply andb_prop in F' as [Ft Fs].
    rewrite (paragraphs_run _ [] (labelled t) (List.map labelled ts) []).
    + cbn [paragraphLines fst tl closeParagraph app].
      now rewrite app_nil_r.
    + rewrite app_nil_r; apply (split_on_lines (labelled t)).
      intros k I.
      apply (in_map_iff labelled (t :: ts) k) in I as (t' & <- & It).
      rewrite forallb_forall in F; apply F in It.
      apply dot_no_nl.
      destruct (labelled_line t' It) as (l' & -> & D).
      cbn [forallb]; now rewrite D.
    + reflexivity.
    + now apply labelled_text_line.
    + apply forallb_forall; intros k I.
      apply in_map_iff in I as (t' & <- & It).
      rewrite forallb_forall in Fs; now apply labelled_text_line, Fs.
    + reflexivity.
  - cbn [blank_input]; apply (not_blank _ 83%N); [|reflexivity].
    cbn [List.map]; rewrite join_cons; apply in_or_app; left.
    unfold turn_line; apply in_or_app; left.
    destruct (starred t); [right; right|]; now left.
Qed.

(** A label at the start of the buffer, with or without the tags of an
    earlier pass around it, comes out in one container. *)
Lemma speaker_wrapped (t : turn) (pre suf : jsstring) :
  well_formed t = true ->
  pre = [] \/ pre = str "<strong>" -> suf = [] \/ suf = str "</strong>" ->
  speakerLabels (pre ++ label t ++ suf ++ said t) = labelled t.
Proof.
  intros F P Sf; destruct (well_formed_parts t F) as (G & D & N & A & S).
  destruct (speaker_match None pre (gap t) (token t) (suf ++ said t)
              eq_refl P G N A) as (y & suf' & M & C & Es & Ss & Rs).
  assert (R : rest y = said t).
  { destruct Sf as [-> | ->]; [|now apply Rs].
    cbn [app] in Es.
    destruct Ss as [-> | ->]; [symmetry; exact Es|exfalso].
    destruct (said t) as [|c s']; [discriminate Es|].
    norm_str; cbn [app] in Es; injection Es as -> _.
    cbn [forallb] in S; discriminate S. }
  set (M0 := pre ++ label t ++ suf).
  assert (E : pre ++ str "Speaker" ++ gap t :: token t ++
              58%N :: suf ++ said t = M0 ++ said t).
  { unfold M0, label; rewrite <- !app_assoc; cbn [app].
    now rewrite <- !app_assoc. }
  assert (E' : pre ++ label t ++ suf ++ said t = M0 ++ said t)
    by (unfold M0; now rewrite <- !app_assoc).
  assert (N0 : M0 <> []).
  { unfold M0, label; destruct P as [-> | ->]; norm_str; cbn [app];
      discriminate. }
  assert (L : exists c, last_char M0 None = Some c /\
                        is_line_terminator c = false).
  { unfold M0, label; rewrite !last_char_app; cbn [last_char].
    rewrite last_char_app; cbn [last_char].
    destruct Sf as [-> | ->]; eexists; split; reflexivity. }
  destruct L as (c & L & Tc).
  rewrite E in M; rewrite E'; unfold speakerLabels, replace.
  pose proof (replace_go_found re_speaker strong_template None M0 (said t) y
                N0 M R) as R1.
  scanned R1; rewrite strong_template_eq, C, L; cbn [capture Nat.eqb].
  destruct (speaker_copy (said t) [] c Tc (literal_dot _ S))
    as (c' & _ & E2).
  rewrite app_nil_r in E2; scanned E2.
  cbn [replace_go]; rewrite speaker_none_nil, app_nil_r.
  unfold labelled, label; now rewrite <- !app_assoc.
Qed.

Lemma bare_well_formed (ts : list turn) :
  forallb well_formed ts = true ->
  forallb well_formed (List.map bare ts) = true.
Proof.
  intros F; apply forallb_forall; intros k I.
  apply in_map_iff in I as (t & <- & It).
  rewrite forallb_forall in F; exact (F t It).
Qed.

Lemma bare_labelled (ts : list turn) :
  List.map labelled (List.map bare ts) = List.map labelled ts.
Proof. rewrite map_map; now apply map_ext. Qed.

(** C8. The speaker pass is not cumulative: applied to its own output, on
    any buffer, it changes nothing; and a label at the start of the buffer
    comes out of it in exactly one strong-emphasis container, whether it
    stood there bare or already had the opening tag, the closing tag or both
    around it.  A transcript whose lines each begin with a label, written
    bare or between two pairs of asterisks, is rendered with every label in
    exactly one container and the text behind it as it was, the lines in one
    paragraph with a line break between them; what is returned is the same
    when every label is written bare.  The two inputs of the claim are such
    transcripts of one line, and both give the one container with the text
    behind it. *)
Theorem speaker_label_once :
  (forall b : jsstring, speakerLabels (speakerLabels b) = speakerLabels b) /\
  (forall (t : turn) (pre suf : jsstring),
      well_formed t = true ->
      pre = [] \/ pre = str "<strong>" -> suf = [] \/ suf = str "</strong>" ->
      speakerLabels (pre ++ label t ++ suf ++ said t) = labelled t) /\
  (forall (t : turn) (ts : list turn),
      forallb well_formed (t :: ts) = true ->
      inlinePasses (VString (join_lines (List.map turn_line (t :: ts)))) =
      join_lines (List.map labelled (t :: ts)) /\
      markdownToHtml (VString (join_lines (List.map turn_line (t :: ts)))) =
      Ok (str "<p>" ++ trim (labelled t) ++
          broken_lines (List.map labelled ts) ++ str "</p>") /\
      markdownToHtml (VString (join_lines (List.map turn_line (t :: ts)))) =
      markdownToHtml
        (VString (join_lines (List.map turn_line (List.map bare (t :: ts)))))) /\
  markdownToHtml (VString (str "**Speaker 1:** hello")) =
  Ok (str "<p><strong>Speaker 1:</strong> hello</p>") /\
  markdownToHtml (VString (str "Speaker 1: hello")) =
  Ok (str "<p><strong>Speaker 1:</strong> hello</p>").
Proof.
  split; [|split; [|split; [|split; vm_compute; reflexivity]]].
  - intros b; exact (speaker_twice (length b) b None None (le_n _) eq_refl).
  - intros t pre suf F P S; now apply speaker_wrapped.
  - intros t ts F; split; [now apply transcript_inline|].
    split; [now apply transcript_render|].
    etransitivity; [exact (transcript_render t ts F)|]; symmetry.
    etransitivity;
      [exact (transcript_render (bare t) (List.map bare ts)
                (bare_well_formed (t :: ts) F))|].
    now rewrite bare_labelled.
Qed.

Lemma speaker_label_once_witness :
  speakerLabels (str "<strong>Speaker A:</strong> hi there") =
  str "<strong>Speaker A:</strong> hi there" /\
  markdownToHtml (VString (str "Speaker A: hi there
**Speaker 22:** 3-4 yes: ok")) =
  Ok (str "<p><strong>Speaker A:</strong> hi there<br /><strong>Speaker 22:</strong> 3-4 yes: ok</p>").
Proof.
  split.
  - exact (proj1 (proj2 speaker_label_once)
             (Turn false 32%N (str "A") (str " hi there"))
             (str "<strong>") (str "</strong>")
             eq_refl (or_intror eq_refl) (or_intror eq_refl)).
  - exact (proj1 (proj2 (proj1 (proj2 (proj2 speaker_label_once))
                           (Turn false 32%N (str "A") (str " hi there"))
                           [Turn true 32%N (str "22") (str " 3-4 yes: ok")]
                           eq_refl))).
Defined.

End SpeakerLabels.
